(** * Verification of the music-sorter batch pipeline

    Shallow embedding of the core of the music-sorter repository:
    - [utils/hashing.py]      : MD5 content fingerprints ([calculate_file_hash],
                                [calculate_full_file_hash], [verify_file_copy]);
    - [utils/io_optimizer.py] : the locality-ordered walker
                                ([get_files_sorted_by_location]) and batching;
    - [modules/indexer.py]    : [FileIndexer.index_directory] with checkpoints;
    - [modules/deduplicator.py]: [DuplicateDetector.find_duplicates];
    - [modules/migrator.py]   : [FileMigrator.migrate_library], [_get_target_path],
                                [_sanitize_name], [_migrate_file].

    Python strings are modelled as [string] (one [ascii] per code point, the
    Latin-1 range), bytes as [list byte], Python ints as [N] or [nat]. *)

From Stdlib Require Import List Bool Arith NArith ZArith Lia String Ascii.
From Stdlib Require Import Strings.Byte.
From Stdlib Require Import Sorting.Sorted Sorting.Permutation.
Import ListNotations.
Open Scope list_scope.

(* ------------------------------------------------------------------------- *)
(** ** MD5 ([hashlib.md5]) *)

Module MD5.

Local Open Scope Z_scope.

Definition mask32 (x : Z) : Z := Z.land x (2 ^ 32 - 1).
Definition add32 (x y : Z) : Z := mask32 (x + y).
Definition not32 (x : Z) : Z := Z.lxor x (2 ^ 32 - 1).
Definition rotl32 (x : Z) (s : Z) : Z :=
  mask32 (Z.lor (Z.shiftl x s) (Z.shiftr x (32 - s))).

Definition K : list Z :=
  [0xd76aa478; 0xe8c7b756; 0x242070db; 0xc1bdceee;
   0xf57c0faf; 0x4787c62a; 0xa8304613; 0xfd469501;
   0x698098d8; 0x8b44f7af; 0xffff5bb1; 0x895cd7be;
   0x6b901122; 0xfd987193; 0xa679438e; 0x49b40821;
   0xf61e2562; 0xc040b340; 0x265e5a51; 0xe9b6c7aa;
   0xd62f105d; 0x02441453; 0xd8a1e681; 0xe7d3fbc8;
   0x21e1cde6; 0xc33707d6; 0xf4d50d87; 0x455a14ed;
   0xa9e3e905; 0xfcefa3f8; 0x676f02d9; 0x8d2a4c8a;
   0xfffa3942; 0x8771f681; 0x6d9d6122; 0xfde5380c;
   0xa4beea44; 0x4bdecfa9; 0xf6bb4b60; 0xbebfbc70;
   0x289b7ec6; 0xeaa127fa; 0xd4ef3085; 0x04881d05;
   0xd9d4d039; 0xe6db99e5; 0x1fa27cf8; 0xc4ac5665;
   0xf4292244; 0x432aff97; 0xab9423a7; 0xfc93a039;
   0x655b59c3; 0x8f0ccc92; 0xffeff47d; 0x85845dd1;
   0x6fa87e4f; 0xfe2ce6e0; 0xa3014314; 0x4e0811a1;
   0xf7537e82; 0xbd3af235; 0x2ad7d2bb; 0xeb86d391].

Definition shift_of (i : nat) : Z :=
  let r := match (i / 16)%nat with
           | 0%nat => [7; 12; 17; 22]
           | 1%nat => [5; 9; 14; 20]
           | 2%nat => [4; 11; 16; 23]
           | _ => [6; 10; 15; 21]
           end in
  nth (i mod 4) r 0.

(** Little-endian 32-bit word from four bytes. *)
Definition word_le (b0 b1 b2 b3 : Z) : Z :=
  b0 + 256 * b1 + 65536 * b2 + 16777216 * b3.

Fixpoint words_le (bs : list Z) : list Z :=
  match bs with
  | b0 :: b1 :: b2 :: b3 :: rest => word_le b0 b1 b2 b3 :: words_le rest
  | _ => []
  end.

Record st := { A : Z; B : Z; C : Z; D : Z }.

Definition round (m : list Z) (s : st) (i : nat) : st :=
  let '(f, g) :=
    match (i / 16)%nat with
    | 0%nat => (Z.lor (Z.land s.(B) s.(C)) (Z.land (not32 s.(B)) s.(D)), i)
    | 1%nat => (Z.lor (Z.land s.(D) s.(B)) (Z.land (not32 s.(D)) s.(C)),
                ((5 * i + 1) mod 16)%nat)
    | 2%nat => (Z.lxor s.(B) (Z.lxor s.(C) s.(D)), ((3 * i + 5) mod 16)%nat)
    | _ => (Z.lxor s.(C) (Z.lor s.(B) (not32 s.(D))), ((7 * i) mod 16)%nat)
    end in
  let f' := add32 (add32 (add32 f s.(A)) (nth i K 0)) (nth g m 0) in
  {| A := s.(D); D := s.(C); C := s.(B);
     B := add32 s.(B) (rotl32 f' (shift_of i)) |}.

Definition block (s : st) (m : list Z) : st :=
  let s' := fold_left (round m) (seq 0 64) s in
  {| A := add32 s.(A) s'.(A); B := add32 s.(B) s'.(B);
     C := add32 s.(C) s'.(C); D := add32 s.(D) s'.(D) |}.

Definition init : st :=
  {| A := 0x67452301; B := 0xefcdab89; C := 0x98badcfe; D := 0x10325476 |}.

Definition le_bytes (n : nat) (x : Z) : list Z :=
  map (fun k => Z.land (Z.shiftr x (8 * Z.of_nat k)) 255) (seq 0 n).

(** Padding: 0x80, zeros up to 56 mod 64, then the bit length (64 bits LE). *)
Definition pad (bs : list Z) : list Z :=
  let len := List.length bs in
  let zeros := ((119 - len mod 64) mod 64)%nat in
  bs ++ [128] ++ repeat 0 zeros ++ le_bytes 8 (8 * Z.of_nat len).

Fixpoint blocks (fuel : nat) (bs : list Z) : list (list Z) :=
  match fuel with
  | O => []
  | S f => match bs with
           | [] => []
           | _ => words_le (firstn 64 bs) :: blocks f (skipn 64 bs)
           end
  end.

Definition hex_digit (n : Z) : ascii :=
  if n <? 10 then ascii_of_nat (48 + Z.to_nat n) else ascii_of_nat (87 + Z.to_nat n).

Fixpoint hex_of_bytes (bs : list Z) : string :=
  match bs with
  | [] => EmptyString
  | b :: rest => String (hex_digit (b / 16)) (String (hex_digit (b mod 16))
                                                       (hex_of_bytes rest))
  end.

(** [hashlib.md5(data).hexdigest()]. *)
Definition hexdigest (data : list byte) : string :=
  let bs := pad (map (fun b => Z.of_N (Byte.to_N b)) data) in
  let s := fold_left block (blocks (List.length bs) bs) init in
  hex_of_bytes (le_bytes 4 s.(A) ++ le_bytes 4 s.(B) ++ le_bytes 4 s.(C)
                ++ le_bytes 4 s.(D)).

End MD5.

Definition bytes_of (s : string) : list byte := list_byte_of_string s.




(* ------------------------------------------------------------------------- *)
(** ** File system model *)

(** A path is the list of its components ([Path.parts]). *)
Definition path := list string.

Definition path_eqb (p q : path) : bool :=
  if list_eq_dec string_dec p q then true else false.

(** A regular file: its bytes, and whether opening/reading it or calling
    [stat] on it raises an [OSError] (locked or unreadable file). *)
Record disk_file := {
  content : list byte;
  read_error : bool;
  stat_error : bool
}.

(** [os.stat(p).st_size]. *)
Definition st_size (d : disk_file) : N := N.of_nat (List.length (content d)).

(** The file store: an association list from paths to files. *)
Definition fs := list (path * disk_file).

Fixpoint lookup (w : fs) (p : path) : option disk_file :=
  match w with
  | [] => None
  | (q, d) :: rest => if path_eqb q p then Some d else lookup rest p
  end.

Definition exists_path (w : fs) (p : path) : bool :=
  match lookup w p with Some _ => true | None => false end.

Definition remove_path (w : fs) (p : path) : fs :=
  filter (fun e => negb (path_eqb (fst e) p)) w.

(** Writing a file replaces any previous file at that path. *)
Definition write_path (w : fs) (p : path) (d : disk_file) : fs :=
  (p, d) :: remove_path w p.

(* ------------------------------------------------------------------------- *)
(** ** [utils/hashing.py] *)

(** [f.read(n)]: at most [n] bytes from the start of the file. *)
Fixpoint read_prefix (n : N) (l : list byte) : list byte :=
  match l with
  | [] => []
  | b :: rest => if (n =? 0)%N then [] else b :: read_prefix (N.pred n) rest
  end.

(** [str(n)] for a non-negative int. *)
Fixpoint dec_digits (fuel : nat) (n : N) (acc : string) : string :=
  match fuel with
  | O => acc
  | S f =>
      let acc' := String (ascii_of_N (48 + n mod 10)) acc in
      if (n <? 10)%N then acc' else dec_digits f (n / 10) acc'
  end.

Definition str_N (n : N) : string := dec_digits (S (N.to_nat (N.size n))) n EmptyString.

(** [calculate_file_hash(file_path, chunk_size_mb)]; [None] for the file
    argument means that [open] raises (missing file).  The hasher is modelled
    by the bytes fed to it, [hexdigest] being MD5 of their concatenation. *)
Definition calculate_file_hash (f : option disk_file) (chunk_size_mb : N)
  : option string :=
  match f with
  | None => None
  | Some d =>
      if read_error d then None else
      let chunk_size := (chunk_size_mb * 1024 * 1024)%N in
      let chunk := read_prefix chunk_size (content d) in
      match chunk with
      | [] => Some (MD5.hexdigest [])
      | _ :: _ =>
          if stat_error d then None
          else Some (MD5.hexdigest (chunk ++ bytes_of (str_N (st_size d))))
      end
  end.

(** [calculate_full_file_hash(file_path)]: 8 KiB chunks fed in order, that is
    MD5 of the whole content. *)
Definition calculate_full_file_hash (f : option disk_file) : option string :=
  match f with
  | None => None
  | Some d => if read_error d then None else Some (MD5.hexdigest (content d))
  end.

(** [verify_file_copy(source, target)]. *)
Definition verify_file_copy (w : fs) (source target : path) : bool :=
  match calculate_full_file_hash (lookup w source),
        calculate_full_file_hash (lookup w target) with
  | Some h1, Some h2 => String.eqb h1 h2
  | _, _ => false
  end.


(* ------------------------------------------------------------------------- *)
(** ** Stable insertion sort (Python's [sorted] / [list.sort] on a total order) *)

Section Isort.
Context {T : Type} (cmp : T -> T -> comparison).

(** [x] goes in front of the first element it is strictly smaller than, so
    elements comparing [Eq] keep their original order (stability). *)
Fixpoint insert (x : T) (l : list T) : list T :=
  match l with
  | [] => [x]
  | y :: l' => match cmp x y with
               | Lt => x :: y :: l'
               | _ => y :: insert x l'
               end
  end.

Definition isort (l : list T) : list T :=
  fold_left (fun acc x => insert x acc) l [].

End Isort.

(* ------------------------------------------------------------------------- *)
(** ** Python string and path ordering *)

(** [str] comparison: code point by code point ([String.compare]).
    [PurePosixPath] comparison: the lists of parts, lexicographically. *)
Fixpoint path_compare (p q : path) : comparison :=
  match p, q with
  | [], [] => Eq
  | [], _ :: _ => Lt
  | _ :: _, [] => Gt
  | a :: p', b :: q' =>
      match String.compare a b with
      | Eq => path_compare p' q'
      | c => c
      end
  end.

(* ------------------------------------------------------------------------- *)
(** ** [utils/io_optimizer.py]: [get_files_sorted_by_location] *)

(** [str.lower()] on one code point of the Latin-1 range. *)
Definition lower_char (c : ascii) : ascii :=
  let n := nat_of_ascii c in
  if ((65 <=? n) && (n <=? 90)) || ((192 <=? n) && (n <=? 222) && negb (n =? 215))
  then ascii_of_nat (n + 32) else c.

Fixpoint lower (s : string) : string :=
  match s with
  | EmptyString => EmptyString
  | String c s' => String (lower_char c) (lower s')
  end.

Fixpoint rfind_dot_aux (s : string) (pos : nat) (acc : option nat) : option nat :=
  match s with
  | EmptyString => acc
  | String c s' =>
      rfind_dot_aux s' (S pos) (if Ascii.eqb c "."%char then Some pos else acc)
  end.

(** [name.rfind('.')], [None] standing for [-1]. *)
Definition rfind_dot (s : string) : option nat := rfind_dot_aux s 0 None.

(** [PurePath.suffix] of a file name:
    [i = name.rfind('.'); name[i:] if 0 < i < len(name) - 1 else ''] *)
Definition suffix (name : string) : string :=
  match rfind_dot name with
  | Some i =>
      if (0 <? i) && (i <? String.length name - 1)
      then substring i (String.length name - i) name
      else EmptyString
  | None => EmptyString
  end.

(** [PurePath.stem]. *)
Definition stem (name : string) : string :=
  match rfind_dot name with
  | Some i =>
      if (0 <? i) && (i <? String.length name - 1) then substring 0 i name else name
  | None => name
  end.

Definition audio_extensions : list string :=
  [".mp3"; ".wav"; ".flac"; ".m4a"; ".aac"; ".ogg"; ".wma"]%string.

(** [file_path.suffix.lower() in {...}] *)
Definition is_audio (name : string) : bool :=
  existsb (String.eqb (lower (suffix name))) audio_extensions.

(** One [(root, dirs, files)] triple of [os.walk]; [dirs] plays no role. *)
Definition walk_entry := (path * list string)%type.

(** [files_by_dir[root_path].append(file_path)] on a [defaultdict(list)]
    kept as an association list in key-insertion order. *)
Fixpoint add_to_bucket (bs : list (path * list path)) (root fp : path)
  : list (path * list path) :=
  match bs with
  | [] => [(root, [fp])]
  | (r, l) :: rest =>
      if path_eqb r root then (r, l ++ [fp]) :: rest
      else (r, l) :: add_to_bucket rest root fp
  end.

Definition collect_entry (acc : list (path * list path)) (e : walk_entry)
  : list (path * list path) :=
  let '(root, files) := e in
  fold_left (fun acc f => let fp := root ++ [f] in
                          if is_audio f then add_to_bucket acc root fp else acc)
            files acc.

Definition collect (w : list walk_entry) : list (path * list path) :=
  fold_left collect_entry w [].

Fixpoint bucket (bs : list (path * list path)) (d : path) : list path :=
  match bs with
  | [] => []
  | (r, l) :: rest => if path_eqb r d then l else bucket rest d
  end.

(** [get_files_sorted_by_location(directory)] for the listing [w] that
    [os.walk(directory)] produces. *)
Definition get_files_sorted_by_location (w : list walk_entry) : list path :=
  let files_by_dir := collect w in
  flat_map (fun dir_path => isort path_compare (bucket files_by_dir dir_path))
           (isort path_compare (map fst files_by_dir)).

(* ------------------------------------------------------------------------- *)
(** ** Catalog ([database/models.py]) *)

Inductive file_status := Indexed | Analyzed | Migrated | Error.

Definition file_status_eqb (a b : file_status) : bool :=
  match a, b with
  | Indexed, Indexed | Analyzed, Analyzed | Migrated, Migrated | Error, Error => true
  | _, _ => false
  end.

(** A row of the [files] table. *)
Record File := {
  id : nat;
  source_path : path;
  file_size : N;
  file_hash : option string;
  status : file_status
}.

(** A row of the [metadata] table ([None] for a NULL column). *)
Record Metadata := {
  artist : option string;
  album : option string;
  title : option string;
  year : option Z;
  bitrate : option Z;
  format : option string
}.

(** A row of the [duplicates] table; [group_id] stands for the uuid4 string. *)
Record Duplicate := {
  group_id : nat;
  dup_file_id : nat;
  is_primary : bool;
  quality_score : Z
}.

Inductive migration_status := Pending | InProgress | Completed | Failed.

(** A row of the [migrations] table (timestamps omitted). *)
Record Migration := {
  mig_file_id : nat;
  mig_source_path : path;
  mig_target_path : path;
  mig_status : migration_status
}.

(** Python truthiness of an optional string column. *)
Definition truthy_str (o : option string) : bool :=
  match o with Some s => negb (String.eqb s EmptyString) | None => false end.

(* ------------------------------------------------------------------------- *)
(** ** [modules/migrator.py]: target path *)

(** The double-quote character. *)
Definition dquote : ascii := ascii_of_nat 34.

(** [illegal_chars] of [_sanitize_name]: the characters < > : | ? * / and
    the double quote. *)
Definition sanitize_illegal_chars : string := append "<>:" (String dquote "|?*/").

(** [illegal_chars] of [optimize_path_for_windows]: the same without /. *)
Definition windows_illegal_chars : string := append "<>:" (String dquote "|?*").

Definition mem_char (c : ascii) (cs : string) : bool :=
  existsb (Ascii.eqb c) (list_ascii_of_string cs).

Fixpoint replace_chars (cs : string) (by_ : ascii) (s : string) : string :=
  match s with
  | EmptyString => EmptyString
  | String c s' => String (if mem_char c cs then by_ else c) (replace_chars cs by_ s')
  end.

Fixpoint lstrip (cs : string) (s : string) : string :=
  match s with
  | EmptyString => EmptyString
  | String c s' => if mem_char c cs then lstrip cs s' else s
  end.

Definition rev_string (s : string) : string :=
  string_of_list_ascii (rev (list_ascii_of_string s)).

Definition rstrip (cs : string) (s : string) : string :=
  rev_string (lstrip cs (rev_string s)).

(** [str.strip(cs)]. *)
Definition strip (cs : string) (s : string) : string := rstrip cs (lstrip cs s).

(** Python's [\s] on the Latin-1 range ([str.isspace]). *)
Definition is_space (c : ascii) : bool :=
  let n := nat_of_ascii c in
  ((9 <=? n) && (n <=? 13)) || ((28 <=? n) && (n <=? 32)) || (n =? 133) || (n =? 160).

(** [re.sub(r'[\s_]+', ' ', s)]; [in_run] says the previous character was
    part of a run already replaced. *)
Fixpoint collapse_runs (in_run : bool) (s : string) : string :=
  match s with
  | EmptyString => EmptyString
  | String c s' =>
      if is_space c || Ascii.eqb c "_"%char then
        if in_run then collapse_runs true s'
        else String " "%char (collapse_runs true s')
      else String c (collapse_runs false s')
  end.

(** [FileMigrator._sanitize_name]. *)
Definition _sanitize_name (name : string) : string :=
  let name := replace_chars sanitize_illegal_chars "_"%char name in
  let name := strip ". " name in
  let name := if 100 <? String.length name then substring 0 100 name else name in
  collapse_runs false name.

(** [optimize_path_for_windows] (applied to a file name). *)
Definition optimize_path_for_windows (p : string) : string :=
  let p := replace_chars windows_illegal_chars "_"%char p in
  let p := rstrip ". " p in
  if 250 <? String.length p then
    let ext := suffix p in
    append (substring 0 (250 - String.length ext) p) ext
  else p.

(** [p / s]: joining an empty string leaves the path unchanged. *)
Definition join (p : path) (s : string) : path :=
  if String.eqb s EmptyString then p else p ++ [s].

(** [Path.name]. *)
Definition name_of (p : path) : string := last p EmptyString.

(** [FileMigrator._get_target_path(file, metadata)]. *)
Definition _get_target_path (target_base : path) (file : File) (metadata : option Metadata)
  : path :=
  let artist :=
    match metadata with
    | Some m => if truthy_str (artist m)
                then match artist m with Some a => _sanitize_name a | None => "Unknown"%string end
                else "Unknown"%string
    | None => "Unknown"%string
    end in
  let filename := optimize_path_for_windows (name_of (source_path file)) in
  join (join target_base artist) filename.

(* ------------------------------------------------------------------------- *)
(** ** [modules/migrator.py]: [_migrate_file] *)

(** Behaviour of the operating system around one copy: what [shutil.copy2]
    leaves at the target ([None] when it raises before writing), whether
    [Path.unlink] succeeds, and the [migration.verify] setting.  Directory
    creation ([mkdir(parents=True, exist_ok=True)]) is implicit in the flat
    store and never fails. *)
Record io_env := {
  copy_result : path -> disk_file -> option disk_file;
  unlink_ok : path -> bool;
  verify : bool
}.

(** [f"{base}_{counter}{ext}"] next to [parent]. *)
Definition candidate (parent : path) (base ext : string) (counter : nat) : path :=
  parent ++ [append base (append "_" (append (str_N (N.of_nat counter)) ext))].

(** [while target_path.exists(): target_path = parent / f"{base}_{counter}{ext}";
    counter += 1], run for at most [fuel] iterations. *)
Fixpoint find_free (w : fs) (parent : path) (base ext : string)
         (counter fuel : nat) (target_path : path) : path :=
  match fuel with
  | O => target_path
  | S f =>
      if exists_path w target_path
      then find_free w parent base ext (S counter) f (candidate parent base ext counter)
      else target_path
  end.

(** Where the copy goes, or an early [return]. *)
Inductive target_choice := Return (b : bool) | CopyTo (p : path).

Definition choose_target (w : fs) (sd : disk_file) (target_path : path) : target_choice :=
  match lookup w target_path with
  | None => CopyTo target_path
  | Some td =>
      if stat_error td || stat_error sd then Return false  (* stat raises *)
      else if (st_size td =? st_size sd)%N then Return true
      else
        let name := name_of target_path in
        CopyTo (find_free w (removelast target_path) (stem name) (suffix name)
                          1 (S (List.length w)) target_path)
  end.

(** [FileMigrator._migrate_file(file, target_path)]: the result and the new
    file store.  The loop bound [S (length w)] is never reached (see
    [find_free_fuel_enough]). *)
Definition _migrate_file (env : io_env) (w : fs) (file : File) (target_path : path)
  : bool * fs :=
  let source := source_path file in
  match lookup w source with
  | None => (false, w)
  | Some sd =>
      match choose_target w sd target_path with
      | Return b => (b, w)
      | CopyTo tp =>
          match copy_result env tp sd with
          | None => (false, w)
          | Some copied =>
              let w1 := write_path w tp copied in
              if verify env then
                if verify_file_copy w1 source tp then (true, w1)
                else (false, if unlink_ok env tp then remove_path w1 tp else w1)
              else (true, w1)
          end
      end
  end.

(* ------------------------------------------------------------------------- *)
(** ** [modules/migrator.py]: [migrate_library] *)

(** The persisted catalog. *)
Record catalog := {
  files : list File;
  metadata_of : nat -> option Metadata;
  duplicates : list Duplicate;
  migrations : list Migration
}.

Definition is_candidate_status (s : file_status) : bool :=
  match s with Indexed | Analyzed => true | _ => false end.

(** The selection query: [status in ('indexed', 'analyzed')], and with
    [skip_duplicates] the outer join keeping files without a duplicate row
    or whose id is among the primary ids. *)
Definition selected (c : catalog) (skip_duplicates : bool) (f : File) : bool :=
  is_candidate_status (status f) &&
  (negb skip_duplicates
   || negb (existsb (fun d => dup_file_id d =? id f) (duplicates c))
   || existsb (fun d => (dup_file_id d =? id f) && is_primary d) (duplicates c)).

Definition select_files (c : catalog) (skip_duplicates : bool) : list File :=
  filter (selected c skip_duplicates) (files c).

Definition is_completed (m : Migration) : bool :=
  match mig_status m with Completed => true | _ => false end.

(** [session.query(Migration).filter_by(file_id=..., status='completed').first()]
    over the committed rows (the session does not autoflush). *)
Definition has_completed (ms : list Migration) (fid : nat) : bool :=
  existsb (fun m => (mig_file_id m =? fid) && is_completed m) ms.

Definition set_status (fs0 : list File) (fid : nat) (s : file_status) : list File :=
  map (fun f => if id f =? fid
                then {| id := id f; source_path := source_path f; file_size := file_size f;
                        file_hash := file_hash f; status := s |}
                else f) fs0.

(** State threaded through the loop of [migrate_library]. *)
Record mig_state := {
  ms_files : list File;             (* rows of [files], statuses as updated *)
  ms_committed : list Migration;    (* committed [migrations] rows *)
  ms_pending : list Migration;      (* added to the session, not committed *)
  ms_fs : fs;
  ms_migrated : nat;
  ms_skipped : nat;
  ms_failed : nat;
  ms_errors : list path;
  ms_mappings : list (path * path);
  ms_progress : list nat;           (* ['progress'] of each callback *)
  ms_stopped : bool
}.

Section Migrator.
Variable target_base : path.
Variable env : io_env.
Variable test_mode : bool.
(** The stop flag: [stop_at = Some k] when [stop()] has been called before the
    [k]-th file is polled; it is never reset during a run. *)
Variable stop_at : option nat.
Variable metadata_of' : nat -> option Metadata.

Definition should_stop (i : nat) : bool :=
  match stop_at with Some k => k <=? i | None => false end.

Definition commit (s : mig_state) : mig_state :=
  {| ms_files := ms_files s; ms_committed := ms_committed s ++ ms_pending s;
     ms_pending := []; ms_fs := ms_fs s; ms_migrated := ms_migrated s;
     ms_skipped := ms_skipped s; ms_failed := ms_failed s; ms_errors := ms_errors s;
     ms_mappings := ms_mappings s; ms_progress := ms_progress s;
     ms_stopped := ms_stopped s |}.

(** Body of [for i, file in enumerate(files)]. *)
Definition migrate_step (s : mig_state) (i : nat) (file : File) : mig_state :=
  if ms_stopped s || should_stop i then
    {| ms_files := ms_files s; ms_committed := ms_committed s; ms_pending := ms_pending s;
       ms_fs := ms_fs s; ms_migrated := ms_migrated s; ms_skipped := ms_skipped s;
       ms_failed := ms_failed s; ms_errors := ms_errors s; ms_mappings := ms_mappings s;
       ms_progress := ms_progress s; ms_stopped := true |}
  else if has_completed (ms_committed s) (id file) then
    {| ms_files := ms_files s; ms_committed := ms_committed s; ms_pending := ms_pending s;
       ms_fs := ms_fs s; ms_migrated := ms_migrated s; ms_skipped := S (ms_skipped s);
       ms_failed := ms_failed s; ms_errors := ms_errors s; ms_mappings := ms_mappings s;
       ms_progress := ms_progress s; ms_stopped := false |}
  else
    let target_path := _get_target_path target_base file (metadata_of' (id file)) in
    let s1 :=
      if test_mode then
        {| ms_files := ms_files s; ms_committed := ms_committed s; ms_pending := ms_pending s;
           ms_fs := ms_fs s; ms_migrated := S (ms_migrated s); ms_skipped := ms_skipped s;
           ms_failed := ms_failed s; ms_errors := ms_errors s;
           ms_mappings := ms_mappings s ++ [(source_path file, target_path)];
           ms_progress := ms_progress s; ms_stopped := false |}
      else
        let '(success, w') := _migrate_file env (ms_fs s) file target_path in
        if success then
          let migration := {| mig_file_id := id file; mig_source_path := source_path file;
                              mig_target_path := target_path; mig_status := Completed |} in
          {| ms_files := set_status (ms_files s) (id file) Migrated;
             ms_committed := ms_committed s; ms_pending := ms_pending s ++ [migration];
             ms_fs := w'; ms_migrated := S (ms_migrated s); ms_skipped := ms_skipped s;
             ms_failed := ms_failed s; ms_errors := ms_errors s;
             ms_mappings := ms_mappings s; ms_progress := ms_progress s;
             ms_stopped := false |}
        else
          {| ms_files := ms_files s; ms_committed := ms_committed s; ms_pending := ms_pending s;
             ms_fs := w'; ms_migrated := ms_migrated s; ms_skipped := ms_skipped s;
             ms_failed := S (ms_failed s); ms_errors := ms_errors s ++ [source_path file];
             ms_mappings := ms_mappings s; ms_progress := ms_progress s;
             ms_stopped := false |} in
    let s2 := if negb test_mode && (i mod 10 =? 0) then commit s1 else s1 in
    {| ms_files := ms_files s2; ms_committed := ms_committed s2; ms_pending := ms_pending s2;
       ms_fs := ms_fs s2; ms_migrated := ms_migrated s2; ms_skipped := ms_skipped s2;
       ms_failed := ms_failed s2; ms_errors := ms_errors s2; ms_mappings := ms_mappings s2;
       ms_progress := ms_progress s2 ++ [S i]; ms_stopped := false |}.

Fixpoint migrate_loop (s : mig_state) (i : nat) (l : list File) : mig_state :=
  match l with
  | [] => s
  | f :: rest => migrate_loop (migrate_step s i f) (S i) rest
  end.

End Migrator.

(** Result dictionary of [migrate_library]. *)
Record migration_result := {
  r_migrated : nat;
  r_skipped : nat;
  r_failed : nat;
  r_errors : nat;
  r_error_files : list path;
  r_test_mappings : list (path * path)
}.

(** [FileMigrator.migrate_library(skip_duplicates)] (with [self.test_mode]):
    the result, the catalog and the file store afterwards, and the progress
    values reported. *)
Definition migrate_library (target_base : path) (env : io_env) (test_mode : bool)
           (stop_at : option nat) (c : catalog) (w : fs) (skip_duplicates : bool)
  : migration_result * catalog * fs * list nat :=
  let selected := select_files c skip_duplicates in
  let s0 := {| ms_files := files c; ms_committed := migrations c; ms_pending := [];
               ms_fs := w; ms_migrated := 0; ms_skipped := 0; ms_failed := 0;
               ms_errors := []; ms_mappings := []; ms_progress := [];
               ms_stopped := false |} in
  let s := migrate_loop target_base env test_mode stop_at (metadata_of c) s0 0 selected in
  let s := if test_mode then s else commit s in
  ({| r_migrated := ms_migrated s; r_skipped := ms_skipped s; r_failed := ms_failed s;
      r_errors := List.length (ms_errors s); r_error_files := firstn 10 (ms_errors s);
      r_test_mappings := if test_mode then firstn 100 (ms_mappings s) else [] |},
   {| files := ms_files s; metadata_of := metadata_of c; duplicates := duplicates c;
      migrations := ms_committed s ++ ms_pending s |},
   ms_fs s, ms_progress s).

(* ------------------------------------------------------------------------- *)
(** ** [utils/io_optimizer.py]: [batch_files], [estimate_file_count] *)

(** [batch_files(files, batch_size)]: a batch is yielded as soon as
    [len(batch) >= batch_size], so a size below 1 acts as 1. *)
Fixpoint batch_files_aux (size : nat) (cur : list path) (l : list path)
  : list (list path) :=
  match l with
  | [] => match cur with [] => [] | _ => [cur] end
  | x :: rest =>
      let cur' := cur ++ [x] in
      if size <=? List.length cur' then cur' :: batch_files_aux size [] rest
      else batch_files_aux size cur' rest
  end.

Definition batch_files (l : list path) (batch_size : nat) : list (list path) :=
  batch_files_aux batch_size [] l.

(** [estimate_file_count(directory)][0]: the audio files of the listing. *)
Definition estimate_file_count (w : list walk_entry) : nat :=
  List.length (flat_map (fun e => filter is_audio (snd e)) w).

(* ------------------------------------------------------------------------- *)
(** ** [modules/indexer.py]: [index_directory] *)

(** The [checkpoint_data] of the [('index', directory)] checkpoint. *)
Record checkpoint := {
  cp_processed_files : list path;
  cp_progress : nat;
  cp_total : nat
}.

(** Configuration and environment of one indexing run. *)
Record index_config := {
  batch_size : nat;
  checkpoint_enabled : bool;
  hash_chunk_size_mb : N;
  (** [time.time() - last_checkpoint > 10] after the [n]-th batch *)
  checkpoint_due : nat -> bool;
  (** the stop flag is seen set once this many files have been examined *)
  index_stop_at : option nat
}.

Record idx_state := {
  ix_catalog : list File;        (* committed [files] rows *)
  ix_session : list File;        (* rows added in the current batch *)
  ix_processed : list path;      (* [processed_files] *)
  ix_files_processed : nat;      (* [files_processed] *)
  ix_added : nat;
  ix_skipped : nat;
  ix_errors : list path;
  ix_seen : nat;                 (* files examined so far *)
  ix_stopped : bool;             (* the inner [break] was taken *)
  ix_progress : list nat;        (* ['progress'] of each callback *)
  ix_checkpoint : option checkpoint
}.

Section Indexer.
Variable cfg : index_config.
Variable w : fs.
Variable total_files : nat.

Definition idx_should_stop (seen : nat) : bool :=
  match index_stop_at cfg with Some k => k <=? seen | None => false end.

Definition in_paths (p : path) (l : list path) : bool := existsb (path_eqb p) l.

Definition next_id (c : list File) : nat := S (fold_right (fun f m => Nat.max (id f) m) 0 c).

Definition snapshot (s : idx_state) : checkpoint :=
  {| cp_processed_files := ix_processed s; cp_progress := ix_files_processed s;
     cp_total := total_files |}.

(** One file of a batch. *)
Definition index_file (s : idx_state) (file_path : path) : idx_state :=
  if ix_stopped s || idx_should_stop (ix_seen s) then
    {| ix_catalog := ix_catalog s; ix_session := ix_session s;
       ix_processed := ix_processed s; ix_files_processed := ix_files_processed s;
       ix_added := ix_added s; ix_skipped := ix_skipped s; ix_errors := ix_errors s;
       ix_seen := ix_seen s; ix_stopped := true; ix_progress := ix_progress s;
       ix_checkpoint := ix_checkpoint s |}
  else if in_paths file_path (ix_processed s) then
    {| ix_catalog := ix_catalog s; ix_session := ix_session s;
       ix_processed := ix_processed s; ix_files_processed := ix_files_processed s;
       ix_added := ix_added s; ix_skipped := S (ix_skipped s); ix_errors := ix_errors s;
       ix_seen := S (ix_seen s); ix_stopped := false; ix_progress := ix_progress s;
       ix_checkpoint := ix_checkpoint s |}
  else if existsb (fun f => path_eqb (source_path f) file_path) (ix_catalog s) then
    {| ix_catalog := ix_catalog s; ix_session := ix_session s;
       ix_processed := ix_processed s ++ [file_path];
       ix_files_processed := ix_files_processed s;
       ix_added := ix_added s; ix_skipped := S (ix_skipped s); ix_errors := ix_errors s;
       ix_seen := S (ix_seen s); ix_stopped := false; ix_progress := ix_progress s;
       ix_checkpoint := ix_checkpoint s |}
  else
    match lookup w file_path with
    | Some d =>
        if stat_error d then
          {| ix_catalog := ix_catalog s; ix_session := ix_session s;
             ix_processed := ix_processed s; ix_files_processed := ix_files_processed s;
             ix_added := ix_added s; ix_skipped := ix_skipped s;
             ix_errors := ix_errors s ++ [file_path];
             ix_seen := S (ix_seen s); ix_stopped := false; ix_progress := ix_progress s;
             ix_checkpoint := ix_checkpoint s |}
        else
          let record := {| id := next_id (ix_catalog s ++ ix_session s);
                           source_path := file_path; file_size := st_size d;
                           file_hash := calculate_file_hash (Some d) (hash_chunk_size_mb cfg);
                           status := Indexed |} in
          {| ix_catalog := ix_catalog s; ix_session := ix_session s ++ [record];
             ix_processed := ix_processed s ++ [file_path];
             ix_files_processed := S (ix_files_processed s);
             ix_added := S (ix_added s); ix_skipped := ix_skipped s;
             ix_errors := ix_errors s;
             ix_seen := S (ix_seen s); ix_stopped := false; ix_progress := ix_progress s;
             ix_checkpoint := ix_checkpoint s |}
    | None =>  (* [file_path.stat()] raises: the file vanished *)
        {| ix_catalog := ix_catalog s; ix_session := ix_session s;
           ix_processed := ix_processed s; ix_files_processed := ix_files_processed s;
           ix_added := ix_added s; ix_skipped := ix_skipped s;
           ix_errors := ix_errors s ++ [file_path];
           ix_seen := S (ix_seen s); ix_stopped := false; ix_progress := ix_progress s;
           ix_checkpoint := ix_checkpoint s |}
    end.

(** After the inner loop: [session.commit()], the progress callback and the
    periodic checkpoint. *)
Definition end_batch (s : idx_state) (n : nat) : idx_state :=
  let cp := if checkpoint_enabled cfg && checkpoint_due cfg n
            then Some (snapshot s) else ix_checkpoint s in
  {| ix_catalog := ix_catalog s ++ ix_session s; ix_session := [];
     ix_processed := ix_processed s; ix_files_processed := ix_files_processed s;
     ix_added := ix_added s; ix_skipped := ix_skipped s; ix_errors := ix_errors s;
     ix_seen := ix_seen s; ix_stopped := ix_stopped s;
     ix_progress := ix_progress s ++ [ix_files_processed s];
     ix_checkpoint := cp |}.

(** The batch loop; [n] numbers the batches. *)
Fixpoint index_batches (s : idx_state) (n : nat) (bs : list (list path)) : idx_state :=
  match bs with
  | [] => s
  | b :: rest =>
      if ix_stopped s || idx_should_stop (ix_seen s) then
        {| ix_catalog := ix_catalog s; ix_session := ix_session s;
           ix_processed := ix_processed s; ix_files_processed := ix_files_processed s;
           ix_added := ix_added s; ix_skipped := ix_skipped s; ix_errors := ix_errors s;
           ix_seen := ix_seen s; ix_stopped := true; ix_progress := ix_progress s;
           ix_checkpoint := ix_checkpoint s |}
      else index_batches (end_batch (fold_left index_file b s) n) (S n) rest
  end.

(** The [finally] clause. *)
Definition final_checkpoint (s : idx_state) : option checkpoint :=
  if checkpoint_enabled cfg then
    if (total_files <=? ix_files_processed s) || idx_should_stop (ix_seen s)
    then None
    else Some (snapshot s)
  else ix_checkpoint s.

End Indexer.

(** Result dictionary of [index_directory] (timings omitted). *)
Record index_result := {
  files_added : nat;
  files_skipped : nat;
  errors : nat;
  error_files : list path;
  total_processed : nat
}.

(** [FileIndexer.index_directory(directory, resume)] over the listing [walk]
    of [os.walk(directory)], the file store [w], the committed catalog and
    the stored checkpoint of [('index', directory)].  [None] is the
    [ValueError] for a missing directory.  Returns the result, the catalog,
    the checkpoint afterwards and the progress values reported. *)
Definition index_directory (cfg : index_config) (w : fs) (dir_exists : bool)
           (walk : list walk_entry) (cat : list File) (stored : option checkpoint)
           (resume : bool)
  : option (index_result * list File * option checkpoint * list nat) :=
  if negb dir_exists then None else
  let total_files := estimate_file_count walk in
  let loaded := if resume && checkpoint_enabled cfg then stored else None in
  let s0 := {| ix_catalog := cat; ix_session := [];
               ix_processed := match loaded with Some cp => cp_processed_files cp | None => [] end;
               ix_files_processed := match loaded with Some cp => cp_progress cp | None => 0 end;
               ix_added := 0; ix_skipped := 0; ix_errors := []; ix_seen := 0;
               ix_stopped := false; ix_progress := []; ix_checkpoint := stored |} in
  let s := index_batches cfg w total_files s0 0
             (batch_files (get_files_sorted_by_location walk) (batch_size cfg)) in
  Some ({| files_added := ix_added s; files_skipped := ix_skipped s;
           errors := List.length (ix_errors s); error_files := firstn 10 (ix_errors s);
           total_processed := ix_files_processed s |},
        ix_catalog s, final_checkpoint cfg total_files s, ix_progress s).

(* ------------------------------------------------------------------------- *)
(** ** [modules/deduplicator.py]: [find_duplicates] *)

(** [any(part in path.parts for part in ['Music', 'music', 'Audio'])] and
    [('backup' in path.parts or 'Backup' in path.parts)]. *)
Definition has_part (p : path) (names : list string) : bool :=
  existsb (fun n => existsb (String.eqb n) p) names.

(** [format_scores.get(metadata.format.lower(), 0)]. *)
Definition format_score (fmt : string) : Z :=
  let f := lower fmt in
  if String.eqb f "flac" then 150 else if String.eqb f "wav" then 140
  else if String.eqb f "m4a" then 90 else if String.eqb f "mp3" then 70
  else if String.eqb f "aac" then 60 else if String.eqb f "ogg" then 50
  else if String.eqb f "wma" then 30 else 0.

Definition truthy_int (o : option Z) : bool :=
  match o with Some v => negb (v =? 0)%Z | None => false end.

Local Open Scope Z_scope.

(** [DuplicateDetector._calculate_quality_score(file)]. *)
Definition _calculate_quality_score (meta : nat -> option Metadata) (file : File) : Z :=
  let score : Z :=
    match meta (id file) with
    | None => 0%Z
    | Some m =>
        let b : Z := match bitrate m with
                 | Some br => if negb (br =? 0)%Z then
                                if (320 <=? br)%Z then 100 else if (256 <=? br)%Z then 80
                                else if (192 <=? br)%Z then 60 else if (128 <=? br)%Z then 40
                                else 20
                              else 0%Z
                 | None => 0%Z end in
        let f : Z := match format m with
                 | Some s => if truthy_str (Some s) then format_score s else 0%Z
                 | None => 0%Z end in
        (b + f + (if truthy_str (artist m) then 20 else 0)
           + (if truthy_str (album m) then 20 else 0)
           + (if truthy_str (title m) then 20 else 0)
           + (if truthy_int (year m) then 10 else 0))%Z
    end in
  let p := source_path file in
  let score := if has_part p ["Music"; "music"; "Audio"]%string then (score + 10)%Z else score in
  if has_part p ["backup"; "Backup"]%string then (score - 20)%Z else score.

Local Close Scope Z_scope.

(** [hash_groups[file.file_hash].append(file)] on a [defaultdict(list)] in
    key-insertion order. *)
Fixpoint add_to_group (gs : list (string * list File)) (h : string) (f : File)
  : list (string * list File) :=
  match gs with
  | [] => [(h, [f])]
  | (k, l) :: rest =>
      if String.eqb k h then (k, l ++ [f]) :: rest else (k, l) :: add_to_group rest h f
  end.

(** [_group_by_hash()]: files with a non-NULL hash, grouped, singletons dropped. *)
Definition _group_by_hash (fs0 : list File) : list (string * list File) :=
  let groups := fold_left (fun gs f => match file_hash f with
                                       | Some h => add_to_group gs h f
                                       | None => gs end) fs0 [] in
  filter (fun g => 1 <? List.length (snd g)) groups.

(** Progress values reported by [_group_by_hash]: [i + 1] when [i % 10 == 0],
    then [total_files]. *)
Definition group_progress (fs0 : list File) : list nat :=
  let n := List.length (filter (fun f => match file_hash f with Some _ => true | None => false end) fs0) in
  map S (filter (fun i => i mod 10 =? 0) (seq 0 n)) ++ [n].

(** A scored group: the file, its score; [dg_files] sorted. *)
Record dup_group := {
  dg_id : nat;
  dg_files : list (File * Z);
  dg_primary_id : nat    (* [group_data['primary'].id] *)
}.

(** [scored_files.sort(key=lambda x: x['score'], reverse=True)]: stable,
    by decreasing score. *)
Definition score_desc (x y : File * Z) : comparison := Z.compare (snd y) (snd x).

(** [_analyze_duplicate_groups(hash_groups)]; the [idx]-th group gets the
    fresh identifier [idx].  A group of the input has at least two files. *)
Definition _analyze_duplicate_groups (meta : nat -> option Metadata)
           (hash_groups : list (string * list File)) : list dup_group :=
  map (fun '(idx, (_, fs0)) =>
         let scored := map (fun f => (f, _calculate_quality_score meta f)) fs0 in
         let sorted := isort score_desc scored in
         {| dg_id := idx; dg_files := sorted;
            dg_primary_id := match sorted with (f, _) :: _ => id f | [] => 0 end |})
      (combine (seq 0 (List.length hash_groups)) hash_groups).

(** Progress values reported by [_analyze_duplicate_groups]: [idx] when
    [idx % 10 == 0]. *)
Definition analyze_progress (hash_groups : list (string * list File)) : list nat :=
  filter (fun idx => idx mod 10 =? 0) (seq 0 (List.length hash_groups)).

(** [_save_duplicate_groups(duplicate_groups)]: the new content of the
    [duplicates] table (the old rows are deleted). *)
Definition _save_duplicate_groups (groups : list dup_group) : list Duplicate :=
  flat_map (fun g =>
              map (fun '(f, sc) => {| group_id := dg_id g; dup_file_id := id f;
                                      is_primary := id f =? dg_primary_id g;
                                      quality_score := sc |})
                  (dg_files g))
           groups.

Record duplicate_stats := {
  total_groups : nat;
  total_duplicates : nat;
  space_savings : N
}.

Definition _calculate_space_savings (groups : list dup_group) : N :=
  fold_left (fun acc g => fold_left (fun a '(f, _) => (a + file_size f)%N) (tl (dg_files g)) acc)
            groups 0%N.

(** [DuplicateDetector.find_duplicates()] over the [files] rows: the
    statistics, the new [duplicates] table and the progress values. *)
Definition find_duplicates (meta : nat -> option Metadata) (fs0 : list File)
  : duplicate_stats * list Duplicate * list nat :=
  let hash_groups := _group_by_hash fs0 in
  let duplicate_groups := _analyze_duplicate_groups meta hash_groups in
  let rows := _save_duplicate_groups duplicate_groups in
  ({| total_groups := List.length duplicate_groups;
      total_duplicates := fold_left (fun a g => a + List.length (dg_files g)) duplicate_groups 0;
      space_savings := _calculate_space_savings duplicate_groups |},
   rows,
   group_progress fs0 ++ analyze_progress hash_groups).

(* ------------------------------------------------------------------------- *)
(** ** Predicates used in the statements *)

Definition all_chars (P : ascii -> bool) (s : string) : bool :=
  forallb P (list_ascii_of_string s).

(** The character class [[\s_]]. *)
Definition space_or_underscore (c : ascii) : bool := is_space c || Ascii.eqb c "_"%char.

(** No two adjacent characters of the class [[\s_]]. *)
Fixpoint no_adjacent_runs (s : string) : bool :=
  match s with
  | String c ((String d _) as s') =>
      negb (space_or_underscore c && space_or_underscore d) && no_adjacent_runs s'
  | _ => true
  end.

(** Decimal reading of a string of digits, [int(s)] with an accumulator. *)
Fixpoint parse_dec (s : string) (acc : N) : N :=
  match s with
  | EmptyString => acc
  | String c s' => parse_dec s' (acc * 10 + (N_of_ascii c - 48))
  end.

(* ------------------------------------------------------------------------- *)
(** ** Concrete inputs used by the witnesses *)

Definition ex_env : io_env :=
  {| copy_result := fun _ d => Some d; unlink_ok := fun _ => true; verify := true |}.

Definition ex_file (c : string) : disk_file :=
  {| content := bytes_of c; read_error := false; stat_error := false |}.

Definition ex_entry (n : nat) (p : path) : File :=
  {| id := n; source_path := p; file_size := 0; file_hash := None; status := Indexed |}.

Definition ex_src1 : path := ["music"; "a"; "x.mp3"]%string.
Definition ex_src2 : path := ["music"; "b"; "x.mp3"]%string.
Definition ex_target : path := ["target"; "Unknown"; "x.mp3"]%string.

Definition ex_fs : fs := [(ex_src1, ex_file "abc"); (ex_src2, ex_file "abcd")].

(** The [Migration] row inserted for [file] after a successful copy. *)
Definition completed_record (target_base : path) (meta : nat -> option Metadata) (file : File)
  : Migration :=
  {| mig_file_id := id file; mig_source_path := source_path file;
     mig_target_path := _get_target_path target_base file (meta (id file));
     mig_status := Completed |}.

(** A faithful [shutil.copy2]: the target receives the source file. *)
Definition faithful_copy (env : io_env) : Prop := forall p d, copy_result env p d = Some d.

(** The [Migration] rows visible after the next commit. *)
Definition mig_rows (s : mig_state) : list Migration := ms_committed s ++ ms_pending s.

(** A copy that corrupts the data and a target that cannot be unlinked. *)
Definition ex_env_corrupt (unlink : bool) : io_env :=
  {| copy_result := fun _ _ => Some (ex_file "abd"); unlink_ok := fun _ => unlink;
     verify := true |}.

Definition ex_base : path := ["target"]%string.

Definition ex_catalog (fs0 : list File) : catalog :=
  {| files := fs0; metadata_of := fun _ => None; duplicates := []; migrations := [] |}.

Definition ex_mig_state (w : fs) : mig_state :=
  {| ms_files := []; ms_committed := []; ms_pending := []; ms_fs := w; ms_migrated := 0;
     ms_skipped := 0; ms_failed := 0; ms_errors := []; ms_mappings := []; ms_progress := [];
     ms_stopped := false |}.

(** Number of [completed] [Migration] rows of a file. *)
Definition completed_count (ms : list Migration) (fid : nat) : nat :=
  List.length (filter (fun m => (mig_file_id m =? fid) && is_completed m) ms).

(** Files examined by an indexing run over [n] files when the stop flag is
    seen set after [k] of them ([index_stop_at = Some k]). *)
Definition idx_seen_limit (stop : option nat) (n : nat) : nat :=
  match stop with Some k => Nat.min k n | None => n end.

Definition ex_index_config (stop : option nat) : index_config :=
  {| batch_size := 100; checkpoint_enabled := true; hash_chunk_size_mb := 1;
     checkpoint_due := fun _ => false; index_stop_at := stop |}.

Definition ex_walk : list walk_entry := [(["music"; "a"]%string, ["x.mp3"]%string)].

(** The stop flag has been seen set whenever the loop broke off, and no more
    files are examined than the stop allows. *)
Definition idx_seen_inv (cfg : index_config) (s : idx_state) : Prop :=
  (ix_stopped s = true -> idx_should_stop cfg (ix_seen s) = true)
  /\ (forall k, index_stop_at cfg = Some k -> ix_seen s <= k).

Definition ex_hashed (n : nat) (p : path) (h : string) : File :=
  {| id := n; source_path := p; file_size := 0; file_hash := Some h; status := Indexed |}.

Definition ex_dups : list File :=
  [ex_hashed 1 ex_src1 "h"; ex_hashed 2 ex_src2 "h"]%string.

(** The file has partial hash [h]. *)
Definition has_hash (h : string) (f : File) : bool :=
  match file_hash f with Some h' => String.eqb h' h | None => false end.

(** State of [hash_groups] after the files [pre]: one entry per hash, holding
    the files of [pre] with that hash. *)
Definition group_inv (pre : list File) (gs : list (string * list File)) : Prop :=
  NoDup (map fst gs)
  /\ (forall k l, In (k, l) gs -> l = filter (has_hash k) pre)
  /\ (forall f h, In f pre -> file_hash f = Some h -> In h (map fst gs)).

(* ------------------------------------------------------------------------- *)
(** ** The walker's output, described by its specification *)

(** [PurePath.parent] and [PurePath.name] of a path given by its parts. *)
Definition parent (fp : path) : path := removelast fp.

Definition name (fp : path) : string := last fp EmptyString.

(** The audio files of a listing, directory by directory in walk order. *)
Definition walk_audio_files (w : list walk_entry) : list path :=
  flat_map (fun e => map (fun f => fst e ++ [f]) (filter is_audio (snd e))) w.

(** [a] may come before [b]: its directory is lexicographically smaller, or
    both are in the same directory and the name of [a] is not greater. *)
Definition walk_order (a b : path) : Prop :=
  path_compare (parent a) (parent b) = Lt
  \/ (parent a = parent b /\ String.compare (name a) (name b) <> Gt).

(** Every bucket [(r, l)] holds files [r ++ [f]] of its own directory. *)
Definition buckets_inv (bs : list (path * list path)) : Prop :=
  NoDup (map fst bs) /\ forall r l x, In (r, l) bs -> In x l -> exists f, x = r ++ [f].

(* ------------------------------------------------------------------------- *)
(** ** Further code of the pipeline *)

(** [FileMigrator.test_migration()]: [migrate_library()] (with
    [skip_duplicates=True]) in test mode, returning [test_mappings]. *)
Definition test_migration (target_base : path) (env : io_env) (stop_at : option nat)
           (c : catalog) (w : fs) : list (path * path) :=
  let '(r, _, _, _) := migrate_library target_base env true stop_at c w true in
  r_test_mappings r.

(** The partial hash of [f] is shared with at least one other file of [fs0]. *)
Definition hash_shared (fs0 : list File) (f : File) : bool :=
  match file_hash f with
  | Some h => 1 <? List.length (filter (has_hash h) fs0)
  | None => false
  end.

(** The store is unchanged, or changed at exactly one path that was free. *)
Definition store_grows_at_one (w w' : fs) : Prop :=
  w' = w \/ exists p, lookup w p = None /\ forall q, q <> p -> lookup w' q = lookup w q.

(** A row added by an indexing run: [status = 'indexed'], a path of the
    listing [L], and the size and partial hash of the file stored there. *)
Definition new_row_ok (cfg : index_config) (w : fs) (L : list path) (f : File) : Prop :=
  status f = Indexed /\ In (source_path f) L
  /\ exists d, lookup w (source_path f) = Some d /\ stat_error d = false
               /\ file_size f = st_size d
               /\ file_hash f = calculate_file_hash (Some d) (hash_chunk_size_mb cfg).

(** The rows of the indexer's state (committed and pending) are the rows
    [cat] it started from followed by [ix_added] new rows; ids and paths
    stay distinct, and a pending row's path is in [processed_files]. *)
Definition idx_rows_inv (cfg : index_config) (w : fs) (L : list path) (cat : list File)
           (s : idx_state) : Prop :=
  (exists N, ix_catalog s ++ ix_session s = cat ++ N /\ List.length N = ix_added s
             /\ Forall (new_row_ok cfg w L) N)
  /\ NoDup (map id (ix_catalog s ++ ix_session s))
  /\ NoDup (map source_path (ix_catalog s ++ ix_session s))
  /\ (forall f, In f (ix_session s) -> in_paths (source_path f) (ix_processed s) = true).

(** One safe path component: not empty, not [.] or [..], and without [/],
    so that [base / part] names an entry directly inside [base]. *)
Definition part_ok (s : string) : Prop :=
  s <> EmptyString /\ s <> "."%string /\ s <> ".."%string
  /\ all_chars (fun c => negb (Ascii.eqb c "/"%char)) s = true.

(** A [files] row before ([f]) and after ([f']) a migration run: the same
    row, whose status is unchanged or became [migrated] for the id of a
    selected file. *)
Definition file_row_after_migration (sel : list File) (f f' : File) : Prop :=
  id f' = id f /\ source_path f' = source_path f /\ file_size f' = file_size f
  /\ file_hash f' = file_hash f
  /\ (status f' = status f \/ (status f' = Migrated /\ exists g, In g sel /\ id g = id f)).

(* ========================================================================= *)
(** * Proofs *)

(** ** Sanity checks of the embedding on concrete inputs *)

Example md5_empty :
  MD5.hexdigest [] = "d41d8cd98f00b204e9800998ecf8427e"%string.
Proof. vm_compute. reflexivity. Qed.

Example md5_abc :
  MD5.hexdigest (bytes_of "abc") = "900150983cd24fb0d6963f7d28e17f72"%string.
Proof. vm_compute. reflexivity. Qed.

Example md5_zero :
  MD5.hexdigest (bytes_of "0") = "cfcd208495d565ef66e7dff9f98764da"%string.
Proof. vm_compute. reflexivity. Qed.

Example str_N_examples :
  str_N 0 = "0"%string /\ str_N 7 = "7"%string /\ str_N 10 = "10"%string
  /\ str_N 1048576 = "1048576"%string.
Proof. vm_compute. repeat split. Qed.

Example walker_example :
  get_files_sorted_by_location
    [ (["m"]%string, ["b.MP3"; "a.txt"; "a.flac"]%string);
      (["m"; "z"]%string, [".mp3"; "x.ogg"]%string);
      (["m"; "c"]%string, ["y.wma"]%string) ]
  = [ ["m"; "a.flac"]; ["m"; "b.MP3"]; ["m"; "c"; "y.wma"]; ["m"; "z"; "x.ogg"] ]%string.
Proof. vm_compute. reflexivity. Qed.

Example sanitize_examples :
  _sanitize_name "A/C" = "A C"%string /\
  _sanitize_name "  ..AC/DC..  " = "AC DC"%string /\
  _sanitize_name "A?" = "A "%string /\
  _sanitize_name "a__b   c" = "a b c"%string.
Proof. vm_compute. repeat split. Qed.

Example partial_hash_examples :
  calculate_file_hash (Some {| content := bytes_of "abc"; read_error := false;
                               stat_error := false |}) 1
  = Some (MD5.hexdigest (bytes_of "abc3")) /\
  calculate_file_hash (Some {| content := []; read_error := false;
                               stat_error := false |}) 1
  = Some "d41d8cd98f00b204e9800998ecf8427e"%string.
Proof. vm_compute. split; reflexivity. Qed.

(* ------------------------------------------------------------------------- *)
(** ** Content fingerprint ([calculate_file_hash]) *)

Lemma read_prefix_firstn (n : N) (l : list byte) :
  read_prefix n l = firstn (N.to_nat n) l.
Proof.
  revert n; induction l as [|b l IH]; intros n; simpl.
  - destruct (N.to_nat n); reflexivity.
  - destruct (N.eqb_spec n 0) as [->|Hn]; [reflexivity|].
    rewrite IH.
    replace (N.to_nat n) with (S (N.to_nat (N.pred n))) by lia.
    reflexivity.
Qed.

(** C7 (counterexample): for an empty, readable file the code feeds nothing
    to the hasher ([if chunk:] fails), so [partial_hash] is the MD5 digest of
    the empty input, not of the prefix (empty) followed by the size "0". *)
Lemma C7_empty_file_counterexample :
  let d := {| content := []; read_error := false; stat_error := false |} in
  calculate_file_hash (Some d) 1
  <> Some (MD5.hexdigest (firstn (N.to_nat (1 * 1024 * 1024)) (content d)
                          ++ bytes_of (str_N (st_size d)))).
Proof. vm_compute. discriminate. Qed.

(** C7 (amended): a file that cannot be opened or read hashes to [None].
    For a readable file, let [chunk] be its first [chunk_size_mb * 2^20]
    bytes.  If [chunk] is non-empty, the result is the MD5 hex digest of
    [chunk] followed by the decimal size, or [None] when [stat] raises; if
    [chunk] is empty (an empty file), the result is the MD5 hex digest of the
    empty input: the size is not fed. *)
Theorem C7_partial_hash_amended (d : disk_file) (chunk_size_mb : N) :
  calculate_file_hash None chunk_size_mb = None /\
  (read_error d = true -> calculate_file_hash (Some d) chunk_size_mb = None) /\
  (read_error d = false ->
   let chunk := firstn (N.to_nat (chunk_size_mb * 1024 * 1024)) (content d) in
   (chunk = [] ->
    calculate_file_hash (Some d) chunk_size_mb = Some (MD5.hexdigest [])) /\
   (chunk <> [] -> stat_error d = true ->
    calculate_file_hash (Some d) chunk_size_mb = None) /\
   (chunk <> [] -> stat_error d = false ->
    calculate_file_hash (Some d) chunk_size_mb
    = Some (MD5.hexdigest (chunk ++ bytes_of (str_N (st_size d)))))).
Proof.
  split; [reflexivity|].
  split; [intros H; simpl; rewrite H; reflexivity|].
  intros Hr chunk; unfold chunk; simpl; rewrite Hr, read_prefix_firstn.
  destruct (firstn _ (content d)) as [|b rest] eqn:E.
  - repeat split; intros; try reflexivity; congruence.
  - repeat split; intros H1; try congruence; intros H2; rewrite H2; reflexivity.
Qed.

Lemma C7_partial_hash_amended_witness :
  read_error {| content := bytes_of "abc"; read_error := false; stat_error := false |} = false
  /\ calculate_file_hash (Some {| content := bytes_of "abc"; read_error := false;
                                  stat_error := false |}) 1
     = Some (MD5.hexdigest (bytes_of "abc" ++ bytes_of "3")).
Proof.
  split; [reflexivity|].
  destruct (C7_partial_hash_amended
              {| content := bytes_of "abc"; read_error := false; stat_error := false |} 1)
    as [_ [_ H]].
  destruct (H eq_refl) as [_ [_ H3]].
  exact (H3 ltac:(vm_compute; discriminate) eq_refl).
Defined.

(* ------------------------------------------------------------------------- *)
(** ** Artist folder ([_sanitize_name], [_get_target_path]) *)

Lemma all_chars_cons P c s :
  all_chars P (String c s) = P c && all_chars P s.
Proof. reflexivity. Qed.

Lemma replace_chars_all (cs : string) (by_ : ascii) (P : ascii -> bool) (s : string) :
  P by_ = true -> (forall c, mem_char c cs = false -> P c = true) ->
  all_chars P (replace_chars cs by_ s) = true.
Proof.
  intros Hb Hc; induction s as [|c s IH]; [reflexivity|].
  simpl replace_chars; rewrite all_chars_cons, IH, andb_true_r.
  destruct (mem_char c cs) eqn:E; auto.
Qed.

Lemma lstrip_all cs P s : all_chars P s = true -> all_chars P (lstrip cs s) = true.
Proof.
  induction s as [|c s IH]; simpl; auto.
  unfold all_chars in *; simpl; intros H; apply andb_prop in H as [H1 H2].
  destruct (mem_char c cs); auto. simpl; rewrite H1, H2; reflexivity.
Qed.

Lemma rev_string_all P s : all_chars P (rev_string s) = all_chars P s.
Proof.
  unfold all_chars, rev_string; rewrite list_ascii_of_string_of_list_ascii.
  destruct (forallb P (list_ascii_of_string s)) eqn:E.
  - rewrite forallb_forall in *; intros x Hx; apply E, in_rev; exact Hx.
  - apply not_true_iff_false; intros H; apply not_true_iff_false in E; apply E.
    rewrite forallb_forall in *; intros x Hx; apply H, in_rev; rewrite rev_involutive; exact Hx.
Qed.

Lemma strip_all cs P s : all_chars P s = true -> all_chars P (strip cs s) = true.
Proof.
  intros H; unfold strip, rstrip; rewrite rev_string_all.
  apply lstrip_all; rewrite rev_string_all; apply lstrip_all; exact H.
Qed.

Lemma substring0_all P n s : all_chars P s = true -> all_chars P (substring 0 n s) = true.
Proof.
  revert n; induction s as [|c s IH]; intros n H; destruct n; simpl; auto.
  unfold all_chars in *; simpl in *; apply andb_prop in H as [H1 H2].
  rewrite H1; simpl; apply IH; exact H2.
Qed.

Lemma substring0_length n s : String.length (substring 0 n s) <= n.
Proof.
  revert n; induction s as [|c s IH]; intros n; destruct n; simpl; try lia.
  specialize (IH n); lia.
Qed.

Lemma collapse_runs_all (P : ascii -> bool) b s :
  P " "%char = true -> all_chars P s = true ->
  all_chars (fun c => P c && negb (Ascii.eqb c "_"%char)) (collapse_runs b s) = true.
Proof.
  intros Hsp; revert b; induction s as [|c s IH]; intros b H; [reflexivity|].
  unfold all_chars in H; simpl in H; apply andb_prop in H as [H1 H2].
  simpl collapse_runs.
  destruct (is_space c || Ascii.eqb c "_") eqn:E.
  - destruct b; [apply IH; exact H2|].
    rewrite all_chars_cons, Hsp, IH by exact H2; reflexivity.
  - rewrite all_chars_cons, H1, IH by exact H2.
    apply orb_false_iff in E as [_ E]; rewrite E; reflexivity.
Qed.

Lemma collapse_runs_head s :
  match collapse_runs true s with
  | String c _ => space_or_underscore c = false
  | EmptyString => True
  end.
Proof.
  induction s as [|c s IH]; simpl; auto.
  destruct (is_space c || Ascii.eqb c "_") eqn:E; auto.
Qed.

Lemma collapse_runs_no_adjacent b s : no_adjacent_runs (collapse_runs b s) = true.
Proof.
  revert b; induction s as [|c s IH]; intros b; [reflexivity|].
  simpl collapse_runs.
  destruct (is_space c || Ascii.eqb c "_") eqn:E.
  - destruct b; [apply IH|].
    pose proof (collapse_runs_head s) as Hh.
    specialize (IH true).
    destruct (collapse_runs true s) as [|d t] eqn:Ec; [reflexivity|].
    change (negb (space_or_underscore " " && space_or_underscore d)
            && no_adjacent_runs (String d t) = true).
    rewrite Hh, IH, andb_false_r; reflexivity.
  - specialize (IH false).
    destruct (collapse_runs false s) as [|d t] eqn:Ec; [reflexivity|].
    change (negb (space_or_underscore c && space_or_underscore d)
            && no_adjacent_runs (String d t) = true).
    unfold space_or_underscore at 1; rewrite E, IH; reflexivity.
Qed.

Lemma collapse_runs_length b s : String.length (collapse_runs b s) <= String.length s.
Proof.
  revert b; induction s as [|c s IH]; intros b; simpl; [lia|].
  pose proof (IH false); pose proof (IH true).
  destruct (is_space c || Ascii.eqb c "_"); [destruct b|]; simpl; lia.
Qed.

(** C6 (counterexample): the last step of [_sanitize_name],
    [re.sub(r'[\s_]+', ' ', name)], turns the underscore that replaced the
    slash into a space: the artist folder for "A/C" is "A C", not "A_C". *)
Lemma C6_artist_slash_counterexample :
  let m := {| artist := Some "A/C"%string; album := None; title := None; year := None;
              bitrate := None; format := None |} in
  let f := {| id := 1; source_path := ["music"; "a.mp3"]%string; file_size := 3;
              file_hash := None; status := Indexed |} in
  _get_target_path ["target"]%string f (Some m) = ["target"; "A C"; "a.mp3"]%string
  /\ _get_target_path ["target"]%string f (Some m) <> ["target"; "A_C"; "a.mp3"]%string.
Proof. vm_compute. split; [reflexivity | discriminate]. Qed.

(** [_sanitize_name] replaces each of < > : | ? * / and the double quote by
    an underscore, strips leading and trailing dots and spaces, truncates to
    100 characters, and then replaces every run of whitespace or underscores
    by one space.  Its result contains none of those characters and no
    underscore, has no two adjacent whitespace characters and is at most 100
    characters long; the artist folder of a file whose artist is "A/C" is
    "A C". *)
Theorem _sanitize_name_output (name : string) :
  let r := _sanitize_name name in
  all_chars (fun c => negb (mem_char c sanitize_illegal_chars) && negb (Ascii.eqb c "_"%char)) r
    = true
  /\ no_adjacent_runs r = true
  /\ String.length r <= 100
  /\ (forall target_base f alb tit yr br fmt,
        _get_target_path target_base f
          (Some {| artist := Some "A/C"%string; album := alb; title := tit; year := yr;
                   bitrate := br; format := fmt |})
        = join (target_base ++ ["A C"%string])
               (optimize_path_for_windows (name_of (source_path f)))).
Proof.
  intros r; unfold r, _sanitize_name.
  set (s1 := replace_chars sanitize_illegal_chars "_" name).
  set (s2 := strip ". " s1).
  set (s3 := if 100 <? String.length s2 then substring 0 100 s2 else s2).
  assert (H1 : all_chars (fun c => negb (mem_char c sanitize_illegal_chars)) s1 = true).
  { apply replace_chars_all; [reflexivity|]. intros c Hc; rewrite Hc; reflexivity. }
  assert (H3 : all_chars (fun c => negb (mem_char c sanitize_illegal_chars)) s3 = true).
  { unfold s3; destruct (100 <? String.length s2);
      [apply substring0_all|]; apply strip_all; exact H1. }
  assert (L3 : String.length s3 <= 100).
  { unfold s3; destruct (Nat.ltb_spec 100 (String.length s2));
      [apply substring0_length | lia]. }
  split; [apply collapse_runs_all; [reflexivity | exact H3]|].
  split; [apply collapse_runs_no_adjacent|].
  split; [pose proof (collapse_runs_length false s3); lia|].
  intros target_base f alb tit yr br fmt.
  unfold _get_target_path; simpl.
  reflexivity.
Qed.

(* ------------------------------------------------------------------------- *)
(** ** Collision-safe naming ([_migrate_file]) *)

Lemma parse_dec_append (x y : string) (a : N) :
  parse_dec (append x y) a = parse_dec y (parse_dec x a).
Proof. revert a; induction x as [|c x IH]; intros a; simpl; auto. Qed.

Lemma digit_char (r : N) : (r < 10)%N -> (N_of_ascii (ascii_of_N (48 + r)) - 48 = r)%N.
Proof.
  intros Hr. rewrite N_ascii_embedding by lia. lia.
Qed.

Lemma str_append_assoc (x y z : string) : append (append x y) z = append x (append y z).
Proof. induction x as [|c x IH]; simpl; congruence. Qed.

Lemma dec_digits_S (f : nat) (n : N) (acc : string) :
  dec_digits (S f) n acc
  = if (n <? 10)%N then String (ascii_of_N (48 + n mod 10)) acc
    else dec_digits f (n / 10) (String (ascii_of_N (48 + n mod 10)) acc).
Proof. reflexivity. Qed.

Lemma dec_digits_spec (f : nat) : forall (n : N) (acc : string),
  (n < 10 ^ N.of_nat (S f))%N ->
  exists D, dec_digits (S f) n acc = append D acc
            /\ forall a, parse_dec D a = (a * 10 ^ N.of_nat (String.length D) + n)%N.
Proof.
  induction f as [|f IH]; intros n acc Hn.
  - exists (String (ascii_of_N (48 + n mod 10)) EmptyString).
    assert (n < 10)%N by (simpl in Hn; lia).
    rewrite dec_digits_S; replace (n <? 10)%N with true by (symmetry; apply N.ltb_lt; lia).
    split; [reflexivity|]. intros a; cbn [parse_dec String.length].
    rewrite digit_char by (apply N.mod_lt; lia).
    rewrite N.mod_small by lia. lia.
  - rewrite dec_digits_S.
    destruct (N.ltb_spec n 10) as [Hlt|Hge].
    + exists (String (ascii_of_N (48 + n mod 10)) EmptyString).
      split; [reflexivity|]. intros a; cbn [parse_dec String.length].
      rewrite digit_char by (apply N.mod_lt; lia).
      rewrite N.mod_small by lia. lia.
    + assert (Hq : (n / 10 < 10 ^ N.of_nat (S f))%N).
      { apply N.Div0.div_lt_upper_bound.
        replace (N.of_nat (S (S f))) with (N.succ (N.of_nat (S f))) in Hn by lia.
        rewrite N.pow_succ_r' in Hn. lia. }
      destruct (IH (n / 10)%N (String (ascii_of_N (48 + n mod 10)) acc) Hq) as [D [E HD]].
      exists (append D (String (ascii_of_N (48 + n mod 10)) EmptyString)).
      split.
      * rewrite E, str_append_assoc. reflexivity.
      * intros a. rewrite parse_dec_append, HD. cbn [parse_dec].
        rewrite digit_char by (apply N.mod_lt; lia).
        assert (Hlen : String.length (append D (String (ascii_of_N (48 + n mod 10)) EmptyString))
                       = S (String.length D)).
        { clear. induction D as [|c D IHD]; simpl; auto. }
        rewrite Hlen.
        replace (N.of_nat (S (String.length D))) with (N.succ (N.of_nat (String.length D))) by lia.
        rewrite N.pow_succ_r'.
        pose proof (N.Div0.div_mod n 10). lia.
Qed.

Lemma parse_str_N (n : N) : parse_dec (str_N n) 0 = n.
Proof.
  unfold str_N.
  assert (Hb : (n < 10 ^ N.of_nat (S (N.to_nat (N.size n))))%N).
  { destruct (N.eq_dec n 0) as [->|Hn]; [simpl; lia|].
    pose proof (N.size_gt n) as Hs.
    assert (H2 : (2 ^ N.size n <= 10 ^ N.size n)%N)
      by (apply N.pow_le_mono_l; lia).
    assert (H3 : (10 ^ N.size n <= 10 ^ N.of_nat (S (N.to_nat (N.size n))))%N)
      by (apply N.pow_le_mono_r; lia).
    lia. }
  destruct (dec_digits_spec _ n EmptyString Hb) as [D [E HD]].
  rewrite E. replace (append D EmptyString) with D.
  - rewrite HD; lia.
  - clear. induction D as [|c D IH]; simpl; congruence.
Qed.

Lemma str_N_inj (n m : N) : str_N n = str_N m -> n = m.
Proof. intros H. rewrite <- (parse_str_N n), <- (parse_str_N m), H. reflexivity. Qed.

Lemma str_append_inv_l (s x y : string) : append s x = append s y -> x = y.
Proof. induction s as [|c s IH]; simpl; auto. intros H; injection H; auto. Qed.

Lemma list_ascii_append (x y : string) :
  list_ascii_of_string (append x y) = list_ascii_of_string x ++ list_ascii_of_string y.
Proof. induction x as [|c x IH]; simpl; congruence. Qed.

Lemma str_append_inv_r (s x y : string) : append x s = append y s -> x = y.
Proof.
  intros H. apply (f_equal list_ascii_of_string) in H.
  rewrite !list_ascii_append in H. apply app_inv_tail in H.
  rewrite <- (string_of_list_ascii_of_string x), <- (string_of_list_ascii_of_string y), H.
  reflexivity.
Qed.

Lemma candidate_inj parent base ext j k :
  candidate parent base ext j = candidate parent base ext k -> j = k.
Proof.
  unfold candidate; intros H.
  apply app_inj_tail in H as [_ H].
  apply str_append_inv_l in H; apply str_append_inv_l in H.
  apply str_append_inv_r in H; apply str_N_inj in H; lia.
Qed.

Lemma lookup_in (w : fs) (p : path) (d : disk_file) : lookup w p = Some d -> In (p, d) w.
Proof.
  induction w as [|[q e] w IH]; simpl; [discriminate|].
  unfold path_eqb; destruct (list_eq_dec string_dec q p) as [->|]; intros H; [left; congruence|].
  right; auto.
Qed.

Lemma exists_path_in (w : fs) (p : path) : exists_path w p = true -> In p (map fst w).
Proof.
  unfold exists_path; destruct (lookup w p) as [d|] eqn:E; [|discriminate].
  intros _; apply lookup_in in E; apply in_map_iff; exists (p, d); auto.
Qed.

Lemma nodup_map_inj {X Y : Type} (f : X -> Y) (l : list X) :
  (forall a b, f a = f b -> a = b) -> NoDup l -> NoDup (map f l).
Proof.
  intros Hf Hl; induction Hl as [|x l Hx Hl IH]; simpl; constructor; auto.
  intros Hin; apply in_map_iff in Hin as [y [Hy Hin]]; apply Hf in Hy; subst; auto.
Qed.

(** Among the candidates [_1 .. _(length w + 1)] one is free. *)
Lemma some_candidate_free (w : fs) parent base ext :
  exists j, 1 <= j <= S (List.length w)
            /\ exists_path w (candidate parent base ext j) = false.
Proof.
  destruct (existsb (fun j => negb (exists_path w (candidate parent base ext j)))
                    (seq 1 (S (List.length w)))) eqn:E.
  - apply existsb_exists in E as [j [Hj Hf]]; apply in_seq in Hj.
    exists j; split; [lia|]; apply negb_true_iff; exact Hf.
  - exfalso.
    assert (Hall : forall j, In j (seq 1 (S (List.length w))) ->
                             exists_path w (candidate parent base ext j) = true).
    { intros j Hj; apply not_false_iff_true; intros Hn.
      assert (existsb (fun j => negb (exists_path w (candidate parent base ext j)))
                      (seq 1 (S (List.length w))) = true) as Ht.
      { apply existsb_exists; exists j; rewrite Hn; auto. }
      congruence. }
    assert (Hnd : NoDup (map (candidate parent base ext) (seq 1 (S (List.length w))))).
    { apply nodup_map_inj; [intros a b; apply candidate_inj | apply seq_NoDup]. }
    assert (Hinc : incl (map (candidate parent base ext) (seq 1 (S (List.length w))))
                        (map fst w)).
    { intros p Hp; apply in_map_iff in Hp as [j [<- Hj]]; apply exists_path_in, Hall, Hj. }
    pose proof (NoDup_incl_length Hnd Hinc) as Hl.
    rewrite !length_map, length_seq in Hl; lia.
Qed.

(** The renaming loop stops at the first free candidate. *)
Lemma find_free_first w parent base ext : forall fuel counter cur,
  exists_path w cur = true ->
  (exists j, counter <= j < counter + fuel
             /\ exists_path w (candidate parent base ext j) = false) ->
  exists k, counter <= k < counter + fuel
            /\ find_free w parent base ext counter fuel cur = candidate parent base ext k
            /\ exists_path w (candidate parent base ext k) = false
            /\ forall i, counter <= i < k -> exists_path w (candidate parent base ext i) = true.
Proof.
  induction fuel as [|fuel IH]; intros counter cur Hcur [j [Hj Hfree]]; [lia|].
  simpl find_free; rewrite Hcur.
  destruct (exists_path w (candidate parent base ext counter)) eqn:Ec.
  - destruct (IH (S counter) (candidate parent base ext counter) Ec) as [k [Hk [Hr [Hf Hb]]]].
    { exists j; split; [|exact Hfree].
      destruct (Nat.eq_dec j counter) as [->|]; [congruence|lia]. }
    exists k; split; [lia|]; split; [exact Hr|]; split; [exact Hf|].
    intros i Hi; destruct (Nat.eq_dec i counter) as [->|]; [exact Ec|apply Hb; lia].
  - exists counter; split; [lia|].
    split; [destruct fuel; simpl; [reflexivity|rewrite Ec; reflexivity]|].
    split; [exact Ec|]. intros i Hi; lia.
Qed.

Lemma find_free_fuel_enough w parent base ext target_path :
  exists_path w target_path = true ->
  exists k, 1 <= k <= S (List.length w)
            /\ find_free w parent base ext 1 (S (List.length w)) target_path
               = candidate parent base ext k
            /\ exists_path w (candidate parent base ext k) = false
            /\ forall i, 1 <= i < k -> exists_path w (candidate parent base ext i) = true.
Proof.
  intros H.
  destruct (some_candidate_free w parent base ext) as [j [Hj Hf]].
  destruct (find_free_first w parent base ext (S (List.length w)) 1 target_path H)
    as [k [Hk Hr]]; [exists j; split; [lia|exact Hf]|].
  exists k; split; [lia|exact Hr].
Qed.

Lemma path_eqb_spec (p q : path) : path_eqb p q = true <-> p = q.
Proof. unfold path_eqb; destruct (list_eq_dec string_dec p q); split; congruence. Qed.

Lemma path_eqb_refl (p : path) : path_eqb p p = true.
Proof. apply path_eqb_spec; reflexivity. Qed.

Lemma path_eqb_neq (p q : path) : p <> q -> path_eqb p q = false.
Proof. intros H; apply not_true_iff_false; rewrite path_eqb_spec; exact H. Qed.

Lemma lookup_remove_other (w : fs) (p q : path) :
  p <> q -> lookup (remove_path w p) q = lookup w q.
Proof.
  intros Hpq; induction w as [|[r d] w IH]; simpl; [reflexivity|].
  destruct (path_eqb r p) eqn:Erp; simpl.
  - apply path_eqb_spec in Erp; subst r; rewrite path_eqb_neq by exact Hpq; exact IH.
  - destruct (path_eqb r q); [reflexivity|exact IH].
Qed.

Lemma lookup_remove_same (w : fs) (p : path) : lookup (remove_path w p) p = None.
Proof.
  induction w as [|[r d] w IH]; simpl; [reflexivity|].
  destruct (path_eqb r p) eqn:Erp; simpl; [exact IH|]. rewrite Erp; exact IH.
Qed.

Lemma lookup_write_same (w : fs) (p : path) (d : disk_file) :
  lookup (write_path w p d) p = Some d.
Proof. simpl; rewrite path_eqb_refl; reflexivity. Qed.

Lemma lookup_write_other (w : fs) (p q : path) (d : disk_file) :
  p <> q -> lookup (write_path w p d) q = lookup w q.
Proof. intros H; simpl; rewrite path_eqb_neq by exact H; apply lookup_remove_other, H. Qed.

Lemma substring_full (s : string) : substring 0 (String.length s) s = s.
Proof. induction s as [|c s IH]; simpl; congruence. Qed.

Lemma substring_split (s : string) : forall i, i <= String.length s ->
  append (substring 0 i s) (substring i (String.length s - i) s) = s.
Proof.
  induction s as [|c s IH]; intros i Hi; simpl in *.
  - destruct i; reflexivity.
  - destruct i as [|i]; simpl.
    + rewrite substring_full; reflexivity.
    + rewrite IH by lia; reflexivity.
Qed.

Lemma str_append_empty_r (s : string) : append s EmptyString = s.
Proof. induction s as [|c s IH]; simpl; congruence. Qed.

(** [name == stem + suffix]. *)
Lemma stem_suffix (name : string) : append (stem name) (suffix name) = name.
Proof.
  unfold stem, suffix.
  destruct (rfind_dot name) as [i|]; [|apply str_append_empty_r].
  destruct ((0 <? i) && (i <? String.length name - 1)) eqn:E; [|apply str_append_empty_r].
  apply andb_prop in E as [_ E]; apply Nat.ltb_lt in E.
  apply substring_split; lia.
Qed.

Lemma str_length_append (x y : string) :
  String.length (append x y) = String.length x + String.length y.
Proof. induction x as [|c x IH]; simpl; congruence. Qed.

Lemma target_ne_candidate1 (tp : path) :
  tp <> candidate (removelast tp) (stem (name_of tp)) (suffix (name_of tp)) 1.
Proof.
  intros H.
  assert (Hn : name_of tp = append (stem (name_of tp))
                              (append "_" (append (str_N (N.of_nat 1)) (suffix (name_of tp))))).
  { unfold name_of at 1. rewrite H at 1. unfold candidate. apply last_last. }
  apply (f_equal String.length) in Hn.
  rewrite !str_length_append in Hn.
  pose proof (f_equal String.length (stem_suffix (name_of tp))) as Hs.
  rewrite str_length_append in Hs. simpl in Hn. lia.
Qed.

Lemma verify_same_content (w : fs) (src tp : path) (d : disk_file) :
  lookup w src = Some d -> lookup w tp = Some d -> read_error d = false ->
  verify_file_copy w src tp = true.
Proof.
  intros H1 H2 H3; unfold verify_file_copy; rewrite H1, H2; simpl; rewrite H3.
  apply String.eqb_refl.
Qed.

Lemma migrate_fresh_target (env : io_env) (w : fs) (f : File) (tp : path) (d : disk_file) :
  faithful_copy env ->
  lookup w (source_path f) = Some d -> read_error d = false -> lookup w tp = None ->
  _migrate_file env w f tp = (true, write_path w tp d).
Proof.
  intros Hc Hs Hr Ht; unfold _migrate_file, choose_target.
  rewrite Hs, Ht, Hc.
  assert (Hne : tp <> source_path f) by (intros ->; congruence).
  destruct (verify env); [|reflexivity].
  rewrite (verify_same_content (write_path w tp d) (source_path f) tp d); auto.
  - rewrite lookup_write_other by (intros E; apply Hne; auto); exact Hs.
  - apply lookup_write_same.
Qed.

(** C5: in real mode, (1) a target that already exists with the size of
    the source makes [_migrate_file] succeed without touching the store;
    (2) a target that exists with another size is replaced by the first free
    name [stem_k.ext], k = 1, 2, ...; (3) so two source files of different
    sizes with the same computed target [name.ext] end up, one after the
    other, as [name.ext] and [name_1.ext], two distinct files. *)
Theorem C5_collision_naming :
  (forall env w f tp sd td,
     lookup w (source_path f) = Some sd -> lookup w tp = Some td ->
     stat_error sd = false -> stat_error td = false -> st_size td = st_size sd ->
     _migrate_file env w f tp = (true, w))
  /\
  (forall w sd tp td,
     lookup w tp = Some td -> stat_error sd = false -> stat_error td = false ->
     st_size td <> st_size sd ->
     let cand := candidate (removelast tp) (stem (name_of tp)) (suffix (name_of tp)) in
     exists k, 1 <= k
       /\ choose_target w sd tp = CopyTo (cand k)
       /\ exists_path w (cand k) = false
       /\ forall i, 1 <= i < k -> exists_path w (cand i) = true)
  /\
  (forall env w f1 f2 tp d1 d2,
     faithful_copy env ->
     lookup w (source_path f1) = Some d1 -> lookup w (source_path f2) = Some d2 ->
     read_error d1 = false -> read_error d2 = false ->
     stat_error d1 = false -> stat_error d2 = false -> st_size d1 <> st_size d2 ->
     let name_1 := candidate (removelast tp) (stem (name_of tp)) (suffix (name_of tp)) 1 in
     lookup w tp = None -> lookup w name_1 = None ->
     let '(ok1, w1) := _migrate_file env w f1 tp in
     let '(ok2, w2) := _migrate_file env w1 f2 tp in
     ok1 = true /\ ok2 = true /\ tp <> name_1
     /\ lookup w2 tp = Some d1 /\ lookup w2 name_1 = Some d2).
Proof.
  split; [|split].
  - intros env w f tp sd td Hs Ht Hes Het Hsz.
    unfold _migrate_file, choose_target; rewrite Hs, Ht, Hes, Het, Hsz, N.eqb_refl.
    reflexivity.
  - intros w sd tp td Ht Hes Het Hsz cand.
    unfold choose_target; rewrite Ht, Hes, Het.
    replace (st_size td =? st_size sd)%N with false by (symmetry; apply N.eqb_neq; exact Hsz).
    assert (Hex : exists_path w tp = true) by (unfold exists_path; rewrite Ht; reflexivity).
    destruct (find_free_fuel_enough w (removelast tp) (stem (name_of tp)) (suffix (name_of tp))
                tp Hex) as [k [Hk [Hr [Hf Hb]]]].
    exists k; split; [lia|]; split; [unfold cand; rewrite <- Hr; reflexivity|].
    split; [exact Hf|exact Hb].
  - intros env w f1 f2 tp d1 d2 Hc Hs1 Hs2 Hr1 Hr2 He1 He2 Hsz name_1 Ht Hn.
    pose proof (target_ne_candidate1 tp) as Hne; fold name_1 in Hne.
    rewrite (migrate_fresh_target env w f1 tp d1 Hc Hs1 Hr1 Ht).
    set (w1 := write_path w tp d1).
    assert (Hs2' : lookup w1 (source_path f2) = Some d2).
    { unfold w1; rewrite lookup_write_other; [exact Hs2|intros E; rewrite E in Ht; congruence]. }
    assert (Hn1 : lookup w1 name_1 = None).
    { unfold w1; rewrite lookup_write_other by exact Hne; exact Hn. }
    assert (Hct : choose_target w1 d2 tp = CopyTo name_1).
    { unfold choose_target; unfold w1 at 1; rewrite lookup_write_same, He1, He2.
      replace (st_size d1 =? st_size d2)%N with false by (symmetry; apply N.eqb_neq; exact Hsz).
      simpl. cbn [find_free].
      unfold exists_path at 1; unfold w1 at 1; rewrite lookup_write_same.
      fold name_1; unfold exists_path; rewrite Hn1; reflexivity. }
    unfold _migrate_file at 1; rewrite Hs2', Hct, Hc.
    assert (Hsrc : source_path f2 <> name_1) by (intros E; rewrite E in Hs2; congruence).
    assert (Hw2 : (if verify env
                   then if verify_file_copy (write_path w1 name_1 d2) (source_path f2) name_1
                        then (true, write_path w1 name_1 d2)
                        else (false, if unlink_ok env name_1
                                     then remove_path (write_path w1 name_1 d2) name_1
                                     else write_path w1 name_1 d2)
                   else (true, write_path w1 name_1 d2)) = (true, write_path w1 name_1 d2)).
    { destruct (verify env); [|reflexivity].
      rewrite (verify_same_content _ (source_path f2) name_1 d2); auto.
      - rewrite lookup_write_other by (intros E; apply Hsrc; auto); exact Hs2'.
      - apply lookup_write_same. }
    rewrite Hw2.
    split; [reflexivity|]; split; [reflexivity|]; split; [exact Hne|].
    split.
    + rewrite lookup_write_other by (intros E; apply Hne; auto).
      unfold w1; apply lookup_write_same.
    + apply lookup_write_same.
Qed.

Lemma C5_collision_naming_witness :
  lookup ex_fs ex_src1 = Some (ex_file "abc") /\ lookup ex_fs ex_src2 = Some (ex_file "abcd")
  /\ lookup ex_fs ex_target = None
  /\ (let '(ok1, w1) := _migrate_file ex_env ex_fs (ex_entry 1 ex_src1) ex_target in
      let '(ok2, w2) := _migrate_file ex_env w1 (ex_entry 2 ex_src2) ex_target in
      ok1 = true /\ ok2 = true
      /\ ex_target <> ["target"; "Unknown"; "x_1.mp3"]%string
      /\ lookup w2 ex_target = Some (ex_file "abc")
      /\ lookup w2 ["target"; "Unknown"; "x_1.mp3"]%string = Some (ex_file "abcd")).
Proof.
  split; [reflexivity|]; split; [reflexivity|]; split; [reflexivity|].
  destruct C5_collision_naming as [_ [_ H3]].
  exact (H3 ex_env ex_fs (ex_entry 1 ex_src1) (ex_entry 2 ex_src2) ex_target
            (ex_file "abc") (ex_file "abcd") (fun _ _ => eq_refl) eq_refl eq_refl
            eq_refl eq_refl eq_refl eq_refl ltac:(vm_compute; discriminate) eq_refl eq_refl).
Defined.

(* ------------------------------------------------------------------------- *)
(** ** Migration records ([migrate_library]) *)

Lemma commit_rows (s : mig_state) : mig_rows (commit s) = mig_rows s.
Proof. unfold mig_rows; simpl; rewrite app_nil_r; reflexivity. Qed.

Lemma migrate_step_rows base env tm stop meta s i f :
  let s' := migrate_step base env tm stop meta s i f in
  mig_rows s' = mig_rows s \/ mig_rows s' = mig_rows s ++ [completed_record base meta f].
Proof.
  cbv zeta; unfold migrate_step.
  destruct (ms_stopped s || should_stop stop i); [left; reflexivity|].
  destruct (has_completed (ms_committed s) (id f)); [left; reflexivity|].
  destruct tm.
  - left; reflexivity.
  - destruct (_migrate_file env (ms_fs s) f _) as [[|] w'];
      destruct (negb false && (i mod 10 =? 0)); unfold mig_rows; simpl;
      rewrite ?app_nil_r, ?app_assoc; auto.
Qed.

Lemma migrate_loop_rows base env tm stop meta : forall l s i,
  exists new, mig_rows (migrate_loop base env tm stop meta s i l) = mig_rows s ++ new
              /\ Forall (fun m => exists f, In f l /\ m = completed_record base meta f) new.
Proof.
  induction l as [|f l IH]; intros s i; simpl.
  - exists []; rewrite app_nil_r; auto.
  - destruct (IH (migrate_step base env tm stop meta s i f) (S i)) as [new [E Hn]].
    destruct (migrate_step_rows base env tm stop meta s i f) as [E1|E1]; rewrite E1 in E.
    + exists new; split; [exact E|].
      eapply Forall_impl; [|exact Hn]. intros m [g [Hg Hm]]; exists g; auto.
    + exists (completed_record base meta f :: new); split; [rewrite E, <- app_assoc; reflexivity|].
      constructor; [exists f; auto|].
      eapply Forall_impl; [|exact Hn]. intros m [g [Hg Hm]]; exists g; auto.
Qed.

Lemma select_files_incl c skip f : In f (select_files c skip) -> In f (files c).
Proof. unfold select_files; intros H; apply filter_In in H; tauto. Qed.

(** C10: every [Migration] row added by [migrate_library] is [completed],
    belongs to a catalog file and records as target the path computed by
    [_get_target_path] ([target_base / artist / filename]); the suffixed
    name that [_migrate_file] may have written to never reaches the record. *)
Theorem C10_recorded_target_is_computed_path
  (target_base : path) (env : io_env) (test_mode : bool) (stop_at : option nat)
  (c : catalog) (w : fs) (skip_duplicates : bool) :
  let '(_, c', _, _) := migrate_library target_base env test_mode stop_at c w skip_duplicates in
  exists new, migrations c' = migrations c ++ new
    /\ forall m, In m new ->
       mig_status m = Completed
       /\ exists f, In f (files c) /\ mig_file_id m = id f /\ mig_source_path m = source_path f
                    /\ mig_target_path m = _get_target_path target_base f (metadata_of c (id f)).
Proof.
  unfold migrate_library.
  destruct (migrate_loop_rows target_base env test_mode stop_at (metadata_of c)
              (select_files c skip_duplicates)
              {| ms_files := files c; ms_committed := migrations c; ms_pending := [];
                 ms_fs := w; ms_migrated := 0; ms_skipped := 0; ms_failed := 0;
                 ms_errors := []; ms_mappings := []; ms_progress := [];
                 ms_stopped := false |} 0) as [new [E Hn]].
  set (s := migrate_loop _ _ _ _ _ _ _ _) in *.
  exists new; split.
  - destruct test_mode; simpl; [|rewrite app_nil_r];
      unfold mig_rows in E; simpl in E; rewrite app_nil_r in E; exact E.
  - intros m Hm. rewrite Forall_forall in Hn; destruct (Hn m Hm) as [f [Hf ->]].
    split; [reflexivity|]. exists f; split; [apply select_files_incl with skip_duplicates; exact Hf|].
    repeat split.
Qed.

(* ------------------------------------------------------------------------- *)
(** ** Failed verification ([_migrate_file], [migrate_library]) *)

(** C4 (as stated): with a copy that corrupts the data and a target whose
    [unlink()] raises, the bare [except: pass] swallows the error and the
    corrupted copy stays at the target, although the file is counted as
    failed. *)
Lemma C4_unlink_failure_counterexample :
  let '(r, _, w', _) :=
    migrate_library ex_base (ex_env_corrupt false) false None
                    (ex_catalog [ex_entry 1 ex_src1]) ex_fs true in
  r_failed r = 1 /\ lookup w' ex_target = Some (ex_file "abd").
Proof. vm_compute; split; reflexivity. Qed.

(** C4 (amended): in real mode with verification on, when the copy to [p]
    (the computed target or its first free suffixed name) fails
    [verify_file_copy] (hashes differ or one of them is [None]), the loop
    body counts the file as failed, appends its source path to the errors,
    adds no [Migration] row, migrates nothing and leaves the statuses
    unchanged; the store is the one after [copy2] with [p] unlinked when
    [unlink()] succeeds, and still holds the bad copy at [p] when it raises. *)
Theorem C4_verification_failure_amended
  (target_base : path) (env : io_env) (stop_at : option nat) (meta : nat -> option Metadata)
  (s : mig_state) (i : nat) (f : File) (sd cd : disk_file) (p : path) :
  verify env = true ->
  ms_stopped s = false -> should_stop stop_at i = false ->
  has_completed (ms_committed s) (id f) = false ->
  lookup (ms_fs s) (source_path f) = Some sd ->
  choose_target (ms_fs s) sd (_get_target_path target_base f (meta (id f))) = CopyTo p ->
  copy_result env p sd = Some cd ->
  verify_file_copy (write_path (ms_fs s) p cd) (source_path f) p = false ->
  let s' := migrate_step target_base env false stop_at meta s i f in
  ms_failed s' = S (ms_failed s) /\ ms_errors s' = ms_errors s ++ [source_path f]
  /\ ms_migrated s' = ms_migrated s /\ ms_files s' = ms_files s /\ mig_rows s' = mig_rows s
  /\ ms_fs s' = (if unlink_ok env p then remove_path (write_path (ms_fs s) p cd) p
                 else write_path (ms_fs s) p cd)
  /\ (unlink_ok env p = true ->
      lookup (ms_fs s') p = None /\ forall q, q <> p -> lookup (ms_fs s') q = lookup (ms_fs s) q)
  /\ (unlink_ok env p = false -> lookup (ms_fs s') p = Some cd).
Proof.
  intros Hv Hst Hss Hhc Hsrc Hch Hcp Hvf s'.
  assert (Hm : _migrate_file env (ms_fs s) f (_get_target_path target_base f (meta (id f)))
               = (false, if unlink_ok env p then remove_path (write_path (ms_fs s) p cd) p
                         else write_path (ms_fs s) p cd)).
  { unfold _migrate_file; rewrite Hsrc, Hch, Hcp, Hv, Hvf; reflexivity. }
  assert (Hfs : ms_fs s' = (if unlink_ok env p then remove_path (write_path (ms_fs s) p cd) p
                            else write_path (ms_fs s) p cd)
                /\ ms_failed s' = S (ms_failed s) /\ ms_errors s' = ms_errors s ++ [source_path f]
                /\ ms_migrated s' = ms_migrated s /\ ms_files s' = ms_files s
                /\ mig_rows s' = mig_rows s).
  { subst s'; unfold migrate_step; rewrite Hst, Hss, Hhc; cbn [orb]; rewrite Hm.
    destruct (negb false && (i mod 10 =? 0)); unfold mig_rows; simpl;
      rewrite ?app_nil_r; repeat split. }
  destruct Hfs as (Hfs & H1 & H2 & H3 & H4 & H5).
  do 6 (split; [assumption|]). split.
  - intros Hu; rewrite Hfs, Hu; split; [apply lookup_remove_same|].
    intros q Hq. rewrite lookup_remove_other by congruence.
    apply lookup_write_other; congruence.
  - intros Hu; rewrite Hfs, Hu; apply lookup_write_same.
Qed.

Lemma C4_verification_failure_amended_witness :
  let s' := migrate_step ex_base (ex_env_corrupt true) false None (fun _ => None)
                         (ex_mig_state ex_fs) 0 (ex_entry 1 ex_src1) in
  ms_failed s' = 1 /\ ms_errors s' = [ex_src1] /\ mig_rows s' = []
  /\ lookup (ms_fs s') ex_target = None.
Proof.
  destruct (C4_verification_failure_amended ex_base (ex_env_corrupt true) None (fun _ => None)
              (ex_mig_state ex_fs) 0 (ex_entry 1 ex_src1) (ex_file "abc") (ex_file "abd")
              ex_target)
    as (H1 & H2 & _ & _ & H5 & _ & H7 & _);
    try (vm_compute; reflexivity).
  destruct (H7 eq_refl) as [H8 _].
  split; [exact H1|]. split; [exact H2|]. split; [exact H5|]. exact H8.
Defined.

(* ------------------------------------------------------------------------- *)
(** ** A second run of [migrate_library] *)

Lemma has_completed_app (a b : list Migration) (x : nat) :
  has_completed (a ++ b) x = has_completed a x || has_completed b x.
Proof. unfold has_completed; apply existsb_app. Qed.

Lemma has_completed_other (b : list Migration) (x : nat) :
  (forall m, In m b -> mig_file_id m <> x) -> has_completed b x = false.
Proof.
  intros H; unfold has_completed; apply not_true_iff_false; intros E.
  apply existsb_exists in E as [m [Hm E]]; apply andb_true_iff in E as [E _].
  apply Nat.eqb_eq in E; exact (H m Hm E).
Qed.

Lemma migrate_step_skip base env tm stop meta s i f :
  ms_stopped s = false -> should_stop stop i = false ->
  has_completed (ms_committed s) (id f) = true ->
  migrate_step base env tm stop meta s i f =
  {| ms_files := ms_files s; ms_committed := ms_committed s; ms_pending := ms_pending s;
     ms_fs := ms_fs s; ms_migrated := ms_migrated s; ms_skipped := S (ms_skipped s);
     ms_failed := ms_failed s; ms_errors := ms_errors s; ms_mappings := ms_mappings s;
     ms_progress := ms_progress s; ms_stopped := false |}.
Proof. intros H1 H2 H3; unfold migrate_step; rewrite H1, H2, H3; reflexivity. Qed.

Lemma migrate_step_success base env stop meta s i f w' :
  ms_stopped s = false -> should_stop stop i = false ->
  has_completed (ms_committed s) (id f) = false ->
  _migrate_file env (ms_fs s) f (_get_target_path base f (meta (id f))) = (true, w') ->
  let s1 := migrate_step base env false stop meta s i f in
  ms_files s1 = set_status (ms_files s) (id f) Migrated
  /\ mig_rows s1 = mig_rows s ++ [completed_record base meta f]
  /\ ms_fs s1 = w'
  /\ ms_migrated s1 = S (ms_migrated s) /\ ms_skipped s1 = ms_skipped s
  /\ ms_failed s1 = ms_failed s /\ ms_stopped s1 = false
  /\ ((ms_committed s1 = ms_committed s
       /\ ms_pending s1 = ms_pending s ++ [completed_record base meta f])
      \/ (ms_committed s1 = ms_committed s ++ ms_pending s ++ [completed_record base meta f]
          /\ ms_pending s1 = [])).
Proof.
  intros H1 H2 H3 H4; unfold migrate_step; rewrite H1, H2, H3; cbn [orb]; rewrite H4.
  destruct (negb false && (i mod 10 =? 0)); unfold mig_rows; simpl;
    rewrite ?app_nil_r, ?app_assoc; repeat split; auto.
Qed.

Lemma migrate_step_failure base env stop meta s i f w' :
  ms_stopped s = false -> should_stop stop i = false ->
  has_completed (ms_committed s) (id f) = false ->
  _migrate_file env (ms_fs s) f (_get_target_path base f (meta (id f))) = (false, w') ->
  ms_failed (migrate_step base env false stop meta s i f) = S (ms_failed s).
Proof.
  intros H1 H2 H3 H4; unfold migrate_step; rewrite H1, H2, H3; cbn [orb]; rewrite H4.
  destruct (negb false && (i mod 10 =? 0)); reflexivity.
Qed.

Lemma migrate_step_failed_mono base env tm stop meta s i f :
  ms_failed s <= ms_failed (migrate_step base env tm stop meta s i f).
Proof.
  unfold migrate_step.
  destruct (ms_stopped s || should_stop stop i); [simpl; lia|].
  destruct (has_completed (ms_committed s) (id f)); [simpl; lia|].
  destruct tm; [destruct (negb true && (i mod 10 =? 0)); simpl; lia|].
  destruct (_migrate_file env (ms_fs s) f _) as [[|] w'];
    destruct (negb false && (i mod 10 =? 0)); simpl; lia.
Qed.

Lemma migrate_loop_failed_mono base env tm stop meta : forall l s i,
  ms_failed s <= ms_failed (migrate_loop base env tm stop meta s i l).
Proof.
  induction l as [|f l IH]; intros s i; simpl; [lia|].
  etransitivity; [apply (migrate_step_failed_mono base env tm stop meta s i f)|apply IH].
Qed.

(** A run without stop and without failure: every file of [l] whose id has a
    completed row (per [hc0]) is skipped, every other one is migrated. *)
Lemma migrate_loop_no_failure base env meta (hc0 : nat -> bool) : forall l s i,
  NoDup (map id l) -> ms_stopped s = false ->
  (forall f, In f l -> has_completed (ms_committed s) (id f) = hc0 (id f)) ->
  (forall f m, In f l -> In m (ms_pending s) -> mig_file_id m <> id f) ->
  ms_failed (migrate_loop base env false None meta s i l) = ms_failed s ->
  let s' := migrate_loop base env false None meta s i l in
  ms_files s' = fold_left (fun acc f => set_status acc (id f) Migrated)
                          (filter (fun f => negb (hc0 (id f))) l) (ms_files s)
  /\ ms_skipped s' = ms_skipped s + List.length (filter (fun f => hc0 (id f)) l)
  /\ ms_migrated s' = ms_migrated s + List.length (filter (fun f => negb (hc0 (id f))) l)
  /\ mig_rows s' = mig_rows s ++ map (completed_record base meta)
                                     (filter (fun f => negb (hc0 (id f))) l).
Proof.
  induction l as [|f l IH]; intros s i Hnd Hst Hhc Hpend Hf; simpl.
  - rewrite !Nat.add_0_r, app_nil_r; auto.
  - simpl in Hf. inversion Hnd as [|x y Hnin Hnd']; subst.
    set (s1 := migrate_step base env false None meta s i f) in *.
    assert (Hf1 : ms_failed s1 = ms_failed s).
    { pose proof (migrate_loop_failed_mono base env false None meta l s1 (S i)).
      pose proof (migrate_step_failed_mono base env false None meta s i f).
      unfold s1 in *; lia. }
    assert (Hne : forall g, In g l -> id g <> id f).
    { intros g Hg E; apply Hnin; rewrite <- E; apply in_map, Hg. }
    destruct (hc0 (id f)) eqn:Hh; simpl.
    + assert (E : s1 = {| ms_files := ms_files s; ms_committed := ms_committed s;
                          ms_pending := ms_pending s; ms_fs := ms_fs s;
                          ms_migrated := ms_migrated s; ms_skipped := S (ms_skipped s);
                          ms_failed := ms_failed s; ms_errors := ms_errors s;
                          ms_mappings := ms_mappings s; ms_progress := ms_progress s;
                          ms_stopped := false |}).
      { apply migrate_step_skip; auto. rewrite Hhc by (left; reflexivity); exact Hh. }
      destruct (IH s1 (S i) Hnd') as (H1 & H2 & H3 & H4);
        [rewrite E; reflexivity
        |rewrite E; intros g Hg; apply Hhc; right; exact Hg
        |rewrite E; intros g m Hg Hm; apply Hpend; [right|]; assumption
        |rewrite Hf1; exact Hf|].
      rewrite H1, H2, H3, H4, E; simpl.
      repeat split; lia.
    + assert (Hc : has_completed (ms_committed s) (id f) = false)
        by (rewrite Hhc by (left; reflexivity); exact Hh).
      destruct (_migrate_file env (ms_fs s) f (_get_target_path base f (meta (id f))))
        as [[|] w'] eqn:Em.
      2:{ pose proof (migrate_step_failure base env None meta s i f w' Hst eq_refl Hc Em).
          fold s1 in H; lia. }
      destruct (migrate_step_success base env None meta s i f w' Hst eq_refl Hc Em)
        as (E1 & E2 & _ & E4 & E5 & _ & E7 & E8); fold s1 in E1, E2, E4, E5, E7, E8.
      destruct (IH s1 (S i) Hnd' E7) as (H1 & H2 & H3 & H4).
      * intros g Hg.
        destruct E8 as [[-> _]|[-> _]]; [apply Hhc; right; exact Hg|].
        rewrite !has_completed_app, (has_completed_other (ms_pending s)),
          (has_completed_other [completed_record base meta f]), ?orb_false_r.
        -- apply Hhc; right; exact Hg.
        -- intros m [<-|[]]; simpl; apply not_eq_sym, Hne, Hg.
        -- intros m Hm; apply Hpend; [right|]; assumption.
      * intros g m Hg Hm.
        destruct E8 as [[_ E8]|[_ E8]]; rewrite E8 in Hm; [|destruct Hm].
        apply in_app_or in Hm as [Hm|[<-|[]]]; [apply Hpend; [right|]; assumption|].
        simpl; apply not_eq_sym, Hne, Hg.
      * rewrite Hf1; exact Hf.
      * rewrite H1, H2, H3, H4, E1, E2, E4, E5, <- app_assoc.
        repeat split; lia.
Qed.

Lemma nodup_map_filter {X Y : Type} (g : X -> Y) (p : X -> bool) (l : list X) :
  NoDup (map g l) -> NoDup (map g (filter p l)).
Proof.
  induction l as [|x l IH]; simpl; intros H; [constructor|].
  inversion H as [|a b Hn Hd]; subst.
  destruct (p x); simpl; [|auto].
  constructor; [|auto].
  intros Hin; apply Hn; apply in_map_iff in Hin as [y [Ey Hy]].
  apply filter_In in Hy as [Hy _]; rewrite <- Ey; apply in_map, Hy.
Qed.

Lemma nodup_map_eq {X Y : Type} (g : X -> Y) (l : list X) (x y : X) :
  NoDup (map g l) -> In x l -> In y l -> g x = g y -> x = y.
Proof.
  induction l as [|z l IH]; simpl; [tauto|].
  intros H Hx Hy E; inversion H as [|a b Hn Hd]; subst.
  destruct Hx as [<-|Hx], Hy as [<-|Hy]; auto.
  - exfalso; apply Hn; rewrite E; apply in_map, Hy.
  - exfalso; apply Hn; rewrite <- E; apply in_map, Hx.
Qed.

Lemma filter_set_status_migrated (Q : File -> bool) (fs0 : list File) (x : nat) :
  (forall f, Q {| id := id f; source_path := source_path f; file_size := file_size f;
                 file_hash := file_hash f; status := Migrated |} = false) ->
  filter Q (set_status fs0 x Migrated) = filter (fun f => Q f && negb (id f =? x)) fs0.
Proof.
  intros HQ; induction fs0 as [|f fs0 IH]; simpl; [reflexivity|].
  destruct (id f =? x); simpl.
  - rewrite HQ, andb_false_r; exact IH.
  - rewrite andb_true_r; destruct (Q f); [f_equal|]; exact IH.
Qed.

Lemma select_after_marks (c : catalog) (skip : bool) : forall (L fs0 : list File),
  filter (selected c skip) (fold_left (fun acc f => set_status acc (id f) Migrated) L fs0)
  = filter (fun f => selected c skip f && negb (existsb (fun g => id g =? id f) L)) fs0.
Proof.
  induction L as [|g L IH]; intros fs0; simpl.
  - apply filter_ext; intros f; rewrite andb_true_r; reflexivity.
  - rewrite IH, filter_set_status_migrated by reflexivity.
    apply filter_ext; intros f.
    rewrite (Nat.eqb_sym (id g) (id f)).
    destruct (selected c skip f), (existsb (fun g0 => id g0 =? id f) L), (id f =? id g);
      reflexivity.
Qed.

Lemma migrate_loop_all_skipped base env tm meta : forall l s i,
  ms_stopped s = false ->
  (forall f, In f l -> has_completed (ms_committed s) (id f) = true) ->
  migrate_loop base env tm None meta s i l =
  {| ms_files := ms_files s; ms_committed := ms_committed s; ms_pending := ms_pending s;
     ms_fs := ms_fs s; ms_migrated := ms_migrated s;
     ms_skipped := ms_skipped s + List.length l;
     ms_failed := ms_failed s; ms_errors := ms_errors s; ms_mappings := ms_mappings s;
     ms_progress := ms_progress s; ms_stopped := ms_stopped s |}.
Proof.
  induction l as [|f l IH]; intros s i Hst Hhc; simpl.
  - rewrite Nat.add_0_r; destruct s; reflexivity.
  - rewrite migrate_step_skip by (auto || apply Hhc; left; reflexivity).
    rewrite IH; simpl; [|reflexivity|intros g Hg; apply Hhc; right; exact Hg].
    rewrite Hst, Nat.add_succ_r; reflexivity.
Qed.

Lemma completed_count_app (a b : list Migration) (x : nat) :
  completed_count (a ++ b) x = completed_count a x + completed_count b x.
Proof. unfold completed_count; rewrite filter_app, length_app; reflexivity. Qed.

Lemma completed_count_record base meta f x :
  completed_count [completed_record base meta f] x = if id f =? x then 1 else 0.
Proof. unfold completed_count; simpl; destruct (id f =? x); reflexivity. Qed.

Lemma completed_count_has_completed (ms : list Migration) (x : nat) :
  completed_count ms x = 0 \/ has_completed ms x = true.
Proof.
  unfold completed_count, has_completed.
  destruct (filter (fun m => (mig_file_id m =? x) && is_completed m) ms) as [|m r] eqn:E;
    [left; reflexivity|right].
  apply existsb_exists; exists m.
  assert (Hm : In m (filter (fun m => (mig_file_id m =? x) && is_completed m) ms))
    by (rewrite E; left; reflexivity).
  apply filter_In in Hm; exact Hm.
Qed.

Lemma migrate_step_rows_committed base env tm stop meta s i f :
  let s' := migrate_step base env tm stop meta s i f in
  (exists x, ms_committed s' = ms_committed s ++ x)
  /\ (mig_rows s' = mig_rows s
      \/ (mig_rows s' = mig_rows s ++ [completed_record base meta f]
          /\ has_completed (ms_committed s) (id f) = false)).
Proof.
  cbv zeta; unfold migrate_step.
  destruct (ms_stopped s || should_stop stop i);
    [split; [exists []; rewrite app_nil_r|left]; reflexivity|].
  destruct (has_completed (ms_committed s) (id f)) eqn:Hc;
    [split; [exists []; rewrite app_nil_r|left]; reflexivity|].
  destruct tm.
  - split; [exists []; rewrite app_nil_r|left]; reflexivity.
  - destruct (_migrate_file env (ms_fs s) f _) as [[|] w'];
      destruct (negb false && (i mod 10 =? 0)); unfold mig_rows; simpl;
      (split; [eexists; first [reflexivity | symmetry; apply app_nil_r]|]);
      rewrite ?app_nil_r, ?app_assoc; auto.
Qed.

Lemma migrate_loop_at_most_one base env tm stop meta : forall l s i,
  NoDup (map id l) ->
  (forall x, completed_count (mig_rows s) x <= 1) ->
  (forall f, In f l ->
     completed_count (mig_rows s) (id f) = 0 \/ has_completed (ms_committed s) (id f) = true) ->
  forall x, completed_count (mig_rows (migrate_loop base env tm stop meta s i l)) x <= 1.
Proof.
  induction l as [|f l IH]; intros s i Hnd H1 H2; simpl; [exact H1|].
  inversion Hnd as [|a b Hnin Hnd']; subst.
  destruct (migrate_step_rows_committed base env tm stop meta s i f) as [[y Ey] Er].
  set (s1 := migrate_step base env tm stop meta s i f) in *.
  assert (Hkeep : forall g, has_completed (ms_committed s) (id g) = true ->
                            has_completed (ms_committed s1) (id g) = true).
  { intros g Hg; rewrite Ey, has_completed_app, Hg; reflexivity. }
  apply IH; [exact Hnd'| |].
  - destruct Er as [-> | [-> Hc]]; [exact H1|].
    intros x; rewrite completed_count_app, completed_count_record.
    destruct (id f =? x) eqn:Ex; [|rewrite Nat.add_0_r; apply H1].
    apply Nat.eqb_eq in Ex; subst x.
    destruct (H2 f (or_introl eq_refl)) as [->|Hc']; [lia|congruence].
  - intros g Hg.
    assert (Hne : id f <> id g) by (intros E; apply Hnin; rewrite E; apply in_map, Hg).
    destruct (H2 g (or_intror Hg)) as [H|H]; [|right; apply Hkeep, H].
    left; destruct Er as [-> | [-> _]]; [exact H|].
    rewrite completed_count_app, completed_count_record, H.
    apply Nat.eqb_neq in Hne; rewrite Hne; reflexivity.
Qed.

Lemma migrate_library_at_most_one target_base env tm stop c w skip :
  NoDup (map id (files c)) -> (forall x, completed_count (migrations c) x <= 1) ->
  let '(_, c', _, _) := migrate_library target_base env tm stop c w skip in
  forall x, completed_count (migrations c') x <= 1.
Proof.
  intros Hnd H1; unfold migrate_library.
  set (s := migrate_loop _ _ _ _ _ _ _ _).
  assert (Hs : forall x, completed_count (mig_rows s) x <= 1).
  { apply migrate_loop_at_most_one; unfold mig_rows; simpl; rewrite ?app_nil_r.
    - apply nodup_map_filter, Hnd.
    - exact H1.
    - intros f _; apply completed_count_has_completed. }
  destruct tm; simpl; [exact Hs|]. rewrite app_nil_r; exact Hs.
Qed.

Lemma filter_length_split {X : Type} (p : X -> bool) (l : list X) :
  List.length (filter p l) + List.length (filter (fun x => negb (p x)) l) = List.length l.
Proof. induction l as [|x l IH]; simpl; [reflexivity|]; destruct (p x); simpl; lia. Qed.

Lemma filter_filter_and {X : Type} (p q : X -> bool) (l : list X) :
  filter q (filter p l) = filter (fun x => p x && q x) l.
Proof. induction l as [|x l IH]; simpl; [reflexivity|]; destruct (p x); simpl; auto; rewrite IH; reflexivity. Qed.

(** After a run that migrated the files of [sel] without an earlier completed
    row, the selection of the next run is the rest of [sel]. *)
Lemma select_second_run (c : catalog) (skip : bool) (hc0 : nat -> bool) :
  NoDup (map id (files c)) ->
  let sel := select_files c skip in
  filter (selected c skip)
    (fold_left (fun acc f => set_status acc (id f) Migrated)
               (filter (fun f => negb (hc0 (id f))) sel) (files c))
  = filter (fun f => hc0 (id f)) sel.
Proof.
  intros Hnd sel; rewrite select_after_marks; unfold sel, select_files.
  rewrite (filter_filter_and (selected c skip) (fun f => hc0 (id f))).
  apply filter_ext_in; intros f Hf.
  destruct (selected c skip f) eqn:Hs; [simpl|reflexivity].
  assert (Hfs : In f (filter (selected c skip) (files c))) by (apply filter_In; auto).
  destruct (hc0 (id f)) eqn:Hh; simpl.
  - apply negb_true_iff, not_true_iff_false; intros E.
    apply existsb_exists in E as [g [Hg E]]; apply Nat.eqb_eq in E.
    apply filter_In in Hg as [Hg Hng].
    apply filter_In in Hg as [Hg _].
    rewrite (nodup_map_eq id (files c) g f Hnd Hg Hf E), Hh in Hng; discriminate.
  - apply negb_false_iff, existsb_exists; exists f; split; [|apply Nat.eqb_refl].
    apply filter_In; rewrite Hh; auto.
Qed.

(** C1 (as stated): after a run that migrates the only file, the second run
    does not count it as skipped: the file now has status [migrated] and is
    no longer selected. *)
Lemma C1_second_run_counterexample :
  let '(r1, c1, w1, _) :=
    migrate_library ex_base ex_env false None (ex_catalog [ex_entry 1 ex_src1]) ex_fs true in
  let '(r2, c2, _, _) := migrate_library ex_base ex_env false None c1 w1 true in
  r_migrated r1 = 1 /\ r_failed r1 = 0 /\ r_skipped r2 = 0
  /\ List.length (migrations c2) = List.length (migrations c1).
Proof. vm_compute; repeat split. Qed.

(** C1 (amended): for a catalog [c] whose file ids are distinct, (1) every
    run of [migrate_library] on [c] (any environment, dry or real mode, with
    or without stop, either [skip_duplicates]) that starts with at most one
    [completed] row per file ends with at most one [completed] row per file;
    (2) after a fully successful run (real mode, not stopped, no failure), a
    second run (dry or real, not stopped, same [skip_duplicates]) adds no
    [Migration] row, migrates and fails nothing, and changes neither the
    statuses nor the file store.  The files the first run migrated are now
    [migrated] and are not selected again, so the second run does not count
    them as skipped: its skipped count is the number of selected files that
    already had a [completed] row before the first run, which is also the
    first run's skipped count. *)
Theorem C1_idempotence_amended (target_base : path) (env env2 : io_env) (test_mode2 : bool)
  (c : catalog) (w : fs) (skip_duplicates : bool) :
  NoDup (map id (files c)) ->
  (forall (env' : io_env) (tm : bool) (stop : option nat) (w' : fs) (skip : bool),
     (forall x, completed_count (migrations c) x <= 1) ->
     let '(_, c', _, _) := migrate_library target_base env' tm stop c w' skip in
     forall x, completed_count (migrations c') x <= 1)
  /\ let '(r1, c1, w1, _) := migrate_library target_base env false None c w skip_duplicates in
     let '(r2, c2, w2, _) :=
       migrate_library target_base env2 test_mode2 None c1 w1 skip_duplicates in
     (r_failed r1 = 0 ->
      r_migrated r2 = 0 /\ r_failed r2 = 0
      /\ r_skipped r2 = List.length (filter (fun f => has_completed (migrations c) (id f))
                                            (select_files c skip_duplicates))
      /\ r_skipped r1 = r_skipped r2
      /\ r_skipped r1 + r_migrated r1 = List.length (select_files c skip_duplicates)
      /\ migrations c2 = migrations c1 /\ files c2 = files c1 /\ w2 = w1).
Proof.
  intros Hnd. split.
  { intros env' tm stop w' skip H1.
    exact (migrate_library_at_most_one target_base env' tm stop c w' skip Hnd H1). }
  destruct (migrate_library target_base env false None c w skip_duplicates)
    as [[[r1 c1] w1] p1] eqn:E1.
  destruct (migrate_library target_base env2 test_mode2 None c1 w1 skip_duplicates)
    as [[[r2 c2] w2] p2] eqn:E2.
  intros Hf.
  set (hc0 := has_completed (migrations c)).
  unfold migrate_library in E1.
  set (s := migrate_loop target_base env false None (metadata_of c) _ 0 _) in E1.
  injection E1 as Er1 Ec1 Ew1 Ep1; subst r1 w1 p1; simpl in Hf |- *.
  destruct (migrate_loop_no_failure target_base env (metadata_of c) hc0
              (select_files c skip_duplicates)
              {| ms_files := files c; ms_committed := migrations c; ms_pending := [];
                 ms_fs := w; ms_migrated := 0; ms_skipped := 0; ms_failed := 0;
                 ms_errors := []; ms_mappings := []; ms_progress := [];
                 ms_stopped := false |} 0)
    as (H1 & H2 & H3 & H4);
    [apply nodup_map_filter, Hnd|reflexivity|reflexivity|intros f m _ []|exact Hf|].
  fold s in H1, H2, H3, H4; simpl in H1, H2, H3, H4.
  assert (Hsel : select_files c1 skip_duplicates
                 = filter (fun f => hc0 (id f)) (select_files c skip_duplicates)).
  { unfold select_files at 1. rewrite <- Ec1; simpl. rewrite H1.
    rewrite <- (select_second_run c skip_duplicates hc0 Hnd).
    apply filter_ext; intros f; reflexivity. }
  assert (Hm1 : migrations c1 = migrations c ++ map (completed_record target_base (metadata_of c))
                                  (filter (fun f => negb (hc0 (id f)))
                                          (select_files c skip_duplicates))).
  { rewrite <- Ec1; simpl; rewrite app_nil_r; unfold mig_rows in H4; simpl in H4.
    rewrite app_nil_r in H4; exact H4. }
  unfold migrate_library in E2; rewrite Hsel in E2.
  rewrite migrate_loop_all_skipped in E2; simpl;
    [|reflexivity|].
  2:{ intros f Hf'; apply filter_In in Hf' as [_ Hh]; simpl.
      rewrite Hm1, has_completed_app; fold hc0; rewrite Hh; reflexivity. }
  destruct test_mode2; simpl in E2; injection E2 as Er2 Ec2 Ew2 Ep2; subst r2 c2 w2 p2;
    simpl; rewrite ?app_nil_r; (repeat split); try lia.
  all: first [ rewrite H2, H3; apply (filter_length_split (fun f => hc0 (id f)))
             | rewrite <- Ec1; reflexivity ].
Qed.

Lemma C1_idempotence_amended_witness :
  let '(r1, c1, w1, _) :=
    migrate_library ex_base ex_env false None (ex_catalog [ex_entry 1 ex_src1]) ex_fs true in
  let '(r2, c2, w2, _) := migrate_library ex_base ex_env false None c1 w1 true in
  r_failed r1 = 0 /\ r_migrated r2 = 0 /\ migrations c2 = migrations c1.
Proof.
  pose proof (C1_idempotence_amended ex_base ex_env ex_env false
                (ex_catalog [ex_entry 1 ex_src1]) ex_fs true) as H.
  assert (Hnd : NoDup (map id (files (ex_catalog [ex_entry 1 ex_src1]))))
    by (simpl; constructor; [simpl; tauto|constructor]).
  specialize (H Hnd).
  destruct H as [_ H].
  destruct (migrate_library ex_base ex_env false None (ex_catalog [ex_entry 1 ex_src1]) ex_fs true)
    as [[[r1 c1] w1] p1] eqn:E1.
  destruct (migrate_library ex_base ex_env false None c1 w1 true) as [[[r2 c2] w2] p2].
  assert (Hf : r_failed r1 = 0).
  { apply (f_equal (fun x => r_failed (fst (fst (fst x))))) in E1.
    vm_compute in E1; symmetry; exact E1. }
  destruct (H Hf) as (Ha & _ & _ & _ & _ & Hb & _).
  split; [exact Hf|]. split; [exact Ha|exact Hb].
Defined.

(* ------------------------------------------------------------------------- *)
(** ** Final checkpoint of [index_directory] *)

Lemma concat_batch_files_aux (size : nat) : forall l cur,
  List.concat (batch_files_aux size cur l) = cur ++ l.
Proof.
  induction l as [|x l IH]; intros cur; simpl.
  - destruct cur; simpl; [reflexivity|rewrite app_nil_r; reflexivity].
  - destruct (size <=? List.length (cur ++ [x])); simpl; rewrite IH; rewrite <- app_assoc;
      reflexivity.
Qed.

Lemma concat_batch_files (l : list path) (n : nat) : List.concat (batch_files l n) = l.
Proof. apply concat_batch_files_aux. Qed.

Lemma idx_seen_inv_at_limit cfg s :
  idx_seen_inv cfg s -> ix_stopped s || idx_should_stop cfg (ix_seen s) = true ->
  forall m, idx_seen_limit (index_stop_at cfg) (ix_seen s + m) = ix_seen s.
Proof.
  intros [Hs Hk] H m; unfold idx_seen_limit, idx_should_stop in *.
  destruct (index_stop_at cfg) as [k|]; [|destruct (ix_stopped s); simpl in H;
    [specialize (Hs eq_refl); discriminate|discriminate]].
  specialize (Hk k eq_refl).
  destruct (ix_stopped s); simpl in H; [specialize (Hs eq_refl); clear H; rename Hs into H|];
    apply Nat.leb_le in H; lia.
Qed.

Lemma fold_index_file_seen cfg w : forall b s,
  idx_seen_inv cfg s ->
  idx_seen_inv cfg (fold_left (index_file cfg w) b s)
  /\ ix_seen (fold_left (index_file cfg w) b s)
     = idx_seen_limit (index_stop_at cfg) (ix_seen s + List.length b).
Proof.
  induction b as [|p b IH]; intros s Hi; simpl.
  - split; [exact Hi|]. destruct Hi as [_ Hk]; unfold idx_seen_limit.
    destruct (index_stop_at cfg) as [k|]; [specialize (Hk k eq_refl); lia|lia].
  - destruct (ix_stopped s || idx_should_stop cfg (ix_seen s)) eqn:Hst.
    + assert (E : index_file cfg w s p =
                  {| ix_catalog := ix_catalog s; ix_session := ix_session s;
                     ix_processed := ix_processed s; ix_files_processed := ix_files_processed s;
                     ix_added := ix_added s; ix_skipped := ix_skipped s; ix_errors := ix_errors s;
                     ix_seen := ix_seen s; ix_stopped := true; ix_progress := ix_progress s;
                     ix_checkpoint := ix_checkpoint s |})
        by (unfold index_file; rewrite Hst; reflexivity).
      rewrite E. destruct Hi as [Hs Hk].
      assert (Hi' : idx_seen_inv cfg {| ix_catalog := ix_catalog s; ix_session := ix_session s;
                     ix_processed := ix_processed s; ix_files_processed := ix_files_processed s;
                     ix_added := ix_added s; ix_skipped := ix_skipped s; ix_errors := ix_errors s;
                     ix_seen := ix_seen s; ix_stopped := true; ix_progress := ix_progress s;
                     ix_checkpoint := ix_checkpoint s |}).
      { split; simpl; [|exact Hk]. intros _.
        destruct (ix_stopped s); [apply Hs; reflexivity|exact Hst]. }
      destruct (IH _ Hi') as [H1 H2]; split; [exact H1|]; rewrite H2; simpl.
      rewrite (idx_seen_inv_at_limit cfg _ Hi') by (simpl; reflexivity).
      symmetry; apply (idx_seen_inv_at_limit cfg s (conj Hs Hk) Hst).
    + assert (Hi' : idx_seen_inv cfg (index_file cfg w s p)
                    /\ ix_seen (index_file cfg w s p) = S (ix_seen s)).
      { destruct Hi as [Hs Hk]. apply orb_false_iff in Hst as [Hst1 Hst2].
        assert (Hk' : forall k, index_stop_at cfg = Some k -> S (ix_seen s) <= k).
        { intros k Ek; unfold idx_should_stop in Hst2; rewrite Ek in Hst2.
          apply Nat.leb_gt in Hst2; lia. }
        unfold index_file; rewrite Hst1, Hst2; simpl.
        destruct (in_paths p (ix_processed s));
          [|destruct (existsb _ (ix_catalog s));
            [|destruct (lookup w p) as [d|]; [destruct (stat_error d)|]]];
          (split; [split; simpl; [discriminate|exact Hk']|reflexivity]). }
      destruct Hi' as [Hi' Hseen]; destruct (IH _ Hi') as [H1 H2].
      split; [exact H1|]; rewrite H2, Hseen; f_equal; lia.
Qed.

Lemma idx_seen_limit_add (stop : option nat) (a r : nat) :
  idx_seen_limit stop (idx_seen_limit stop a + r) = idx_seen_limit stop (a + r).
Proof. destruct stop as [k|]; simpl; lia. Qed.

Lemma index_batches_seen cfg w total_files : forall bs s n,
  idx_seen_inv cfg s ->
  ix_seen (index_batches cfg w total_files s n bs)
  = idx_seen_limit (index_stop_at cfg) (ix_seen s + List.length (List.concat bs)).
Proof.
  induction bs as [|b bs IH]; intros s n Hi; simpl.
  - destruct Hi as [_ Hk]; unfold idx_seen_limit.
    destruct (index_stop_at cfg) as [k|]; [specialize (Hk k eq_refl); lia|lia].
  - destruct (ix_stopped s || idx_should_stop cfg (ix_seen s)) eqn:Hst.
    + simpl; symmetry; apply (idx_seen_inv_at_limit cfg s Hi Hst).
    + destruct (fold_index_file_seen cfg w b s Hi) as [[H1 H2] H3].
      rewrite IH by (split; simpl; assumption). simpl.
      rewrite H3, idx_seen_limit_add, length_app, Nat.add_assoc; reflexivity.
Qed.

Lemma should_stop_at_limit cfg n :
  idx_should_stop cfg (idx_seen_limit (index_stop_at cfg) n) = true
  <-> exists k, index_stop_at cfg = Some k /\ k <= n.
Proof.
  unfold idx_should_stop, idx_seen_limit.
  destruct (index_stop_at cfg) as [k|]; split.
  - intros H; apply Nat.leb_le in H; exists k; split; [reflexivity|lia].
  - intros [k' [E H]]; injection E as <-; apply Nat.leb_le; lia.
  - discriminate.
  - intros [k' [E _]]; discriminate.
Qed.

(** C2 (as stated): (1) a run stopped before its first file leaves no
    checkpoint, although nothing was processed; (2) a run that visits the
    only file but skips it (already in the catalog) leaves a checkpoint,
    since [files_processed] counts only added files. *)
Lemma C2_stop_clears_checkpoint_counterexample :
  match index_directory (ex_index_config (Some 0)) ex_fs true ex_walk [] None true with
  | Some (r, _, cp, _) => total_processed r = 0 /\ estimate_file_count ex_walk = 1 /\ cp = None
  | None => False
  end
  /\ match index_directory (ex_index_config None) ex_fs true ex_walk
                           [ex_entry 1 ex_src1] None true with
     | Some (r, _, cp, _) => files_skipped r = 1 /\ cp <> None
     | None => False
     end.
Proof. vm_compute; split; [repeat split|split; [reflexivity|discriminate]]. Qed.

(** C2 (amended): with checkpointing enabled, the checkpoint is deleted at
    the end of the run exactly when [files_processed] (the files added, plus
    the progress of the resumed checkpoint) reaches the estimated total, or
    when the stop flag has been set during the run (seen after [k] of the
    listed files with [k] at most their number); otherwise it is saved with
    [progress = files_processed] and [total] the estimate. *)
Theorem C2_final_checkpoint_amended (cfg : index_config) (w : fs) (walk : list walk_entry)
  (cat : list File) (stored : option checkpoint) (resume : bool) :
  checkpoint_enabled cfg = true ->
  match index_directory cfg w true walk cat stored resume with
  | Some (r, _, cp, _) =>
      (cp = None <-> estimate_file_count walk <= total_processed r
                     \/ exists k, index_stop_at cfg = Some k
                                  /\ k <= List.length (get_files_sorted_by_location walk))
      /\ (forall c', cp = Some c' -> cp_progress c' = total_processed r
                                     /\ cp_total c' = estimate_file_count walk)
  | None => False
  end.
Proof.
  intros He; unfold index_directory; cbn [negb].
  set (s := index_batches cfg w _ _ 0 _).
  assert (Hs : ix_seen s = idx_seen_limit (index_stop_at cfg)
                             (List.length (get_files_sorted_by_location walk))).
  { unfold s; rewrite index_batches_seen, concat_batch_files; [reflexivity|].
    split; simpl; [discriminate|lia]. }
  simpl; unfold final_checkpoint; rewrite He, Hs.
  pose proof (should_stop_at_limit cfg (List.length (get_files_sorted_by_location walk))) as Hl.
  destruct (estimate_file_count walk <=? ix_files_processed s) eqn:Ht; simpl.
  - apply Nat.leb_le in Ht; split; [tauto|discriminate].
  - apply Nat.leb_gt in Ht.
    destruct (idx_should_stop cfg _) eqn:Hq; split.
    + tauto.
    + discriminate.
    + split; [discriminate|]. intros [H|H]; [lia|apply Hl in H; discriminate].
    + intros c' E; injection E as <-; split; reflexivity.
Qed.

Lemma C2_final_checkpoint_amended_witness :
  match index_directory (ex_index_config None) ex_fs true ex_walk [] None true with
  | Some (r, _, cp, _) =>
      (cp = None <-> estimate_file_count ex_walk <= total_processed r
                     \/ exists k, index_stop_at (ex_index_config None) = Some k
                                  /\ k <= List.length (get_files_sorted_by_location ex_walk))
      /\ (forall c', cp = Some c' -> cp_progress c' = total_processed r
                                     /\ cp_total c' = estimate_file_count ex_walk)
  | None => False
  end.
Proof. apply C2_final_checkpoint_amended; reflexivity. Defined.

(* ------------------------------------------------------------------------- *)
(** ** Progress values *)

Lemma ss_snoc {X : Type} (R : X -> X -> Prop) (l : list X) (x : X) :
  StronglySorted R l -> Forall (fun y => R y x) l -> StronglySorted R (l ++ [x]).
Proof.
  induction l as [|a l IH]; simpl; intros H1 H2.
  - repeat constructor.
  - inversion H1 as [|b c Hs Hf]; inversion H2 as [|d e Ha Hl]; subst.
    constructor; [apply IH; assumption|].
    apply Forall_app; split; [exact Hf|constructor; [exact Ha|constructor]].
Qed.

Lemma ss_filter {X : Type} (R : X -> X -> Prop) (p : X -> bool) (l : list X) :
  StronglySorted R l -> StronglySorted R (filter p l).
Proof.
  induction l as [|a l IH]; simpl; intros H; [constructor|].
  inversion H as [|b c Hs Hf]; subst.
  destruct (p a); [constructor; [apply IH, Hs|]|apply IH, Hs].
  rewrite Forall_forall in *; intros y Hy; apply filter_In in Hy; apply Hf; tauto.
Qed.

Lemma ss_map {X Y : Type} (R : X -> X -> Prop) (R' : Y -> Y -> Prop) (f : X -> Y) (l : list X) :
  (forall x y, R x y -> R' (f x) (f y)) -> StronglySorted R l -> StronglySorted R' (map f l).
Proof.
  intros Hm; induction l as [|a l IH]; simpl; intros H; [constructor|].
  inversion H as [|b c Hs Hf]; subst; constructor; [apply IH, Hs|].
  apply Forall_map; eapply Forall_impl; [|exact Hf]; intros y; apply Hm.
Qed.

Lemma ss_seq (a n : nat) : StronglySorted le (seq a n).
Proof.
  revert a; induction n as [|n IH]; intros a; simpl; constructor; [apply IH|].
  apply Forall_forall; intros y Hy; apply in_seq in Hy; lia.
Qed.

Lemma migrate_step_progress base env tm stop meta s i f :
  let s' := migrate_step base env tm stop meta s i f in
  ms_progress s' = ms_progress s \/ ms_progress s' = ms_progress s ++ [S i].
Proof.
  cbv zeta; unfold migrate_step.
  destruct (ms_stopped s || should_stop stop i); [left; reflexivity|].
  destruct (has_completed (ms_committed s) (id f)); [left; reflexivity|].
  destruct tm.
  - destruct (negb true && (i mod 10 =? 0)); right; reflexivity.
  - destruct (_migrate_file env (ms_fs s) f _) as [[|] w'];
      destruct (negb false && (i mod 10 =? 0)); right; reflexivity.
Qed.

Lemma migrate_loop_progress base env tm stop meta : forall l s i,
  StronglySorted lt (ms_progress s) -> Forall (fun y => y <= i) (ms_progress s) ->
  StronglySorted lt (ms_progress (migrate_loop base env tm stop meta s i l)).
Proof.
  induction l as [|f l IH]; intros s i H1 H2; simpl; [exact H1|].
  destruct (migrate_step_progress base env tm stop meta s i f) as [E|E]; apply IH; rewrite E.
  - exact H1.
  - eapply Forall_impl; [|exact H2]; simpl; lia.
  - apply ss_snoc; [exact H1|]; eapply Forall_impl; [|exact H2]; simpl; lia.
  - apply Forall_app; split; [eapply Forall_impl; [|exact H2]; simpl; lia|].
    repeat constructor.
Qed.

Lemma index_file_progress cfg w s p :
  ix_progress (index_file cfg w s p) = ix_progress s
  /\ ix_files_processed s <= ix_files_processed (index_file cfg w s p).
Proof.
  unfold index_file.
  destruct (ix_stopped s || idx_should_stop cfg (ix_seen s)); [simpl; split; [reflexivity|lia]|].
  destruct (in_paths p (ix_processed s)); [simpl; split; [reflexivity|lia]|].
  destruct (existsb _ (ix_catalog s)); [simpl; split; [reflexivity|lia]|].
  destruct (lookup w p) as [d|]; [destruct (stat_error d)|]; simpl; split; (reflexivity || lia).
Qed.

Lemma fold_index_file_progress cfg w : forall b s,
  ix_progress (fold_left (index_file cfg w) b s) = ix_progress s
  /\ ix_files_processed s <= ix_files_processed (fold_left (index_file cfg w) b s).
Proof.
  induction b as [|p b IH]; intros s; simpl; [split; [reflexivity|lia]|].
  destruct (index_file_progress cfg w s p) as [E1 E2].
  destruct (IH (index_file cfg w s p)) as [E3 E4]; split; [congruence|lia].
Qed.

Lemma index_batches_progress cfg w total_files : forall bs s n,
  StronglySorted le (ix_progress s) -> Forall (fun y => y <= ix_files_processed s) (ix_progress s) ->
  StronglySorted le (ix_progress (index_batches cfg w total_files s n bs)).
Proof.
  induction bs as [|b bs IH]; intros s n H1 H2; simpl; [exact H1|].
  destruct (ix_stopped s || idx_should_stop cfg (ix_seen s)); [exact H1|].
  destruct (fold_index_file_progress cfg w b s) as [E1 E2].
  apply IH; simpl; rewrite E1.
  - apply ss_snoc; [exact H1|]; eapply Forall_impl; [|exact H2]; simpl; lia.
  - apply Forall_app; split; [eapply Forall_impl; [|exact H2]; simpl; lia|].
    repeat constructor.
Qed.

(** C9 (as stated): two files with the same hash; duplicate detection
    reports 1 and 2 while grouping, then 0 for the first group analysed. *)
Lemma C9_duplicate_progress_counterexample :
  let '(_, _, prog) := find_duplicates (fun _ => None) ex_dups in
  prog = [1; 2; 0] /\ ~ Sorted le prog.
Proof.
  vm_compute; split; [reflexivity|].
  intros H; inversion H as [|a b H1 H2]; subst.
  inversion H1 as [|a b H3 H4]; subst.
  inversion H4 as [|a b H5]; lia.
Qed.

(** C9 (amended): a migration run reports strictly increasing progress
    values ([i + 1] for the [i]-th selected file not skipped) and an
    indexing run non-decreasing ones ([files_processed] after each batch);
    duplicate detection reports two phases, each non-decreasing on its own:
    grouping ([i + 1] every ten files, then the number of hashed files) and
    analysis ([idx] every ten groups), which starts again at 0 whenever there
    is a group. *)
Theorem C9_progress_amended :
  (forall target_base env test_mode stop_at c w skip_duplicates,
     let '(_, _, _, prog) :=
       migrate_library target_base env test_mode stop_at c w skip_duplicates in
     Sorted lt prog)
  /\ (forall cfg w dir_exists walk cat stored resume,
        match index_directory cfg w dir_exists walk cat stored resume with
        | Some (_, _, _, prog) => Sorted le prog
        | None => True
        end)
  /\ (forall meta fs0,
        let '(_, _, prog) := find_duplicates meta fs0 in
        prog = group_progress fs0 ++ analyze_progress (_group_by_hash fs0)
        /\ Sorted le (group_progress fs0)
        /\ Sorted le (analyze_progress (_group_by_hash fs0))
        /\ match _group_by_hash fs0 with
           | [] => True
           | _ => hd_error (analyze_progress (_group_by_hash fs0)) = Some 0
           end).
Proof.
  split; [|split].
  - intros target_base env test_mode stop_at c w skip; unfold migrate_library.
    apply StronglySorted_Sorted.
    destruct test_mode; simpl; apply migrate_loop_progress; constructor.
  - intros cfg w dir_exists walk cat stored resume; unfold index_directory.
    destruct dir_exists; simpl; [|exact I].
    apply StronglySorted_Sorted, index_batches_progress; constructor.
  - intros meta fs0; unfold find_duplicates; simpl.
    split; [reflexivity|]. split; [|split].
    + apply StronglySorted_Sorted; unfold group_progress.
      apply ss_snoc.
      * apply (ss_map le le S); [intros x y; lia|]. apply ss_filter, ss_seq.
      * apply Forall_forall; intros y Hy.
        apply in_map_iff in Hy as [x [<- Hx]]; apply filter_In in Hx as [Hx _].
        apply in_seq in Hx; lia.
    + apply StronglySorted_Sorted, ss_filter, ss_seq.
    + unfold analyze_progress; destruct (_group_by_hash fs0); [exact I|reflexivity].
Qed.

(* ------------------------------------------------------------------------- *)
(** ** Duplicate groups and their primary *)

Lemma isort_snoc {T : Type} (cmp : T -> T -> comparison) (l : list T) (x : T) :
  isort cmp (l ++ [x]) = insert cmp x (isort cmp l).
Proof. unfold isort; rewrite fold_left_app; reflexivity. Qed.

Lemma insert_perm {T : Type} (cmp : T -> T -> comparison) (x : T) (l : list T) :
  Permutation (insert cmp x l) (x :: l).
Proof.
  induction l as [|y l IH]; simpl; [reflexivity|].
  destruct (cmp x y); [| reflexivity |];
    (etransitivity; [apply perm_skip, IH|apply perm_swap]).
Qed.

Lemma isort_perm {T : Type} (cmp : T -> T -> comparison) (l : list T) :
  Permutation (isort cmp l) l.
Proof.
  induction l as [|x l IH] using rev_ind; [reflexivity|].
  rewrite isort_snoc, insert_perm, IH. apply Permutation_cons_append.
Qed.

(** The head of the stable descending sort is the first element of maximal
    score. *)
Lemma isort_score_desc_head (l : list (File * Z)) :
  l <> [] ->
  exists pre p post,
    l = pre ++ p :: post
    /\ Forall (fun q => (snd q < snd p)%Z) pre
    /\ Forall (fun q => (snd q <= snd p)%Z) l
    /\ hd_error (isort score_desc l) = Some p.
Proof.
  induction l as [|x l IH] using rev_ind; [congruence|intros _].
  assert (Hcase : l = [] \/ l <> []) by (destruct l; [left|right]; congruence).
  destruct Hcase as [->|Hne].
  - exists [], x, []; simpl; repeat constructor; lia.
  - destruct (IH Hne) as (pre & p & post & E & H1 & H2 & H3).
    rewrite isort_snoc.
    destruct (isort score_desc l) as [|p' rest]; [discriminate|].
    injection H3 as H3; subst p'; simpl.
    unfold score_desc at 1; destruct (Z.compare (snd p) (snd x)) eqn:C.
    + apply Z.compare_eq_iff in C.
      exists pre, p, (post ++ [x]); split; [rewrite E, <- app_assoc; reflexivity|].
      split; [exact H1|]. split; [|reflexivity].
      apply Forall_app; split; [exact H2|repeat constructor; lia].
    + rewrite Z.compare_lt_iff in C.
      exists l, x, []; split; [reflexivity|]. split; [|split; [|reflexivity]].
      * eapply Forall_impl; [|exact H2]; simpl; intros; lia.
      * apply Forall_app; split; [eapply Forall_impl; [|exact H2]; simpl; intros; lia|].
        repeat constructor; lia.
    + rewrite Z.compare_gt_iff in C.
      exists pre, p, (post ++ [x]); split; [rewrite E, <- app_assoc; reflexivity|].
      split; [exact H1|]. split; [|reflexivity].
      apply Forall_app; split; [exact H2|repeat constructor; lia].
Qed.

Lemma existsb_eqb_in (h : string) (ks : list string) :
  existsb (fun k => String.eqb k h) ks = true <-> In h ks.
Proof.
  rewrite existsb_exists; split.
  - intros [k [Hk E]]; apply String.eqb_eq in E; subst; exact Hk.
  - intros Hh; exists h; split; [exact Hh|apply String.eqb_refl].
Qed.

Lemma add_to_group_keys (gs : list (string * list File)) (h : string) (f : File) :
  map fst (add_to_group gs h f)
  = if existsb (fun k => String.eqb k h) (map fst gs) then map fst gs else map fst gs ++ [h].
Proof.
  induction gs as [|[k l] gs IH]; simpl; [reflexivity|].
  destruct (String.eqb k h); simpl; [reflexivity|].
  rewrite IH; destruct (existsb _ (map fst gs)); reflexivity.
Qed.

Lemma add_to_group_in (gs : list (string * list File)) (h : string) (f : File) k l :
  NoDup (map fst gs) -> In (k, l) (add_to_group gs h f) ->
  (k <> h /\ In (k, l) gs)
  \/ (k = h /\ ((exists l0, In (h, l0) gs /\ l = l0 ++ [f]) \/ (~ In h (map fst gs) /\ l = [f]))).
Proof.
  induction gs as [|[k0 l0] gs IH]; simpl; intros Hnd Hin.
  - destruct Hin as [E|[]]; injection E as <- <-; right; split; [reflexivity|right; auto].
  - inversion Hnd as [|a b Hn Hnd']; subst.
    destruct (String.eqb k0 h) eqn:Ek.
    + apply String.eqb_eq in Ek; subst k0.
      destruct Hin as [E|Hin].
      * injection E as <- <-; right; split; [reflexivity|left; exists l0; auto].
      * left; split; [|right; exact Hin].
        intros ->; apply Hn; change h with (fst (h, l)); apply in_map, Hin.
    + apply String.eqb_neq in Ek. destruct Hin as [E|Hin].
      * injection E as <- <-; left; auto.
      * destruct (IH Hnd' Hin) as [[H1 H2]|[H1 [[l1 [H2 H3]]|[H2 H3]]]].
        -- left; auto.
        -- right; split; [exact H1|left; exists l1; auto].
        -- right; split; [exact H1|right; split; [|exact H3]].
           intros [E|E]; [congruence|contradiction].
Qed.

Lemma group_inv_step (pre : list File) (gs : list (string * list File)) (f : File) :
  group_inv pre gs ->
  group_inv (pre ++ [f]) (match file_hash f with Some h => add_to_group gs h f | None => gs end).
Proof.
  intros (Hnd & Hg & Hk).
  destruct (file_hash f) as [h|] eqn:Hf.
  - assert (Hkeys : forall x, In x (map fst gs) -> In x (map fst (add_to_group gs h f))).
    { intros x Hx; rewrite add_to_group_keys; destruct (existsb _ _); [exact Hx|].
      apply in_or_app; left; exact Hx. }
    assert (Hh : In h (map fst (add_to_group gs h f))).
    { rewrite add_to_group_keys; destruct (existsb _ _) eqn:E.
      - apply existsb_eqb_in, E.
      - apply in_or_app; right; left; reflexivity. }
    split; [|split].
    + rewrite add_to_group_keys; destruct (existsb _ _) eqn:E; [exact Hnd|].
      apply (Permutation_NoDup (Permutation_cons_append _ _)); constructor; [|exact Hnd].
      intros Hin; apply existsb_eqb_in in Hin; congruence.
    + intros k l Hin; rewrite filter_app; simpl; unfold has_hash at 2; rewrite Hf.
      destruct (add_to_group_in gs h f k l Hnd Hin) as [[H1 H2]|[-> [[l0 [H2 H3]]|[H2 H3]]]].
      * apply String.eqb_neq in H1; rewrite String.eqb_sym, H1, app_nil_r; apply Hg, H2.
      * rewrite String.eqb_refl, H3, (Hg h l0 H2); reflexivity.
      * rewrite String.eqb_refl, H3.
        destruct (filter (has_hash h) pre) as [|g r] eqn:Ef; [reflexivity|exfalso].
        assert (Hg' : In g (filter (has_hash h) pre)) by (rewrite Ef; left; reflexivity).
        apply filter_In in Hg' as [Hg1 Hg2]; unfold has_hash in Hg2.
        destruct (file_hash g) as [h'|] eqn:Eg; [|discriminate].
        apply String.eqb_eq in Hg2; subst h'. apply H2, (Hk g h Hg1 Eg).
    + intros g h' Hin Eg; apply in_app_or in Hin as [Hin|[<-|[]]].
      * apply Hkeys, (Hk g h' Hin Eg).
      * rewrite Hf in Eg; injection Eg as <-; exact Hh.
  - split; [exact Hnd|split].
    + intros k l Hin; rewrite filter_app; simpl; unfold has_hash at 2; rewrite Hf, app_nil_r.
      apply Hg, Hin.
    + intros g h' Hin Eg; apply in_app_or in Hin as [Hin|[<-|[]]]; [apply (Hk g h' Hin Eg)|].
      congruence.
Qed.

Lemma group_inv_fold : forall (fs0 pre : list File) (gs : list (string * list File)),
  group_inv pre gs ->
  group_inv (pre ++ fs0)
    (fold_left (fun gs f => match file_hash f with
                            | Some h => add_to_group gs h f
                            | None => gs end) fs0 gs).
Proof.
  induction fs0 as [|f fs0 IH]; intros pre gs H; simpl; [rewrite app_nil_r; exact H|].
  replace (pre ++ f :: fs0) with ((pre ++ [f]) ++ fs0) by (rewrite <- app_assoc; reflexivity).
  apply IH, group_inv_step, H.
Qed.

Lemma group_by_hash_in (fs0 : list File) (k : string) (l : list File) :
  In (k, l) (_group_by_hash fs0) -> l = filter (has_hash k) fs0 /\ 1 < List.length l.
Proof.
  unfold _group_by_hash; intros Hin; apply filter_In in Hin as [Hin Hl].
  apply Nat.ltb_lt in Hl; split; [|exact Hl].
  destruct (group_inv_fold fs0 [] []) as (_ & Hg & _).
  - split; [constructor|split; [intros k' l' []|intros g h' []]].
  - apply Hg, Hin.
Qed.

Lemma map_fst_combine_seq {X : Type} : forall (l : list X) (a : nat),
  map fst (combine (seq a (List.length l)) l) = seq a (List.length l).
Proof. induction l as [|x l IH]; intros a; simpl; [reflexivity|rewrite IH; reflexivity]. Qed.

Lemma analyze_ids meta hg :
  map dg_id (_analyze_duplicate_groups meta hg) = seq 0 (List.length hg).
Proof.
  unfold _analyze_duplicate_groups; rewrite map_map.
  transitivity (map fst (combine (seq 0 (List.length hg)) hg));
    [apply map_ext; intros [i [k m]]; reflexivity|apply map_fst_combine_seq].
Qed.

Lemma analyze_in meta hg dg :
  In dg (_analyze_duplicate_groups meta hg) ->
  exists k members, In (k, members) hg
    /\ dg_files dg = isort score_desc (map (fun f => (f, _calculate_quality_score meta f)) members)
    /\ dg_primary_id dg = match dg_files dg with (f, _) :: _ => id f | [] => 0 end.
Proof.
  unfold _analyze_duplicate_groups; intros Hin.
  apply in_map_iff in Hin as [[i [k m]] [<- Hin]].
  exists k, m; split; [apply in_combine_r in Hin; exact Hin|split; reflexivity].
Qed.

Lemma save_cons (dg : dup_group) (gs : list dup_group) :
  _save_duplicate_groups (dg :: gs) = _save_duplicate_groups [dg] ++ _save_duplicate_groups gs.
Proof. unfold _save_duplicate_groups; simpl; rewrite app_nil_r; reflexivity. Qed.

Lemma save_one_rows (dg : dup_group) :
  map dup_file_id (_save_duplicate_groups [dg]) = map (fun x => id (fst x)) (dg_files dg)
  /\ (forall r, In r (_save_duplicate_groups [dg]) ->
        exists x, In x (dg_files dg) /\ group_id r = dg_id dg /\ dup_file_id r = id (fst x)
                  /\ is_primary r = (id (fst x) =? dg_primary_id dg)
                  /\ quality_score r = snd x)
  /\ List.length (filter is_primary (_save_duplicate_groups [dg]))
     = List.length (filter (fun x => id (fst x) =? dg_primary_id dg) (dg_files dg)).
Proof.
  unfold _save_duplicate_groups; simpl; rewrite app_nil_r.
  induction (dg_files dg) as [|[f sc] r IH]; simpl; [repeat split; intros ? []|].
  destruct IH as (H1 & H2 & H3); split; [rewrite H1; reflexivity|split].
  - intros x [<-|Hx]; [exists (f, sc); simpl; auto 6|].
    destruct (H2 x Hx) as [y [Hy Hr]]; exists y; auto.
  - destruct (id f =? dg_primary_id dg); simpl; rewrite H3; reflexivity.
Qed.

Lemma save_filter_none (gs : list dup_group) (g : nat) :
  (forall dg, In dg gs -> dg_id dg <> g) ->
  filter (fun d => group_id d =? g) (_save_duplicate_groups gs) = [].
Proof.
  intros H.
  destruct (filter _ _) as [|r rs] eqn:E; [reflexivity|exfalso].
  assert (Hr : In r (filter (fun d => group_id d =? g) (_save_duplicate_groups gs)))
    by (rewrite E; left; reflexivity).
  apply filter_In in Hr as [Hr Eg]; apply Nat.eqb_eq in Eg.
  unfold _save_duplicate_groups in Hr; apply in_flat_map in Hr as [dg [Hdg Hr]].
  destruct (proj1 (proj2 (save_one_rows dg)) r) as [x [_ [Hg _]]].
  - unfold _save_duplicate_groups; simpl; rewrite app_nil_r; exact Hr.
  - apply (H dg Hdg); congruence.
Qed.

Lemma filter_all_true {X : Type} (p : X -> bool) (l : list X) :
  (forall x, In x l -> p x = true) -> filter p l = l.
Proof.
  induction l as [|x l IH]; simpl; intros H; [reflexivity|].
  rewrite H by (left; reflexivity); rewrite IH; [reflexivity|intros y Hy; apply H; right; exact Hy].
Qed.

Lemma save_filter_group (gs : list dup_group) (dg : dup_group) :
  NoDup (map dg_id gs) -> In dg gs ->
  filter (fun d => group_id d =? dg_id dg) (_save_duplicate_groups gs)
  = _save_duplicate_groups [dg].
Proof.
  induction gs as [|dg0 gs IH]; [intros _ []|].
  intros Hnd Hin; inversion Hnd as [|a b Hn Hnd']; subst.
  rewrite save_cons, filter_app.
  destruct Hin as [<-|Hin].
  - rewrite filter_all_true, save_filter_none, app_nil_r; [reflexivity| |].
    + intros d Hd E; apply Hn; rewrite <- E; apply in_map, Hd.
    + intros r Hr; apply Nat.eqb_eq.
      destruct (proj1 (proj2 (save_one_rows dg0)) r Hr) as [x [_ [Hg _]]]; exact Hg.
  - rewrite (IH Hnd' Hin), save_filter_none; [reflexivity|].
    intros d [<-|[]] E; apply Hn; rewrite E; apply in_map, Hin.
Qed.

Lemma count_eqb_one (l : list nat) (x : nat) :
  NoDup l -> In x l -> List.length (filter (fun y => y =? x) l) = 1.
Proof.
  induction l as [|y l IH]; simpl; [tauto|].
  intros Hnd Hin; inversion Hnd as [|a b Hn Hnd']; subst.
  destruct Hin as [<-|Hin].
  - rewrite Nat.eqb_refl; simpl; f_equal.
    destruct (filter (fun z => z =? y) l) as [|z r] eqn:E; [reflexivity|exfalso].
    assert (Hz : In z (filter (fun z => z =? y) l)) by (rewrite E; left; reflexivity).
    apply filter_In in Hz as [Hz Ez]; apply Nat.eqb_eq in Ez; subst; contradiction.
  - destruct (y =? x) eqn:E; [apply Nat.eqb_eq in E; subst; contradiction|].
    apply IH; assumption.
Qed.

Lemma perm_filter_length {X : Type} (p : X -> bool) (l l' : list X) :
  Permutation l l' -> List.length (filter p l) = List.length (filter p l').
Proof.
  induction 1; simpl; try lia.
  - destruct (p x); simpl; lia.
  - destruct (p x), (p y); simpl; lia.
Qed.

Lemma filter_map_length {X Y : Type} (p : Y -> bool) (f : X -> Y) (l : list X) :
  List.length (filter p (map f l)) = List.length (filter (fun x => p (f x)) l).
Proof. induction l as [|x l IH]; simpl; [reflexivity|]; destruct (p (f x)); simpl; lia. Qed.

(** C3: for a catalog with distinct file ids, every group [g] of the new
    [duplicates] table consists of the files sharing a partial hash [h]
    (in catalog order, at least two of them) and has exactly one primary
    row; the primary is the file [p] of maximal quality score that comes
    first: every member before it scores strictly less. Each row carries
    the score of its file. *)
Theorem C3_primary_is_first_maximal (meta : nat -> option Metadata) (fs0 : list File) (g : nat) :
  NoDup (map id fs0) ->
  let '(_, rows, _) := find_duplicates meta fs0 in
  filter (fun d => group_id d =? g) rows <> [] ->
  exists h members pre p post,
    members = filter (has_hash h) fs0 /\ 1 < List.length members
    /\ members = pre ++ p :: post
    /\ Forall (fun q => (_calculate_quality_score meta q < _calculate_quality_score meta p)%Z) pre
    /\ Forall (fun q => (_calculate_quality_score meta q <= _calculate_quality_score meta p)%Z)
              members
    /\ Permutation (map dup_file_id (filter (fun d => group_id d =? g) rows)) (map id members)
    /\ (forall r, In r (filter (fun d => group_id d =? g) rows) ->
                  is_primary r = true <-> dup_file_id r = id p)
    /\ List.length (filter is_primary (filter (fun d => group_id d =? g) rows)) = 1
    /\ (forall r, In r (filter (fun d => group_id d =? g) rows) ->
                  exists f, In f members /\ dup_file_id r = id f
                            /\ quality_score r = _calculate_quality_score meta f).
Proof.
  intros Hnd; unfold find_duplicates; cbv beta zeta iota.
  set (gs := _analyze_duplicate_groups meta (_group_by_hash fs0)).
  intros Hne.
  destruct (existsb (fun dg => dg_id dg =? g) gs) eqn:Ex.
  2:{ exfalso; apply Hne, save_filter_none; intros dg Hdg E.
      apply not_true_iff_false in Ex; apply Ex, existsb_exists; exists dg.
      split; [exact Hdg|apply Nat.eqb_eq, E]. }
  apply existsb_exists in Ex as [dg [Hdg Eg]]; apply Nat.eqb_eq in Eg; subst g.
  assert (Hgs : NoDup (map dg_id gs)) by (unfold gs; rewrite analyze_ids; apply seq_NoDup).
  rewrite (save_filter_group gs dg Hgs Hdg) in *.
  destruct (analyze_in meta _ dg Hdg) as (h & members & Hin & Hfiles & Hprim).
  destruct (group_by_hash_in fs0 h members Hin) as [Hmem Hlen].
  set (sc := fun f => (f, _calculate_quality_score meta f)).
  assert (Hsne : map sc members <> []) by (destruct members as [|? ?]; simpl in *; [lia|discriminate]).
  destruct (isort_score_desc_head (map sc members) Hsne) as (pre' & p' & post' & E & H1 & H2 & H3).
  apply map_eq_app in E as (pre & rest & -> & Hpre & Hrest).
  apply map_eq_cons in Hrest as (p & post & -> & Hp & Hpost).
  subst pre' p' post'.
  assert (Hpid : dg_primary_id dg = id p).
  { rewrite Hprim, Hfiles. destruct (isort score_desc _) as [|x r]; [discriminate|].
    injection H3 as ->; reflexivity. }
  assert (Hnd' : NoDup (map id (pre ++ p :: post))) by (rewrite Hmem; apply nodup_map_filter, Hnd).
  destruct (save_one_rows dg) as (R1 & R2 & R3).
  exists h, (pre ++ p :: post), pre, p, post.
  split; [exact Hmem|]. split; [exact Hlen|]. split; [reflexivity|].
  split; [apply Forall_forall; intros q Hq; rewrite Forall_forall in H1;
          apply (H1 (sc q)), in_map, Hq|].
  split; [apply Forall_forall; intros q Hq; rewrite Forall_forall in H2;
          apply (H2 (sc q)), in_map, Hq|].
  split; [|split; [|split]].
  - rewrite R1, Hfiles.
    replace (map id (pre ++ p :: post)) with (map (fun x => id (fst x)) (map sc (pre ++ p :: post)))
      by (rewrite map_map; reflexivity).
    apply Permutation_map, isort_perm.
  - intros r Hr; destruct (R2 r Hr) as (x & _ & _ & Ed & Ep & _).
    rewrite Ep, <- Ed, Hpid; apply Nat.eqb_eq.
  - rewrite R3, Hpid, <- (filter_map_length (fun y => y =? id p) (fun x => id (fst x))), Hfiles.
    rewrite (perm_filter_length _ _ (map (fun x => id (fst x)) (map sc (pre ++ p :: post))))
      by (apply Permutation_map, isort_perm).
    rewrite map_map; apply count_eqb_one; [exact Hnd'|].
    apply (in_map id); apply in_or_app; right; left; reflexivity.
  - intros r Hr; destruct (R2 r Hr) as (x & Hx & _ & Ed & _ & Eq).
    rewrite Hfiles in Hx; apply (Permutation_in _ (isort_perm _ _)) in Hx.
    apply in_map_iff in Hx as [f [<- Hf]]. exists f; auto.
Qed.

Lemma C3_primary_is_first_maximal_witness :
  let '(_, rows, _) := find_duplicates (fun _ => None) ex_dups in
  List.length (filter is_primary (filter (fun d => group_id d =? 0) rows)) = 1.
Proof.
  pose proof (C3_primary_is_first_maximal (fun _ => None) ex_dups 0) as H.
  assert (Hnd : NoDup (map id ex_dups)) by (simpl; constructor; [simpl; lia|constructor; [simpl; tauto|constructor]]).
  specialize (H Hnd).
  destruct (find_duplicates (fun _ => None) ex_dups) as [[st rows] prog] eqn:E.
  assert (Hne : filter (fun d => group_id d =? 0) rows <> []).
  { apply (f_equal (fun x => snd (fst x))) in E; vm_compute in E; rewrite <- E.
    vm_compute; discriminate. }
  destruct (H Hne) as (h & members & pre & p & post & _ & _ & _ & _ & _ & _ & _ & Hone & _).
  exact Hone.
Defined.

(* ------------------------------------------------------------------------- *)
(** ** The walker *)

Lemma string_compare_refl (s : string) : String.compare s s = Eq.
Proof.
  induction s as [|c s IH]; simpl; [reflexivity|].
  unfold Ascii.compare; rewrite N.compare_refl; exact IH.
Qed.

Lemma string_compare_lt_trans (a b c : string) :
  String.compare a b = Lt -> String.compare b c = Lt -> String.compare a c = Lt.
Proof.
  revert b c; induction a as [|x a IH]; intros [|y b] [|z c]; simpl;
    try discriminate; try reflexivity.
  unfold Ascii.compare.
  destruct (N.compare_spec (N_of_ascii x) (N_of_ascii y)) as [Exy|Exy|Exy];
  destruct (N.compare_spec (N_of_ascii y) (N_of_ascii z)) as [Eyz|Eyz|Eyz];
    try discriminate; intros H1 H2.
  - rewrite Exy, Eyz, N.compare_refl; apply (IH b c H1 H2).
  - rewrite Exy, (proj2 (N.compare_lt_iff _ _) Eyz); reflexivity.
  - rewrite <- Eyz, (proj2 (N.compare_lt_iff _ _) Exy); reflexivity.
  - rewrite (proj2 (N.compare_lt_iff _ _) (N.lt_trans _ _ _ Exy Eyz)); reflexivity.
Qed.

Lemma string_compare_le_trans (a b c : string) :
  String.compare a b <> Gt -> String.compare b c <> Gt -> String.compare a c <> Gt.
Proof.
  destruct (String.compare a b) eqn:E1; intros H1; [|clear H1|congruence];
  destruct (String.compare b c) eqn:E2; intros H2; try congruence.
  - apply String.compare_eq_iff in E1; subst; rewrite E2; discriminate.
  - apply String.compare_eq_iff in E1; subst; rewrite E2; discriminate.
  - apply String.compare_eq_iff in E2; subst; rewrite E1; discriminate.
  - rewrite (string_compare_lt_trans a b c E1 E2); discriminate.
Qed.

Lemma path_compare_antisym (p q : path) : path_compare q p = CompOpp (path_compare p q).
Proof.
  revert q; induction p as [|a p IH]; intros [|b q]; simpl; try reflexivity.
  rewrite (String.compare_antisym b a).
  destruct (String.compare a b); simpl; [apply IH|reflexivity|reflexivity].
Qed.

Lemma path_compare_eq_iff (p q : path) : path_compare p q = Eq <-> p = q.
Proof.
  revert q; induction p as [|a p IH]; intros [|b q]; simpl;
    try (split; congruence).
  destruct (String.compare a b) eqn:E.
  - apply String.compare_eq_iff in E; subst; rewrite IH; split; congruence.
  - split; [discriminate|intros H; injection H as -> ->; rewrite string_compare_refl in E; discriminate].
  - split; [discriminate|intros H; injection H as -> ->; rewrite string_compare_refl in E; discriminate].
Qed.

Lemma path_compare_lt_trans (p q r : path) :
  path_compare p q = Lt -> path_compare q r = Lt -> path_compare p r = Lt.
Proof.
  revert q r; induction p as [|a p IH]; intros [|b q] [|c r]; simpl;
    try discriminate; try reflexivity.
  destruct (String.compare a b) eqn:Eab; destruct (String.compare b c) eqn:Ebc;
    try discriminate; intros H1 H2.
  - apply String.compare_eq_iff in Eab, Ebc; subst; rewrite string_compare_refl; eauto.
  - apply String.compare_eq_iff in Eab; subst; rewrite Ebc; reflexivity.
  - apply String.compare_eq_iff in Ebc; subst; rewrite Eab; reflexivity.
  - rewrite (string_compare_lt_trans a b c Eab Ebc); reflexivity.
Qed.

Lemma path_compare_le_trans (p q r : path) :
  path_compare p q <> Gt -> path_compare q r <> Gt -> path_compare p r <> Gt.
Proof.
  destruct (path_compare p q) eqn:E1; intros H1; [|clear H1|congruence];
  destruct (path_compare q r) eqn:E2; intros H2; try congruence.
  - apply path_compare_eq_iff in E1; subst; rewrite E2; discriminate.
  - apply path_compare_eq_iff in E1; subst; rewrite E2; discriminate.
  - apply path_compare_eq_iff in E2; subst; rewrite E1; discriminate.
  - rewrite (path_compare_lt_trans p q r E1 E2); discriminate.
Qed.

Lemma path_compare_snoc (r : path) (f1 f2 : string) :
  path_compare (r ++ [f1]) (r ++ [f2]) = String.compare f1 f2.
Proof.
  induction r as [|a r IH]; simpl.
  - destruct (String.compare f1 f2); reflexivity.
  - rewrite string_compare_refl; exact IH.
Qed.

Lemma parent_snoc (r : path) (f : string) : parent (r ++ [f]) = r.
Proof. unfold parent; apply removelast_last. Qed.

Lemma name_snoc (r : path) (f : string) : name (r ++ [f]) = f.
Proof. unfold name; apply last_last. Qed.

Section InsertSorted.
Variable T : Type.
Variable cmp : T -> T -> comparison.
Hypothesis cmp_antisym : forall a b, cmp b a = CompOpp (cmp a b).
Hypothesis cmp_le_trans : forall a b c, cmp a b <> Gt -> cmp b c <> Gt -> cmp a c <> Gt.

Lemma insert_sorted (x : T) (l : list T) :
  StronglySorted (fun a b => cmp a b <> Gt) l ->
  StronglySorted (fun a b => cmp a b <> Gt) (insert cmp x l).
Proof.
  induction l as [|y l IH]; simpl; intros H.
  - repeat constructor.
  - inversion H as [|a b Hs Hf]; subst.
    destruct (cmp x y) eqn:E.
    + constructor; [exact (IH Hs)|].
      apply (Permutation_Forall (Permutation_sym (insert_perm cmp x l))).
      constructor; [|exact Hf].
      rewrite cmp_antisym, E; discriminate.
    + constructor; [exact H|]. constructor; [rewrite E; discriminate|].
      eapply Forall_impl; [|exact Hf]; intros z Hz.
      apply (cmp_le_trans x y z); [rewrite E; discriminate|exact Hz].
    + constructor; [exact (IH Hs)|].
      apply (Permutation_Forall (Permutation_sym (insert_perm cmp x l))).
      constructor; [|exact Hf].
      rewrite cmp_antisym, E; discriminate.
Qed.

Lemma isort_sorted (l : list T) : StronglySorted (fun a b => cmp a b <> Gt) (isort cmp l).
Proof.
  induction l as [|x l IH] using rev_ind; [constructor|].
  rewrite isort_snoc; apply insert_sorted, IH.
Qed.

End InsertSorted.


Lemma add_to_bucket_keys (bs : list (path * list path)) (root fp k : path) :
  In k (map fst (add_to_bucket bs root fp)) -> In k (map fst bs) \/ k = root.
Proof.
  induction bs as [|[r l] rest IH]; simpl; [intros [->|[]]; right; reflexivity|].
  destruct (path_eqb r root); simpl; [tauto|].
  intros [->|H]; [tauto|]. destruct (IH H); tauto.
Qed.

Lemma add_to_bucket_elems (bs : list (path * list path)) (root fp r : path) (l : list path) (x : path) :
  In (r, l) (add_to_bucket bs root fp) -> In x l ->
  (exists l0, In (r, l0) bs /\ In x l0) \/ (r = root /\ x = fp).
Proof.
  induction bs as [|[q l0] rest IH]; simpl.
  - intros [H|[]] Hx; injection H as <- <-; destruct Hx as [<-|[]]; tauto.
  - destruct (path_eqb q root) eqn:E; simpl.
    + intros [H|H] Hx.
      * injection H as <- <-. apply in_app_or in Hx as [Hx|[<-|[]]].
        -- left; exists l0; tauto.
        -- apply path_eqb_spec in E; tauto.
      * left; exists l; tauto.
    + intros [H|H] Hx.
      * injection H as <- <-; left; exists l0; tauto.
      * destruct (IH H Hx) as [(l1 & H1 & H2)|]; [left; exists l1|]; tauto.
Qed.

Lemma add_to_bucket_inv (bs : list (path * list path)) (root : path) (f : string) :
  buckets_inv bs -> buckets_inv (add_to_bucket bs root (root ++ [f])).
Proof.
  intros [Hnd Hel]; split.
  - clear Hel; induction bs as [|[r l] rest IH]; simpl in *; [repeat constructor; simpl; tauto|].
    inversion Hnd as [|a b Hn Hnd']; subst.
    destruct (path_eqb r root) eqn:E; simpl; constructor; auto.
    intros Hk; apply add_to_bucket_keys in Hk as [Hk|Hk]; [contradiction|].
    subst; rewrite path_eqb_refl in E; discriminate.
  - intros r l x H Hx. destruct (add_to_bucket_elems bs root _ r l x H Hx) as [(l0 & H1 & H2)|[-> ->]].
    + exact (Hel r l0 x H1 H2).
    + exists f; reflexivity.
Qed.

Lemma add_to_bucket_perm (bs : list (path * list path)) (root fp : path) :
  Permutation (flat_map snd (add_to_bucket bs root fp)) (flat_map snd bs ++ [fp]).
Proof.
  induction bs as [|[r l] rest IH]; simpl; [reflexivity|].
  destruct (path_eqb r root); simpl.
  - rewrite <- !app_assoc; apply Permutation_app_head, Permutation_app_comm.
  - rewrite <- app_assoc; apply Permutation_app_head, IH.
Qed.

Lemma collect_entry_spec (acc : list (path * list path)) (e : walk_entry) :
  buckets_inv acc ->
  buckets_inv (collect_entry acc e)
  /\ Permutation (flat_map snd (collect_entry acc e))
                 (flat_map snd acc ++ map (fun f => fst e ++ [f]) (filter is_audio (snd e))).
Proof.
  destruct e as [root files]; unfold collect_entry; simpl.
  revert acc; induction files as [|f files IH]; intros acc Hinv; simpl.
  - rewrite app_nil_r; split; [exact Hinv|reflexivity].
  - destruct (is_audio f); simpl.
    + destruct (IH _ (add_to_bucket_inv acc root f Hinv)) as [H1 H2]; split; [exact H1|].
      rewrite H2, add_to_bucket_perm, <- app_assoc; reflexivity.
    + exact (IH acc Hinv).
Qed.

Lemma collect_spec (w : list walk_entry) :
  buckets_inv (collect w) /\ Permutation (flat_map snd (collect w)) (walk_audio_files w).
Proof.
  unfold collect, walk_audio_files.
  assert (H : forall acc, buckets_inv acc ->
            buckets_inv (fold_left collect_entry w acc)
            /\ Permutation (flat_map snd (fold_left collect_entry w acc))
                           (flat_map snd acc
                            ++ flat_map (fun e => map (fun f => fst e ++ [f])
                                                      (filter is_audio (snd e))) w)).
  { induction w as [|e w IH]; intros acc Hinv; simpl.
    - rewrite app_nil_r; split; [exact Hinv|reflexivity].
    - destruct (collect_entry_spec acc e Hinv) as [H1 H2].
      destruct (IH _ H1) as [H3 H4]; split; [exact H3|].
      rewrite H4, H2, <- app_assoc; reflexivity. }
  apply H; split; [constructor|simpl; tauto].
Qed.

Lemma bucket_in (bs : list (path * list path)) (d x : path) :
  In x (bucket bs d) -> exists l, In (d, l) bs /\ In x l.
Proof.
  induction bs as [|[r l] rest IH]; simpl; [tauto|].
  destruct (path_eqb r d) eqn:E.
  - apply path_eqb_spec in E; subst; intros H; exists l; tauto.
  - intros H; destruct (IH H) as (l' & H1 & H2); exists l'; tauto.
Qed.

Lemma flat_map_bucket_keys (bs : list (path * list path)) :
  NoDup (map fst bs) -> flat_map (bucket bs) (map fst bs) = flat_map snd bs.
Proof.
  induction bs as [|[r l] rest IH]; simpl; [reflexivity|]; intros Hnd.
  inversion Hnd as [|a b Hn Hnd']; subst.
  rewrite path_eqb_refl; f_equal. rewrite <- (IH Hnd').
  clear IH Hnd Hnd'; induction (map fst rest) as [|k ks IHk]; simpl; [reflexivity|].
  rewrite path_eqb_neq by (intros ->; apply Hn; left; reflexivity).
  f_equal; apply IHk; intros H; apply Hn; right; exact H.
Qed.

Lemma perm_flat_map {X Y : Type} (f : X -> list Y) (l l' : list X) :
  Permutation l l' -> Permutation (flat_map f l) (flat_map f l').
Proof.
  induction 1; simpl.
  - reflexivity.
  - apply Permutation_app_head; assumption.
  - rewrite !app_assoc; apply Permutation_app_tail, Permutation_app_comm.
  - etransitivity; eassumption.
Qed.

Lemma perm_flat_map_pointwise {X Y : Type} (f g : X -> list Y) (l : list X) :
  (forall x, Permutation (f x) (g x)) -> Permutation (flat_map f l) (flat_map g l).
Proof. intros H; induction l as [|x l IH]; simpl; [reflexivity|]; apply Permutation_app; auto. Qed.

Lemma ss_app {X : Type} (R : X -> X -> Prop) (l1 l2 : list X) :
  StronglySorted R l1 -> StronglySorted R l2 ->
  (forall a b, In a l1 -> In b l2 -> R a b) -> StronglySorted R (l1 ++ l2).
Proof.
  induction l1 as [|a l1 IH]; simpl; intros H1 H2 H; [exact H2|].
  inversion H1 as [|c d Hs Hf]; subst. constructor; [apply IH; auto|].
  apply Forall_app; split; [exact Hf|]. apply Forall_forall; intros b Hb; auto.
Qed.

Lemma ss_flat_map {X Y : Type} (Q : X -> X -> Prop) (R : Y -> Y -> Prop) (f : X -> list Y) (l : list X) :
  StronglySorted Q l -> (forall x, In x l -> StronglySorted R (f x)) ->
  (forall x y a b, Q x y -> In a (f x) -> In b (f y) -> R a b) ->
  StronglySorted R (flat_map f l).
Proof.
  induction 1 as [|x l Hs IH Hf]; simpl; intros Hin Hq; [constructor|].
  apply ss_app; [apply Hin; left; reflexivity|apply IH; auto|].
  intros a b Ha Hb; apply in_flat_map in Hb as (y & Hy & Hb).
  rewrite Forall_forall in Hf; exact (Hq x y a b (Hf y Hy) Ha Hb).
Qed.

Lemma ss_nodup_strict {X : Type} (R : X -> X -> Prop) (l : list X) :
  StronglySorted R l -> NoDup l -> StronglySorted (fun a b => R a b /\ a <> b) l.
Proof.
  induction 1 as [|x l Hs IH Hf]; intros Hnd; constructor.
  - inversion Hnd; auto.
  - inversion Hnd as [|c d Hn Hnd']; subst.
    rewrite Forall_forall in *; intros y Hy; split; [auto|intros ->; contradiction].
Qed.

(** C8: the walker emits exactly the audio files of the listing (as a
    multiset, that is each file of the walk with an audio suffix, once per
    listing), and in walk order: directories in lexicographic order of their
    parts, and by name within a directory. *)
Theorem C8_walker_output_and_order (w : list walk_entry) :
  Permutation (get_files_sorted_by_location w) (walk_audio_files w)
  /\ StronglySorted walk_order (get_files_sorted_by_location w).
Proof.
  destruct (collect_spec w) as [[Hnd Hel] Hperm].
  unfold get_files_sorted_by_location; split.
  - rewrite (perm_flat_map_pointwise _ (bucket (collect w)) _ (fun d => isort_perm path_compare _)).
    rewrite (perm_flat_map _ _ _ (isort_perm path_compare _)), flat_map_bucket_keys by exact Hnd.
    exact Hperm.
  - apply (ss_flat_map (fun a b => path_compare a b <> Gt /\ a <> b)).
    + apply ss_nodup_strict; [apply isort_sorted; [apply path_compare_antisym|apply path_compare_le_trans]|].
      apply (Permutation_NoDup (Permutation_sym (isort_perm path_compare _))), Hnd.
    + intros d _.
      assert (Hs := isort_sorted _ path_compare path_compare_antisym path_compare_le_trans
                                 (bucket (collect w) d)).
      assert (Hform : forall x, In x (isort path_compare (bucket (collect w) d)) ->
                                exists f, x = d ++ [f]).
      { intros x Hx; apply (Permutation_in _ (isort_perm _ _)), bucket_in in Hx as (l & H1 & H2).
        exact (Hel d l x H1 H2). }
      revert Hs Hform; generalize (isort path_compare (bucket (collect w) d)).
      induction 1 as [|x l Hs IH Hf]; intros Hform; constructor.
      * apply IH; intros y Hy; apply Hform; right; exact Hy.
      * rewrite Forall_forall in *; intros y Hy.
        destruct (Hform x (or_introl eq_refl)) as [f1 ->].
        destruct (Hform y (or_intror Hy)) as [f2 ->].
        right; rewrite !parent_snoc, !name_snoc, <- (path_compare_snoc d); split; [reflexivity|].
        exact (Hf _ Hy).
    + intros x y a b [Hxy Hne] Ha Hb.
      apply (Permutation_in _ (isort_perm _ _)), bucket_in in Ha as (l1 & H1 & H2).
      apply (Permutation_in _ (isort_perm _ _)), bucket_in in Hb as (l2 & H3 & H4).
      destruct (Hel x l1 a H1 H2) as [f1 ->]; destruct (Hel y l2 b H3 H4) as [f2 ->].
      left; rewrite !parent_snoc.
      destruct (path_compare x y) eqn:E; [apply path_compare_eq_iff in E; contradiction|reflexivity|contradiction].
Qed.

(* ========================================================================= *)
(** * Further properties of the code *)

(* ------------------------------------------------------------------------- *)
(** ** Batching ([batch_files]) *)

Lemma batch_files_aux_shape (size : nat) : forall l cur,
  List.length cur < Nat.max 1 size ->
  Forall (fun b => b <> [] /\ List.length b <= Nat.max 1 size) (batch_files_aux size cur l)
  /\ Forall (fun b => List.length b = Nat.max 1 size) (removelast (batch_files_aux size cur l)).
Proof.
  assert (Hm : 1 <= Nat.max 1 size /\ size <= Nat.max 1 size
               /\ (Nat.max 1 size = 1 \/ Nat.max 1 size = size))
    by (destruct (Nat.max_spec 1 size) as [[? ->]|[? ->]]; lia).
  set (m := Nat.max 1 size) in *; clearbody m.
  induction l as [|x l IH]; intros cur Hc; simpl.
  - destruct cur as [|y cur]; [split; constructor|].
    split; [constructor; [split; [discriminate|lia]|constructor]|constructor].
  - rewrite length_app; simpl.
    destruct (size <=? List.length cur + 1) eqn:E.
    + apply Nat.leb_le in E.
      destruct (IH [] ltac:(simpl; lia)) as [H1 H2]; split.
      * constructor; [|exact H1]. split; [destruct cur; discriminate|rewrite length_app; simpl; lia].
      * destruct (batch_files_aux size [] l) as [|b bs] eqn:Eb; [constructor|].
        change (removelast ((cur ++ [x]) :: b :: bs)) with ((cur ++ [x]) :: removelast (b :: bs)).
        constructor; [rewrite length_app; simpl; lia|exact H2].
    + apply Nat.leb_gt in E. apply IH. rewrite length_app; simpl; lia.
Qed.

(** [batch_files(files, batch_size)] cuts the file sequence into consecutive
    non-empty batches, in order and without loss; every batch but the last
    has exactly [max 1 batch_size] files, and the last at most that many. *)
Theorem batch_files_partition (l : list path) (batch_size : nat) :
  List.concat (batch_files l batch_size) = l
  /\ Forall (fun b => b <> [] /\ List.length b <= Nat.max 1 batch_size) (batch_files l batch_size)
  /\ Forall (fun b => List.length b = Nat.max 1 batch_size) (removelast (batch_files l batch_size)).
Proof.
  split; [apply concat_batch_files|]. apply batch_files_aux_shape; apply Nat.le_max_l.
Qed.

(* ------------------------------------------------------------------------- *)
(** ** The estimate and the walker ([estimate_file_count]) *)

Lemma walker_perm (w : list walk_entry) :
  Permutation (get_files_sorted_by_location w) (walk_audio_files w).
Proof.
  destruct (collect_spec w) as [[Hnd _] Hperm]. unfold get_files_sorted_by_location.
  rewrite (perm_flat_map_pointwise _ (bucket (collect w)) _ (fun d => isort_perm path_compare _)).
  rewrite (perm_flat_map _ _ _ (isort_perm path_compare _)), flat_map_bucket_keys by exact Hnd.
  exact Hperm.
Qed.

Lemma estimate_walker_length (w : list walk_entry) :
  estimate_file_count w = List.length (get_files_sorted_by_location w).
Proof.
  rewrite (Permutation_length (walker_perm w)). unfold estimate_file_count, walk_audio_files.
  induction w as [|e w IH]; simpl; [reflexivity|].
  rewrite !length_app, length_map, IH; reflexivity.
Qed.

(** The count of [estimate_file_count], which [index_directory] uses as
    [total_files], is exactly the number of files that
    [get_files_sorted_by_location] yields for the same listing. *)
Theorem estimate_file_count_matches_walker (w : list walk_entry) :
  estimate_file_count w = List.length (get_files_sorted_by_location w).
Proof. apply estimate_walker_length. Qed.

(* ------------------------------------------------------------------------- *)
(** ** Partial hashes ([calculate_file_hash]) *)

(** Two readable files of the same size whose first [chunk_size_mb] MiB
    coincide get the same partial hash, whatever the rest of their content;
    in particular with [chunk_size_mb = 0] all readable files of a size do. *)
Theorem calculate_file_hash_prefix_collision (d1 d2 : disk_file) (chunk_size_mb : N) :
  read_error d1 = false -> read_error d2 = false ->
  stat_error d1 = false -> stat_error d2 = false ->
  st_size d1 = st_size d2 ->
  firstn (N.to_nat (chunk_size_mb * 1024 * 1024)) (content d1)
  = firstn (N.to_nat (chunk_size_mb * 1024 * 1024)) (content d2) ->
  calculate_file_hash (Some d1) chunk_size_mb = calculate_file_hash (Some d2) chunk_size_mb.
Proof.
  intros R1 R2 S1 S2 Hs Hp; unfold calculate_file_hash.
  rewrite R1, R2, !read_prefix_firstn, Hp, S1, S2, Hs; reflexivity.
Qed.

Lemma calculate_file_hash_prefix_collision_witness :
  ex_file "ab" <> ex_file "cd"
  /\ calculate_file_hash (Some (ex_file "ab")) 0 = calculate_file_hash (Some (ex_file "cd")) 0.
Proof.
  split; [discriminate|].
  apply calculate_file_hash_prefix_collision; reflexivity.
Defined.

(* ------------------------------------------------------------------------- *)
(** ** What [_migrate_file] and [migrate_library] do to the file store *)

Lemma choose_target_free (w : fs) (sd : disk_file) (tp p : path) :
  choose_target w sd tp = CopyTo p -> lookup w p = None.
Proof.
  unfold choose_target. destruct (lookup w tp) as [td|] eqn:Et.
  - assert (Ex : exists_path w tp = true) by (unfold exists_path; rewrite Et; reflexivity).
    destruct (find_free_fuel_enough w (removelast tp) (stem (name_of tp)) (suffix (name_of tp)) tp Ex)
      as (k & _ & Eff & Hf & _).
    cbv zeta; rewrite Eff.
    destruct (stat_error td || stat_error sd); [discriminate|].
    destruct (st_size td =? st_size sd)%N; [discriminate|].
    intros H; injection H as <-.
    unfold exists_path in Hf; revert Hf; destruct (lookup w (candidate _ _ _ k)); [discriminate|reflexivity].
  - intros H; injection H as <-; exact Et.
Qed.

Lemma migrate_file_store (env : io_env) (w : fs) (file : File) (tp : path) :
  store_grows_at_one w (snd (_migrate_file env w file tp)).
Proof.
  unfold _migrate_file, store_grows_at_one.
  destruct (lookup w (source_path file)) as [sd|]; [|left; reflexivity].
  destruct (choose_target w sd tp) as [b|p] eqn:Ec; [left; reflexivity|].
  apply choose_target_free in Ec.
  destruct (copy_result env p sd) as [copied|]; [|left; reflexivity].
  right; exists p; split; [exact Ec|]. intros q Hq.
  destruct (verify env); [destruct (verify_file_copy _ _ _); [|destruct (unlink_ok env p)]|];
    cbn [snd]; rewrite ?lookup_remove_other by exact (not_eq_sym Hq);
    apply lookup_write_other; exact (not_eq_sym Hq).
Qed.

Lemma store_grows_keeps (w w' : fs) :
  store_grows_at_one w w' -> forall q d, lookup w q = Some d -> lookup w' q = Some d.
Proof.
  intros [->|[p [Hp H]]] q d Hq; [exact Hq|].
  rewrite H; [exact Hq|intros ->; congruence].
Qed.

(** [_migrate_file] never overwrites, changes or deletes a file: afterwards
    every path keeps the file it held, and at most one path, free before the
    call, holds a new file (the copy, unless it was removed again). *)
Theorem _migrate_file_never_overwrites (env : io_env) (w : fs) (file : File) (tp : path) :
  let w' := snd (_migrate_file env w file tp) in
  (forall q d, lookup w q = Some d -> lookup w' q = Some d)
  /\ (w' = w \/ exists p, lookup w p = None /\ forall q, q <> p -> lookup w' q = lookup w q).
Proof.
  cbv zeta; split; [apply store_grows_keeps, migrate_file_store|apply migrate_file_store].
Qed.

Lemma migrate_step_keeps base env tm stop meta s i f :
  forall q d, lookup (ms_fs s) q = Some d ->
  lookup (ms_fs (migrate_step base env tm stop meta s i f)) q = Some d.
Proof.
  intros q d H. unfold migrate_step.
  destruct (ms_stopped s || should_stop stop i); [exact H|].
  destruct (has_completed (ms_committed s) (id f)); [exact H|].
  destruct tm; [destruct (negb true && (i mod 10 =? 0)); exact H|].
  pose proof (store_grows_keeps _ _ (migrate_file_store env (ms_fs s) f
                (_get_target_path base f (meta (id f)))) q d H) as H'.
  destruct (_migrate_file env (ms_fs s) f _) as [[|] w'];
    destruct (negb false && (i mod 10 =? 0)); exact H'.
Qed.

Lemma migrate_loop_keeps base env tm stop meta : forall l s i q d,
  lookup (ms_fs s) q = Some d ->
  lookup (ms_fs (migrate_loop base env tm stop meta s i l)) q = Some d.
Proof.
  induction l as [|f l IH]; intros s i q d H; simpl; [exact H|].
  apply IH, migrate_step_keeps, H.
Qed.

(** A run of [migrate_library] never overwrites, changes or deletes a file
    that existed before the run, in particular no source file. *)
Theorem migrate_library_keeps_existing_files (target_base : path) (env : io_env)
  (test_mode : bool) (stop_at : option nat) (c : catalog) (w : fs) (skip_duplicates : bool) :
  let '(_, _, w', _) := migrate_library target_base env test_mode stop_at c w skip_duplicates in
  forall q d, lookup w q = Some d -> lookup w' q = Some d.
Proof.
  unfold migrate_library; intros q d H.
  destruct test_mode; simpl; apply migrate_loop_keeps; exact H.
Qed.

(* ------------------------------------------------------------------------- *)
(** ** Counters and test mode of [migrate_library] *)

Lemma should_stop_mono (stop : option nat) (i j : nat) :
  should_stop stop i = true -> i <= j -> should_stop stop j = true.
Proof.
  unfold should_stop; destruct stop as [k|]; [|discriminate].
  intros H Hij; apply Nat.leb_le in H; apply Nat.leb_le; lia.
Qed.

Lemma filter_none {X : Type} (p : X -> bool) (l : list X) :
  (forall x, In x l -> p x = false) -> filter p l = [].
Proof.
  induction l as [|x l IH]; simpl; intros H; [reflexivity|].
  rewrite H by (left; reflexivity); apply IH; intros y Hy; apply H; right; exact Hy.
Qed.

Lemma filter_seq_stopped (stop : option nat) (i n : nat) :
  should_stop stop i = true -> filter (fun j => negb (should_stop stop j)) (seq i n) = [].
Proof.
  intros H. apply filter_none. intros j Hj. apply in_seq in Hj.
  rewrite (should_stop_mono stop i j H) by lia; reflexivity.
Qed.

Lemma filter_seq_not_stopped (stop : option nat) (n : nat) :
  List.length (filter (fun j => negb (should_stop stop j)) (seq 0 n))
  = match stop with Some k => Nat.min k n | None => n end.
Proof.
  induction n as [|n IH]; [destruct stop; simpl; lia|].
  rewrite seq_S, filter_app, length_app, IH; simpl.
  unfold should_stop; destruct stop as [k|]; simpl; [|lia].
  destruct (k <=? n) eqn:E; simpl; [apply Nat.leb_le in E|apply Nat.leb_gt in E]; lia.
Qed.

Lemma migrate_step_counts base env tm stop meta s i f :
  let s' := migrate_step base env tm stop meta s i f in
  ms_stopped s' = ms_stopped s || should_stop stop i
  /\ ms_migrated s' + ms_skipped s' + ms_failed s'
     = ms_migrated s + ms_skipped s + ms_failed s
       + (if ms_stopped s || should_stop stop i then 0 else 1)
  /\ List.length (ms_errors s') + ms_failed s = List.length (ms_errors s) + ms_failed s'
  /\ (tm = false ->
      List.length (mig_rows s') + ms_migrated s = List.length (mig_rows s) + ms_migrated s').
Proof.
  cbv zeta; unfold migrate_step.
  destruct (ms_stopped s || should_stop stop i) eqn:E; [simpl; repeat split; lia|].
  destruct (has_completed (ms_committed s) (id f)); [simpl; repeat split; lia|].
  destruct tm.
  - destruct (negb true && (i mod 10 =? 0)); simpl; repeat split; try lia; discriminate.
  - destruct (_migrate_file env (ms_fs s) f _) as [[|] w'];
      destruct (negb false && (i mod 10 =? 0)); unfold mig_rows; simpl;
      rewrite ?length_app, ?app_nil_r, ?length_app; simpl; repeat split; lia.
Qed.

Lemma migrate_loop_counts base env tm stop meta : forall l s i,
  let s' := migrate_loop base env tm stop meta s i l in
  ms_migrated s' + ms_skipped s' + ms_failed s'
  = ms_migrated s + ms_skipped s + ms_failed s
    + (if ms_stopped s then 0
       else List.length (filter (fun j => negb (should_stop stop j)) (seq i (List.length l))))
  /\ List.length (ms_errors s') + ms_failed s = List.length (ms_errors s) + ms_failed s'
  /\ (tm = false ->
      List.length (mig_rows s') + ms_migrated s = List.length (mig_rows s) + ms_migrated s').
Proof.
  induction l as [|f l IH]; intros s i; simpl.
  - destruct (ms_stopped s); repeat split; lia.
  - destruct (migrate_step_counts base env tm stop meta s i f) as (H1 & H2 & H3 & H4).
    destruct (IH (migrate_step base env tm stop meta s i f) (S i)) as (G1 & G2 & G3).
    repeat split; [|lia|intros Htm; specialize (H4 Htm); specialize (G3 Htm); lia].
    rewrite G1, H2, H1.
    destruct (ms_stopped s); simpl; [lia|].
    destruct (should_stop stop i) eqn:Es; simpl.
    + rewrite (filter_seq_stopped stop (S i)) by (apply (should_stop_mono stop i); [exact Es|lia]).
      simpl; lia.
    + lia.
Qed.

(** The counters of [migrate_library]: every selected file polled before the
    stop flag is counted exactly once as migrated, skipped or failed, so
    without a stop their sum is the number of selected files, and with
    [stop()] seen at file [k] it is [min k n]; [errors] equals [failed];
    and in real mode the [migrations] table grows by exactly [migrated]
    rows. *)
Theorem migrate_library_counters (target_base : path) (env : io_env) (test_mode : bool)
  (stop_at : option nat) (c : catalog) (w : fs) (skip_duplicates : bool) :
  let '(r, c', _, _) := migrate_library target_base env test_mode stop_at c w skip_duplicates in
  let n := List.length (select_files c skip_duplicates) in
  r_migrated r + r_skipped r + r_failed r
  = match stop_at with Some k => Nat.min k n | None => n end
  /\ r_errors r = r_failed r
  /\ (test_mode = false ->
      List.length (migrations c') = List.length (migrations c) + r_migrated r).
Proof.
  unfold migrate_library.
  match goal with |- context [migrate_loop ?b ?e ?t ?st ?m ?s0 0 ?l] =>
    destruct (migrate_loop_counts b e t st m l s0 0) as (H1 & H2 & H3);
    set (s := migrate_loop b e t st m s0 0 l) in * end.
  simpl in H1, H2, H3. rewrite filter_seq_not_stopped in H1.
  destruct test_mode; simpl; (split; [lia|split; [lia|]]).
  - discriminate.
  - intros _; specialize (H3 eq_refl); unfold mig_rows in H3; simpl in H3.
    rewrite app_nil_r in *; lia.
Qed.

Lemma migrate_step_test base env stop meta s i f :
  let s' := migrate_step base env true stop meta s i f in
  ms_files s' = ms_files s /\ ms_committed s' = ms_committed s
  /\ ms_pending s' = ms_pending s /\ ms_fs s' = ms_fs s /\ ms_failed s' = ms_failed s
  /\ ((ms_mappings s' = ms_mappings s /\ ms_migrated s' = ms_migrated s)
      \/ (ms_mappings s' = ms_mappings s ++ [(source_path f, _get_target_path base f (meta (id f)))]
          /\ ms_migrated s' = S (ms_migrated s)
          /\ has_completed (ms_committed s) (id f) = false)).
Proof.
  cbv zeta; unfold migrate_step.
  destruct (ms_stopped s || should_stop stop i); [simpl; repeat split; left; auto|].
  destruct (has_completed (ms_committed s) (id f)) eqn:Eh; [simpl; repeat split; left; auto|].
  simpl; repeat split; right; auto.
Qed.

Lemma migrate_loop_test base env stop meta : forall l s i,
  let s' := migrate_loop base env true stop meta s i l in
  ms_files s' = ms_files s /\ ms_committed s' = ms_committed s
  /\ ms_pending s' = ms_pending s /\ ms_fs s' = ms_fs s /\ ms_failed s' = ms_failed s
  /\ List.length (ms_mappings s') + ms_migrated s = List.length (ms_mappings s) + ms_migrated s'
  /\ forall x, In x (ms_mappings s') ->
       In x (ms_mappings s)
       \/ exists f, In f l /\ has_completed (ms_committed s) (id f) = false
                    /\ x = (source_path f, _get_target_path base f (meta (id f))).
Proof.
  induction l as [|f l IH]; intros s i; simpl.
  - repeat split; auto; lia.
  - destruct (migrate_step_test base env stop meta s i f) as (E1 & E2 & E3 & E4 & E0 & E5).
    destruct (IH (migrate_step base env true stop meta s i f) (S i))
      as (G1 & G2 & G3 & G4 & G0 & G5 & G6).
    rewrite E1 in G1; rewrite E2 in G2; rewrite E3 in G3; rewrite E4 in G4; rewrite E0 in G0.
    repeat split; auto.
    + destruct E5 as [[M1 M2]|(M1 & M2 & _)]; rewrite M1, ?length_app in G5; simpl in G5; lia.
    + intros x Hx. destruct (G6 x Hx) as [Hin|(g & Hg & Hc & ->)].
      * destruct E5 as [[M1 _]|(M1 & _ & Hc)]; rewrite M1 in Hin; [left; exact Hin|].
        apply in_app_or in Hin as [Hin|[<-|[]]]; [left; exact Hin|].
        right; exists f; auto.
      * right; exists g; rewrite E2 in Hc; auto.
Qed.

Lemma in_firstn_in {X : Type} (n : nat) (l : list X) (x : X) : In x (firstn n l) -> In x l.
Proof. intros H; rewrite <- (firstn_skipn n l); apply in_or_app; left; exact H. Qed.

(** [test_migration()] (and [migrate_library] in test mode) changes nothing:
    the [files] and [migrations] tables and the file store are left as they
    were and nothing fails. The preview lists [min 100 migrated] pairs; each
    one is a selected file without a completed migration, with the target
    that [_get_target_path] computes for it. *)
Theorem test_migration_is_a_dry_run (target_base : path) (env : io_env)
  (stop_at : option nat) (c : catalog) (w : fs) (skip_duplicates : bool) :
  let '(r, c', w', _) := migrate_library target_base env true stop_at c w skip_duplicates in
  files c' = files c /\ migrations c' = migrations c /\ w' = w /\ r_failed r = 0
  /\ List.length (r_test_mappings r) = Nat.min 100 (r_migrated r)
  /\ (forall src tgt, In (src, tgt) (r_test_mappings r) ->
        exists f, In f (select_files c skip_duplicates)
                  /\ has_completed (migrations c) (id f) = false
                  /\ src = source_path f
                  /\ tgt = _get_target_path target_base f (metadata_of c (id f)))
  /\ (skip_duplicates = true -> test_migration target_base env stop_at c w = r_test_mappings r).
Proof.
  unfold test_migration, migrate_library.
  match goal with |- context [migrate_loop ?b ?e true ?st ?m ?s0 0 ?l] =>
    destruct (migrate_loop_test b e st m l s0 0) as (H1 & H2 & H3 & H4 & H7 & H5 & H6);
    set (s := migrate_loop b e true st m s0 0 l) in * end.
  cbv beta iota zeta.
  cbn [r_migrated r_skipped r_failed r_errors r_error_files r_test_mappings files migrations
       metadata_of duplicates ms_files ms_committed ms_pending ms_fs ms_migrated ms_skipped
       ms_failed ms_errors ms_mappings ms_progress ms_stopped] in *.
  repeat split.
  - exact H1.
  - rewrite H2, H3, app_nil_r; reflexivity.
  - exact H4.
  - lia.
  - cbn [List.length] in H5; rewrite length_firstn; f_equal; lia.
  - intros src tgt Hin. apply in_firstn_in in Hin.
    destruct (H6 _ Hin) as [[]|(f & Hf & Hc & E)].
    injection E as -> ->; exists f; auto.
  - intros ->; reflexivity.
Qed.

(* ------------------------------------------------------------------------- *)
(** ** Quality scores ([_calculate_quality_score]) *)

Lemma format_score_range (s : string) : (0 <= format_score s <= 150)%Z.
Proof.
  unfold format_score.
  repeat match goal with |- context [if ?b then _ else _] => destruct b end; lia.
Qed.

(** A quality score lies between [-20] and [330], and both bounds are
    reached: [-20] by a file without metadata under a [backup] folder, [330]
    by a 320 kbps FLAC file with artist, album, title and year set under a
    [Music] folder. *)
Theorem _calculate_quality_score_range (meta : nat -> option Metadata) (file : File) :
  (-20 <= _calculate_quality_score meta file <= 330)%Z
  /\ _calculate_quality_score (fun _ => None)
       {| id := 1; source_path := ["backup"; "a.mp3"]%string; file_size := 3;
          file_hash := None; status := Indexed |} = (-20)%Z
  /\ _calculate_quality_score
       (fun _ => Some {| artist := Some "A"%string; album := Some "B"%string;
                         title := Some "T"%string; year := Some 2000%Z;
                         bitrate := Some 320%Z; format := Some "FLAC"%string |})
       {| id := 1; source_path := ["Music"; "a.flac"]%string; file_size := 3;
          file_hash := None; status := Indexed |} = 330%Z.
Proof.
  split; [|split; vm_compute; reflexivity].
  unfold _calculate_quality_score. cbv zeta.
  match goal with |- context [match meta (id file) with None => ?z | Some m => @?g m end] =>
    assert (Hm : (0 <= match meta (id file) with None => z | Some m => g m end <= 320)%Z);
    [|set (x := match meta (id file) with None => z | Some m => g m end) in *; clearbody x] end.
  - destruct (meta (id file)) as [m|]; [|lia]. cbv beta.
    assert (Hb : (0 <= match bitrate m with
                 | Some br => if negb (br =? 0)%Z then
                                if (320 <=? br)%Z then 100 else if (256 <=? br)%Z then 80
                                else if (192 <=? br)%Z then 60 else if (128 <=? br)%Z then 40
                                else 20
                              else 0%Z
                 | None => 0%Z end <= 100)%Z)
      by (destruct (bitrate m); [|lia];
          repeat match goal with |- context [if ?b then _ else _] => destruct b end; lia).
    assert (Hf : (0 <= match format m with
                 | Some s => if truthy_str (Some s) then format_score s else 0%Z
                 | None => 0%Z end <= 150)%Z)
      by (destruct (format m) as [s|]; [destruct (truthy_str (Some s)); [apply format_score_range|]|]; lia).
    revert Hb Hf.
    generalize (match bitrate m with
                 | Some br => if negb (br =? 0)%Z then
                                if (320 <=? br)%Z then 100 else if (256 <=? br)%Z then 80
                                else if (192 <=? br)%Z then 60 else if (128 <=? br)%Z then 40
                                else 20
                              else 0%Z
                 | None => 0%Z end)%Z.
    generalize (match format m with
                 | Some s => if truthy_str (Some s) then format_score s else 0%Z
                 | None => 0%Z end)%Z.
    intros a b Ha Hb.
    destruct (truthy_str (artist m)), (truthy_str (album m)), (truthy_str (title m)),
      (truthy_int (year m)); lia.
  - destruct (has_part (source_path file) _), (has_part (source_path file) _); lia.
Qed.

(* ------------------------------------------------------------------------- *)
(** ** The rows written by [find_duplicates] *)

Lemma filter_or_perm {X : Type} (p q : X -> bool) (l : list X) :
  (forall x, In x l -> p x && q x = false) ->
  Permutation (filter (fun x => p x || q x) l) (filter p l ++ filter q l).
Proof.
  induction l as [|x l IH]; simpl; intros H; [reflexivity|].
  assert (IH' : Permutation (filter (fun x => p x || q x) l) (filter p l ++ filter q l))
    by (apply IH; intros y Hy; apply H; right; exact Hy).
  specialize (H x (or_introl eq_refl)).
  destruct (p x), (q x); simpl in *; try discriminate.
  - apply perm_skip, IH'.
  - rewrite IH'; apply Permutation_middle.
  - exact IH'.
Qed.

Lemma flat_map_hash_groups (fs0 : list File) : forall (G : list (string * list File)),
  NoDup (map fst G) -> (forall k l, In (k, l) G -> l = filter (has_hash k) fs0) ->
  Permutation (flat_map snd G)
    (filter (fun f => match file_hash f with
                      | Some h => existsb (fun k => String.eqb k h) (map fst G)
                      | None => false end) fs0).
Proof.
  induction G as [|[k l] G IH]; intros Hnd Hg; simpl.
  - rewrite filter_none; [reflexivity|intros f _; destruct (file_hash f); reflexivity].
  - inversion Hnd as [|a b Hn Hnd']; subst.
    rewrite (Hg k l (or_introl eq_refl)).
    rewrite (IH Hnd' (fun k' l' H => Hg k' l' (or_intror H))).
    symmetry; etransitivity; [|apply filter_or_perm].
    + apply Permutation_refl'; apply filter_ext; intros f; unfold has_hash.
      destruct (file_hash f); [rewrite String.eqb_sym|]; reflexivity.
    + intros f _; unfold has_hash; destruct (file_hash f) as [h|]; [|reflexivity].
      destruct (String.eqb h k) eqn:E; [|reflexivity]; simpl.
      apply String.eqb_eq in E; subst h.
      destruct (existsb _ _) eqn:E; [|reflexivity].
      apply existsb_eqb_in in E; contradiction.
Qed.

Lemma group_by_hash_perm (fs0 : list File) :
  Permutation (flat_map snd (_group_by_hash fs0)) (filter (hash_shared fs0) fs0).
Proof.
  destruct (group_inv_fold fs0 [] []) as (Hnd & Hg & Hk).
  { split; [constructor|split; [intros k' l' []|intros g h' []]]. }
  simpl in Hnd, Hg, Hk. unfold _group_by_hash.
  set (G := fold_left _ fs0 []) in *.
  rewrite flat_map_hash_groups.
  - apply Permutation_refl'; apply filter_ext_in; intros f Hf; unfold hash_shared.
    destruct (file_hash f) as [h|] eqn:Ef; [|reflexivity].
    destruct (1 <? List.length (filter (has_hash h) fs0)) eqn:El.
    + apply existsb_eqb_in.
      destruct (proj1 (in_map_iff fst G h) (Hk f h Hf Ef)) as [[k l] [Ek Hin]].
      simpl in Ek; subst k.
      change h with (fst (h, l)); apply in_map, filter_In; split; [exact Hin|].
      simpl; rewrite (Hg h l Hin); exact El.
    + destruct (existsb _ _) eqn:E; [|reflexivity].
      apply existsb_eqb_in, in_map_iff in E as [[k l] [Ek Hin]]; simpl in Ek; subst k.
      apply filter_In in Hin as [Hin Hl]; simpl in Hl.
      rewrite (Hg h l Hin), El in Hl; discriminate.
  - apply nodup_map_filter, Hnd.
  - intros k l Hin; apply filter_In in Hin as [Hin _]; apply Hg, Hin.
Qed.

Lemma save_file_ids (gs : list dup_group) :
  map dup_file_id (_save_duplicate_groups gs)
  = flat_map (fun dg => map (fun x => id (fst x)) (dg_files dg)) gs.
Proof.
  induction gs as [|dg gs IH]; [reflexivity|].
  rewrite save_cons, map_app, IH, (proj1 (save_one_rows dg)); reflexivity.
Qed.

Lemma analyze_file_ids meta (hg : list (string * list File)) :
  Permutation (flat_map (fun dg => map (fun x => id (fst x)) (dg_files dg))
                        (_analyze_duplicate_groups meta hg))
              (map id (flat_map snd hg)).
Proof.
  unfold _analyze_duplicate_groups. generalize (length_seq (List.length hg) 0).
  generalize (seq 0 (List.length hg)).
  induction hg as [|[k m] hg IH]; intros ns Hn; [destruct ns; reflexivity|].
  destruct ns as [|a ns]; [discriminate|]; simpl in Hn |- *.
  rewrite map_app; apply Permutation_app; [|apply IH; congruence].
  rewrite (Permutation_map _ (isort_perm score_desc _)), map_map; reflexivity.
Qed.

Lemma total_duplicates_rows (gs : list dup_group) : forall a,
  fold_left (fun a g => a + List.length (dg_files g)) gs a
  = a + List.length (_save_duplicate_groups gs).
Proof.
  induction gs as [|dg gs IH]; intros a; [simpl; lia|].
  cbn [fold_left]; rewrite IH, save_cons, length_app.
  rewrite <- (length_map dup_file_id (_save_duplicate_groups [dg])), (proj1 (save_one_rows dg)),
    length_map; lia.
Qed.

(** [find_duplicates] writes one [duplicates] row for each file whose
    partial hash is shared with at least one other file and for no other
    file (rows listed up to order), and [total_duplicates] is the number of
    rows written. *)
Theorem find_duplicates_rows (meta : nat -> option Metadata) (fs0 : list File) :
  let '(stats, rows, _) := find_duplicates meta fs0 in
  Permutation (map dup_file_id rows) (map id (filter (hash_shared fs0) fs0))
  /\ total_duplicates stats = List.length rows.
Proof.
  unfold find_duplicates; cbv beta iota zeta; cbn [total_duplicates]. split.
  - rewrite save_file_ids, analyze_file_ids.
    apply Permutation_map, group_by_hash_perm.
  - rewrite total_duplicates_rows; reflexivity.
Qed.

(* ------------------------------------------------------------------------- *)
(** ** Counters of [index_directory] *)

Lemma index_file_counts cfg w s p :
  let s' := index_file cfg w s p in
  ix_added s' + ix_skipped s' + List.length (ix_errors s') + ix_seen s
  = ix_added s + ix_skipped s + List.length (ix_errors s) + ix_seen s'
  /\ ix_files_processed s' + ix_added s = ix_files_processed s + ix_added s'.
Proof.
  cbv zeta; unfold index_file.
  destruct (ix_stopped s || idx_should_stop cfg (ix_seen s)); [simpl; lia|].
  destruct (in_paths p (ix_processed s)); [simpl; lia|].
  destruct (existsb _ (ix_catalog s)); [simpl; lia|].
  destruct (lookup w p) as [d|]; [destruct (stat_error d)|];
    cbn [ix_added ix_skipped ix_errors ix_seen ix_files_processed]; rewrite ?length_app; simpl; lia.
Qed.

Lemma fold_index_file_counts cfg w : forall b s,
  let s' := fold_left (index_file cfg w) b s in
  ix_added s' + ix_skipped s' + List.length (ix_errors s') + ix_seen s
  = ix_added s + ix_skipped s + List.length (ix_errors s) + ix_seen s'
  /\ ix_files_processed s' + ix_added s = ix_files_processed s + ix_added s'.
Proof.
  induction b as [|p b IH]; intros s; simpl; [lia|].
  destruct (index_file_counts cfg w s p) as [H1 H2].
  destruct (IH (index_file cfg w s p)) as [G1 G2]; lia.
Qed.

Lemma index_batches_counts cfg w total_files : forall bs s n,
  let s' := index_batches cfg w total_files s n bs in
  ix_added s' + ix_skipped s' + List.length (ix_errors s') + ix_seen s
  = ix_added s + ix_skipped s + List.length (ix_errors s) + ix_seen s'
  /\ ix_files_processed s' + ix_added s = ix_files_processed s + ix_added s'.
Proof.
  induction bs as [|b bs IH]; intros s n; simpl; [lia|].
  destruct (ix_stopped s || idx_should_stop cfg (ix_seen s)); [simpl; lia|].
  destruct (fold_index_file_counts cfg w b s) as [H1 H2].
  destruct (IH (end_batch cfg total_files (fold_left (index_file cfg w) b s) n) (S n)) as [G1 G2].
  cbn [end_batch ix_added ix_skipped ix_errors ix_seen ix_files_processed] in G1, G2; lia.
Qed.

(** The counters of [index_directory]: every listed file examined before
    the stop flag is counted once as added, skipped or failed, so their sum
    is the number of audio files of the listing ([estimate_file_count]), or
    [min k] of it when the stop flag is seen after [k] files; and
    [total_processed] is the progress of the resumed checkpoint (0 without
    one) plus the files added. *)
Theorem index_directory_counts (cfg : index_config) (w : fs) (walk : list walk_entry)
  (cat : list File) (stored : option checkpoint) (resume : bool) :
  match index_directory cfg w true walk cat stored resume with
  | Some (r, _, _, _) =>
      files_added r + files_skipped r + errors r
      = idx_seen_limit (index_stop_at cfg) (estimate_file_count walk)
      /\ total_processed r
         = match (if resume && checkpoint_enabled cfg then stored else None) with
           | Some cp => cp_progress cp | None => 0 end + files_added r
  | None => False
  end.
Proof.
  unfold index_directory; cbn [negb].
  match goal with |- context [index_batches cfg w ?t ?s0 0 ?bs] =>
    destruct (index_batches_counts cfg w t bs s0 0) as [H1 H2];
    pose proof (index_batches_seen cfg w t bs s0 0) as Hs;
    set (s := index_batches cfg w t s0 0 bs) in * end.
  cbn [files_added files_skipped errors total_processed].
  cbn [ix_added ix_skipped ix_errors ix_seen ix_files_processed List.length] in H1, H2, Hs.
  rewrite Hs, concat_batch_files, <- estimate_walker_length in H1 by (split; simpl; [discriminate|lia]).
  rewrite !Nat.add_0_l in H1.
  split; [lia|].
  destruct (if resume && checkpoint_enabled cfg then stored else None); lia.
Qed.

(* ------------------------------------------------------------------------- *)
(** ** Rows added by [index_directory] *)

Lemma next_id_gt (c : list File) (f : File) : In f c -> id f < next_id c.
Proof.
  unfold next_id; induction c as [|g c IH]; simpl; [tauto|].
  pose proof (Nat.le_max_l (id g) (fold_right (fun f m => Nat.max (id f) m) 0 c)) as M1.
  pose proof (Nat.le_max_r (id g) (fold_right (fun f m => Nat.max (id f) m) 0 c)) as M2.
  intros [<-|Hf]; [lia|specialize (IH Hf); lia].
Qed.

Lemma in_paths_app (p : path) (l m : list path) :
  in_paths p l = true -> in_paths p (l ++ m) = true.
Proof. unfold in_paths; rewrite existsb_app; intros ->; reflexivity. Qed.

Lemma nodup_map_snoc {X Y : Type} (g : X -> Y) (l : list X) (x : X) :
  NoDup (map g l) -> ~ In (g x) (map g l) -> NoDup (map g (l ++ [x])).
Proof.
  intros H Hx; rewrite map_app; simpl.
  apply (Permutation_NoDup (Permutation_cons_append _ _)); constructor; assumption.
Qed.


Lemma index_file_rows cfg w L cat s p :
  In p L -> idx_rows_inv cfg w L cat s -> idx_rows_inv cfg w L cat (index_file cfg w s p).
Proof.
  intros Hp Hi; pose proof Hi as ([N [HN [Hl HF]]] & Hid & Hsp & Hses).
  unfold index_file.
  destruct (ix_stopped s || idx_should_stop cfg (ix_seen s)); [exact Hi|].
  destruct (in_paths p (ix_processed s)) eqn:Hin; [exact Hi|].
  destruct (existsb (fun f => path_eqb (source_path f) p) (ix_catalog s)) eqn:Hex.
  - unfold idx_rows_inv; cbn [ix_catalog ix_session ix_processed ix_added].
    repeat split; [exists N; auto|exact Hid|exact Hsp|].
    intros f Hf; apply in_paths_app, Hses, Hf.
  - destruct (lookup w p) as [d|] eqn:Hd; [destruct (stat_error d) eqn:Hse; [exact Hi|]|exact Hi].
    unfold idx_rows_inv; cbn [ix_catalog ix_session ix_processed ix_added].
    set (rec := {| id := next_id (ix_catalog s ++ ix_session s); source_path := p;
                   file_size := st_size d;
                   file_hash := calculate_file_hash (Some d) (hash_chunk_size_mb cfg);
                   status := Indexed |}).
    rewrite !app_assoc. split; [|split; [|split]].
    + exists (N ++ [rec]); rewrite HN, app_assoc; split; [reflexivity|].
      rewrite length_app; simpl; split; [lia|].
      apply Forall_app; split; [exact HF|constructor; [|constructor]].
      split; [reflexivity|split; [exact Hp|exists d; auto]].
    + apply nodup_map_snoc; [exact Hid|].
      intros H; apply in_map_iff in H as [g [Eg Hg]].
      pose proof (next_id_gt _ _ Hg); unfold rec in Eg; simpl in Eg; lia.
    + apply nodup_map_snoc; [exact Hsp|].
      intros H; apply in_map_iff in H as [g [Eg Hg]]; simpl in Eg.
      apply in_app_or in Hg as [Hg|Hg].
      * assert (E : existsb (fun f => path_eqb (source_path f) p) (ix_catalog s) = true)
          by (apply existsb_exists; exists g; rewrite Eg; split; [exact Hg|apply path_eqb_refl]).
        congruence.
      * specialize (Hses g Hg); rewrite Eg in Hses; congruence.
    + intros f Hf; apply in_app_or in Hf as [Hf|[<-|[]]].
      * apply in_paths_app, Hses, Hf.
      * unfold in_paths; rewrite existsb_app; simpl; rewrite path_eqb_refl, orb_true_r; reflexivity.
Qed.

Lemma fold_index_file_rows cfg w L cat : forall b s,
  incl b L -> idx_rows_inv cfg w L cat s ->
  idx_rows_inv cfg w L cat (fold_left (index_file cfg w) b s).
Proof.
  induction b as [|p b IH]; intros s Hb Hi; simpl; [exact Hi|].
  apply IH; [intros x Hx; apply Hb; right; exact Hx|].
  apply index_file_rows; [apply Hb; left; reflexivity|exact Hi].
Qed.

Lemma end_batch_rows cfg w L cat total_files s n :
  idx_rows_inv cfg w L cat s -> idx_rows_inv cfg w L cat (end_batch cfg total_files s n).
Proof.
  intros ([N [HN [Hl HF]]] & Hid & Hsp & Hses).
  unfold idx_rows_inv, end_batch; cbn [ix_catalog ix_session ix_processed ix_added].
  rewrite app_nil_r; repeat split; [exists N; auto|exact Hid|exact Hsp|intros f []].
Qed.

Lemma index_batches_rows cfg w L cat total_files : forall bs s n,
  (forall b, In b bs -> incl b L) -> idx_rows_inv cfg w L cat s -> ix_session s = [] ->
  idx_rows_inv cfg w L cat (index_batches cfg w total_files s n bs)
  /\ ix_session (index_batches cfg w total_files s n bs) = [].
Proof.
  induction bs as [|b bs IH]; intros s n Hbs Hi Hs; simpl; [auto|].
  destruct (ix_stopped s || idx_should_stop cfg (ix_seen s)); [split; [exact Hi|exact Hs]|].
  apply IH; [intros b' Hb'; apply Hbs; right; exact Hb'| |reflexivity].
  apply end_batch_rows, fold_index_file_rows; [apply Hbs; left; reflexivity|exact Hi].
Qed.

(** The catalog after [index_directory] is the catalog before it followed
    by exactly [files_added] new rows, each with [status = 'indexed'], the
    path of a listed audio file, and the size and partial hash of that file;
    if ids and source paths were distinct before the run they still are. *)
Theorem index_directory_rows (cfg : index_config) (w : fs) (walk : list walk_entry)
  (cat : list File) (stored : option checkpoint) (resume : bool) :
  NoDup (map id cat) -> NoDup (map source_path cat) ->
  match index_directory cfg w true walk cat stored resume with
  | Some (r, cat', _, _) =>
      exists new, cat' = cat ++ new /\ List.length new = files_added r
                  /\ Forall (new_row_ok cfg w (get_files_sorted_by_location walk)) new
                  /\ NoDup (map id cat') /\ NoDup (map source_path cat')
  | None => False
  end.
Proof.
  intros Hid Hsp; unfold index_directory; cbn [negb].
  match goal with |- context [index_batches cfg w ?t ?s0 0 ?bs] =>
    destruct (index_batches_rows cfg w (get_files_sorted_by_location walk) cat t bs s0 0)
      as [([N [HN [Hl HF]]] & Hid' & Hsp' & _) Hs];
    [| |reflexivity|set (s := index_batches cfg w t s0 0 bs) in *] end.
  - intros b Hb x Hx; rewrite <- (concat_batch_files _ (batch_size cfg)).
    apply in_concat; exists b; auto.
  - unfold idx_rows_inv; cbn [ix_catalog ix_session ix_processed ix_added]; rewrite app_nil_r.
    repeat split; [exists []; rewrite app_nil_r; auto|exact Hid|exact Hsp|intros f []].
  - cbn [files_added]. rewrite Hs, app_nil_r in HN, Hid', Hsp'.
    exists N; auto.
Qed.

Lemma index_directory_rows_witness :
  NoDup (map id []) /\ NoDup (map source_path [])
  /\ match index_directory (ex_index_config None) ex_fs true ex_walk [] None true with
     | Some (r, cat', _, _) =>
         exists new, cat' = [] ++ new /\ List.length new = files_added r
                     /\ Forall (new_row_ok (ex_index_config None) ex_fs
                                  (get_files_sorted_by_location ex_walk)) new
                     /\ NoDup (map id cat') /\ NoDup (map source_path cat')
     | None => False
     end.
Proof.
  split; [constructor|split; [constructor|]].
  apply index_directory_rows; constructor.
Defined.

(* ------------------------------------------------------------------------- *)
(** ** The target path stays inside [target_base] *)

Lemma lsa_append (x y : string) :
  list_ascii_of_string (append x y) = list_ascii_of_string x ++ list_ascii_of_string y.
Proof. induction x as [|c x IH]; simpl; [reflexivity|rewrite IH; reflexivity]. Qed.

Lemma lsa_length (s : string) : String.length s = List.length (list_ascii_of_string s).
Proof. induction s as [|c s IH]; simpl; [reflexivity|rewrite IH; reflexivity]. Qed.

Lemma lsa_substring (s : string) : forall i k,
  list_ascii_of_string (substring i k s) = firstn k (skipn i (list_ascii_of_string s)).
Proof.
  induction s as [|c s IH]; intros i k; destruct i, k; simpl; try reflexivity.
  - rewrite IH; destruct (list_ascii_of_string s); reflexivity.
  - rewrite IH; reflexivity.
  - rewrite IH; reflexivity.
Qed.

Lemma lstrip_suffix (cs s : string) :
  exists r, list_ascii_of_string s = r ++ list_ascii_of_string (lstrip cs s).
Proof.
  induction s as [|c s IH]; simpl; [exists []; reflexivity|].
  destruct (mem_char c cs); [|exists []; reflexivity].
  destruct IH as [r Hr]; exists (c :: r); simpl; rewrite Hr; reflexivity.
Qed.

Lemma lstrip_head (cs s : string) :
  match lstrip cs s with String c _ => mem_char c cs = false | EmptyString => True end.
Proof.
  induction s as [|c s IH]; simpl; [exact I|].
  destruct (mem_char c cs) eqn:E; [exact IH|exact E].
Qed.

Lemma rstrip_prefix (cs s : string) :
  exists r, list_ascii_of_string s = list_ascii_of_string (rstrip cs s) ++ r.
Proof.
  unfold rstrip, rev_string.
  destruct (lstrip_suffix cs (string_of_list_ascii (rev (list_ascii_of_string s)))) as [r Hr].
  rewrite list_ascii_of_string_of_list_ascii in Hr |- *.
  exists (rev r). rewrite <- rev_app_distr, <- Hr, rev_involutive; reflexivity.
Qed.

Lemma rstrip_last (cs s : string) :
  list_ascii_of_string (rstrip cs s) = []
  \/ exists l c, list_ascii_of_string (rstrip cs s) = l ++ [c] /\ mem_char c cs = false.
Proof.
  unfold rstrip, rev_string. rewrite list_ascii_of_string_of_list_ascii.
  pose proof (lstrip_head cs (string_of_list_ascii (rev (list_ascii_of_string s)))) as Hh.
  destruct (lstrip cs _) as [|c t]; [left; reflexivity|].
  right; exists (rev (list_ascii_of_string t)), c; split; [reflexivity|exact Hh].
Qed.

Lemma all_chars_append (P : ascii -> bool) (x y : string) :
  all_chars P (append x y) = all_chars P x && all_chars P y.
Proof. unfold all_chars; rewrite lsa_append, forallb_app; reflexivity. Qed.

Lemma all_chars_weaken (P Q : ascii -> bool) (s : string) :
  (forall c, P c = true -> Q c = true) -> all_chars P s = true -> all_chars Q s = true.
Proof.
  unfold all_chars; rewrite !forallb_forall; intros H Hs c Hc; apply H, Hs, Hc.
Qed.

Lemma in_skipn_in {X : Type} (n : nat) (l : list X) (x : X) : In x (skipn n l) -> In x l.
Proof. intros H; rewrite <- (firstn_skipn n l); apply in_or_app; right; exact H. Qed.

Lemma substring_all (P : ascii -> bool) (s : string) (i k : nat) :
  all_chars P s = true -> all_chars P (substring i k s) = true.
Proof.
  unfold all_chars; rewrite lsa_substring, !forallb_forall; intros H c Hc.
  apply H, (in_skipn_in i); apply (in_firstn_in k); exact Hc.
Qed.

Lemma replace_chars_keep (cs : string) (by_ : ascii) (P : ascii -> bool) (s : string) :
  P by_ = true -> all_chars P s = true -> all_chars P (replace_chars cs by_ s) = true.
Proof.
  intros Hb; induction s as [|c s IH]; intros H; [reflexivity|].
  rewrite all_chars_cons in H; apply andb_prop in H as [H1 H2].
  simpl replace_chars; rewrite all_chars_cons, IH, andb_true_r by exact H2.
  destruct (mem_char c cs); assumption.
Qed.

Lemma rstrip_all cs P s : all_chars P s = true -> all_chars P (rstrip cs s) = true.
Proof.
  intros H; unfold rstrip; rewrite rev_string_all; apply lstrip_all; rewrite rev_string_all; exact H.
Qed.

Lemma ends_outside_dots (s : string) (l : list ascii) (c : ascii) :
  list_ascii_of_string s = l ++ [c] -> mem_char c ". " = false ->
  s <> "."%string /\ s <> ".."%string.
Proof.
  intros H Hc; split; intros ->; simpl in H;
    (destruct l as [|a [|b [|d l]]]; simpl in H; injection H; intros; subst; try discriminate);
    destruct l; discriminate.
Qed.

Lemma no_slash_ok (c : ascii) : mem_char c sanitize_illegal_chars = false ->
  negb (Ascii.eqb c "/"%char) = true.
Proof.
  destruct (Ascii.eqb c "/") eqn:E; [|reflexivity].
  apply Ascii.eqb_eq in E; subst; discriminate.
Qed.

Lemma sanitize_name_no_slash (a : string) :
  all_chars (fun c => negb (Ascii.eqb c "/"%char)) (_sanitize_name a) = true.
Proof.
  unfold _sanitize_name.
  apply (all_chars_weaken (fun c => negb (Ascii.eqb c "/") && negb (Ascii.eqb c "_"))).
  { intros c H; apply andb_prop in H as [H _]; exact H. }
  apply collapse_runs_all; [reflexivity|].
  destruct (100 <? _); [apply substring0_all|]; apply strip_all;
    apply replace_chars_all; [reflexivity|apply no_slash_ok| reflexivity|apply no_slash_ok].
Qed.

Lemma strip_head (cs s : string) :
  match strip cs s with String c _ => mem_char c cs = false | EmptyString => True end.
Proof.
  unfold strip. pose proof (lstrip_head cs s) as Hh.
  destruct (rstrip_prefix cs (lstrip cs s)) as [r Hr].
  destruct (rstrip cs (lstrip cs s)) as [|d u]; [exact I|].
  destruct (lstrip cs s) as [|c t]; simpl in Hr; [discriminate|].
  injection Hr as -> _; exact Hh.
Qed.

Lemma sanitize_name_head (a : string) :
  match _sanitize_name a with String c _ => c <> "."%char | EmptyString => True end.
Proof.
  unfold _sanitize_name.
  pose proof (strip_head ". " (replace_chars sanitize_illegal_chars "_" a)) as Hh.
  destruct (strip ". " _) as [|c t]; [destruct (100 <? _); reflexivity|].
  assert (Hc : c <> "."%char) by (intros ->; discriminate).
  destruct (100 <? _); simpl; destruct (is_space c || Ascii.eqb c "_");
    try (intros E; discriminate); exact Hc.
Qed.

Lemma sanitize_name_part (a : string) :
  _sanitize_name a <> EmptyString -> part_ok (_sanitize_name a).
Proof.
  intros Hne; pose proof (sanitize_name_head a) as Hh.
  split; [exact Hne|split; [|split; [|apply sanitize_name_no_slash]]];
    destruct (_sanitize_name a) as [|c t]; try congruence; intros E; injection E as E _;
    contradiction.
Qed.

Lemma substring0_length_eq (n : nat) (s : string) :
  n <= String.length s -> String.length (substring 0 n s) = n.
Proof.
  rewrite !lsa_length, lsa_substring; cbn [skipn]; intros H; rewrite length_firstn; lia.
Qed.

Lemma optimize_path_part (n : string) :
  all_chars (fun c => negb (Ascii.eqb c "/"%char)) n = true ->
  optimize_path_for_windows n <> EmptyString -> part_ok (optimize_path_for_windows n).
Proof.
  intros Hn Hne; split; [exact Hne|].
  unfold optimize_path_for_windows in *.
  set (p := rstrip ". " (replace_chars windows_illegal_chars "_" n)) in *.
  assert (Hp : all_chars (fun c => negb (Ascii.eqb c "/"%char)) p = true)
    by (apply rstrip_all, replace_chars_keep; [reflexivity|exact Hn]).
  assert (Hlast : list_ascii_of_string p <> [] ->
                  exists l c, list_ascii_of_string p = l ++ [c] /\ mem_char c ". " = false)
    by (intros H; destruct (rstrip_last ". " (replace_chars windows_illegal_chars "_" n));
        [contradiction|assumption]).
  destruct (250 <? String.length p) eqn:Hlen.
  - apply Nat.ltb_lt in Hlen.
    destruct Hlast as (l & c & El & Hc).
    { intros E; rewrite lsa_length, E in Hlen; simpl in Hlen; lia. }
    unfold suffix; destruct (rfind_dot p) as [i|];
      [destruct ((0 <? i) && (i <? String.length p - 1)) eqn:Hi|].
    + apply andb_prop in Hi as [_ Hi]; apply Nat.ltb_lt in Hi.
      assert (Hl : String.length p = S (List.length l))
        by (rewrite lsa_length, El, length_app; simpl; lia).
      assert (Ht : list_ascii_of_string (substring i (String.length p - i) p) = skipn i l ++ [c]).
      { rewrite lsa_substring, El, skipn_app.
        replace (i - List.length l) with 0 by lia; cbn [skipn].
        apply firstn_all2; rewrite length_app, length_skipn; simpl; lia. }
      split; [|split]; try (eapply ends_outside_dots; [|exact Hc];
        rewrite lsa_append, Ht, app_assoc; reflexivity).
      rewrite all_chars_append, substring0_all, substring_all by exact Hp; reflexivity.
    + rewrite Nat.sub_0_r, str_append_empty_r.
      assert (L250 : String.length (substring 0 250 p) = 250) by (apply substring0_length_eq; lia).
      split; [|split]; [intros E; rewrite E in L250; discriminate
                       |intros E; rewrite E in L250; discriminate
                       |apply substring0_all, Hp].
    + rewrite Nat.sub_0_r, str_append_empty_r.
      assert (L250 : String.length (substring 0 250 p) = 250) by (apply substring0_length_eq; lia).
      split; [|split]; [intros E; rewrite E in L250; discriminate
                       |intros E; rewrite E in L250; discriminate
                       |apply substring0_all, Hp].
  - destruct Hlast as (l & c & El & Hc); [intros E; apply Hne; destruct p; [reflexivity|discriminate]|].
    destruct (ends_outside_dots p l c El Hc); auto.
Qed.

Lemma join_part (base : path) (s : string) :
  (s <> EmptyString -> part_ok s) ->
  exists r, join base s = base ++ r /\ List.length r <= 1 /\ Forall part_ok r.
Proof.
  intros H; unfold join; destruct (String.eqb s EmptyString) eqn:E.
  - exists []; rewrite app_nil_r; auto.
  - apply String.eqb_neq in E; exists [s]; simpl; auto.
Qed.

(** With [/] as the only path separator (POSIX paths), [_get_target_path]
    never leaves [target_base]: the target is [target_base] followed by at
    most two parts (the artist folder and the file name, each dropped when
    empty), and each part is non-empty, neither [.] nor [..], and free of
    [/], as long as the source file name has no [/].  So on POSIX neither an
    artist tag such as [..] or [a/../../b] nor a file name can place the
    copy outside the target directory.  The guarantee does not carry over to
    Windows paths: [_sanitize_name] keeps the backslash, so the artist tag
    [\evil] becomes the part [\evil], which Windows reads as a path from the
    drive root (the default base is F:/music production). *)
Theorem _get_target_path_inside_base (target_base : path) (file : File)
  (metadata : option Metadata) :
  all_chars (fun c => negb (Ascii.eqb c "/"%char)) (name_of (source_path file)) = true ->
  (exists rest, _get_target_path target_base file metadata = target_base ++ rest
                /\ List.length rest <= 2 /\ Forall part_ok rest)
  /\ _get_target_path ["F:"; "music production"]%string
       {| id := 1; source_path := ["music"; "a.mp3"]%string; file_size := 3;
          file_hash := None; status := Indexed |}
       (Some {| artist := Some "\evil"%string; album := None; title := None;
                year := None; bitrate := None; format := None |})
     = ["F:"; "music production"; "\evil"; "a.mp3"]%string.
Proof.
  intros Hn; split; [|vm_compute; reflexivity]. unfold _get_target_path.
  match goal with |- context [join target_base ?a] =>
    destruct (join_part target_base a) as (r1 & E1 & L1 & F1) end.
  { destruct metadata as [m|]; [destruct (truthy_str (artist m));
      [destruct (artist m) as [a|]; [apply sanitize_name_part|]|]|];
      intros _; (split; [discriminate|split; [discriminate|split; [discriminate|reflexivity]]]). }
  rewrite E1.
  destruct (join_part (target_base ++ r1)
              (optimize_path_for_windows (name_of (source_path file)))) as (r2 & E2 & L2 & F2).
  { apply optimize_path_part, Hn. }
  rewrite E2; exists (r1 ++ r2); rewrite app_assoc, length_app; split; [reflexivity|].
  split; [lia|apply Forall_app; auto].
Qed.

Lemma _get_target_path_inside_base_witness :
  all_chars (fun c => negb (Ascii.eqb c "/"%char))
            (name_of (source_path (ex_entry 1 ex_src1))) = true
  /\ exists rest, _get_target_path ex_base (ex_entry 1 ex_src1) None = ex_base ++ rest
                  /\ List.length rest <= 2 /\ Forall part_ok rest.
Proof.
  split; [reflexivity|].
  apply (_get_target_path_inside_base ex_base (ex_entry 1 ex_src1) None); reflexivity.
Defined.

(* ------------------------------------------------------------------------- *)
(** ** Re-indexing *)

Lemma index_file_known cfg w s p :
  existsb (fun f => path_eqb (source_path f) p) (ix_catalog s) = true ->
  ix_catalog (index_file cfg w s p) = ix_catalog s
  /\ ix_session (index_file cfg w s p) = ix_session s
  /\ ix_added (index_file cfg w s p) = ix_added s.
Proof.
  intros H; unfold index_file.
  destruct (ix_stopped s || idx_should_stop cfg (ix_seen s)); [auto|].
  destruct (in_paths p (ix_processed s)); [auto|]. rewrite H; auto.
Qed.

Lemma fold_index_file_known cfg w : forall b s,
  (forall p, In p b -> In p (map source_path (ix_catalog s))) ->
  ix_catalog (fold_left (index_file cfg w) b s) = ix_catalog s
  /\ ix_session (fold_left (index_file cfg w) b s) = ix_session s
  /\ ix_added (fold_left (index_file cfg w) b s) = ix_added s.
Proof.
  induction b as [|p b IH]; intros s Hb; simpl; [auto|].
  assert (Hk : existsb (fun f => path_eqb (source_path f) p) (ix_catalog s) = true).
  { destruct (proj1 (in_map_iff _ _ _) (Hb p (or_introl eq_refl))) as [f [Ef Hf]].
    apply existsb_exists; exists f; rewrite Ef; split; [exact Hf|apply path_eqb_refl]. }
  destruct (index_file_known cfg w s p Hk) as (E1 & E2 & E3).
  destruct (IH (index_file cfg w s p)) as (G1 & G2 & G3).
  { rewrite E1; intros q Hq; apply Hb; right; exact Hq. }
  rewrite G1, G2, G3; auto.
Qed.

Lemma index_batches_known cfg w total_files : forall bs s n,
  (forall b p, In b bs -> In p b -> In p (map source_path (ix_catalog s))) ->
  ix_session s = [] ->
  ix_catalog (index_batches cfg w total_files s n bs) = ix_catalog s
  /\ ix_added (index_batches cfg w total_files s n bs) = ix_added s.
Proof.
  induction bs as [|b bs IH]; intros s n Hbs Hs; simpl; [auto|].
  destruct (ix_stopped s || idx_should_stop cfg (ix_seen s)); [auto|].
  destruct (fold_index_file_known cfg w b s) as (E1 & E2 & E3).
  { intros p Hp; apply (Hbs b p (or_introl eq_refl) Hp). }
  destruct (IH (end_batch cfg total_files (fold_left (index_file cfg w) b s) n) (S n)) as [G1 G2].
  - cbn [end_batch ix_catalog]; rewrite E1, E2, Hs, app_nil_r.
    intros b' p Hb' Hp; apply (Hbs b' p (or_intror Hb') Hp).
  - reflexivity.
  - cbn [end_batch ix_catalog ix_added] in G1, G2.
    rewrite G1, G2, E1, E2, E3, Hs, app_nil_r; auto.
Qed.

(** Indexing a directory whose listed audio files are all in the catalog
    already (for instance indexing it a second time) adds no row and leaves
    the catalog as it was. *)
Theorem index_directory_known_files_unchanged (cfg : index_config) (w : fs)
  (walk : list walk_entry) (cat : list File) (stored : option checkpoint) (resume : bool) :
  (forall p, In p (get_files_sorted_by_location walk) -> In p (map source_path cat)) ->
  match index_directory cfg w true walk cat stored resume with
  | Some (r, cat', _, _) => cat' = cat /\ files_added r = 0
  | None => False
  end.
Proof.
  intros Hk; unfold index_directory; cbn [negb].
  match goal with |- context [index_batches cfg w ?t ?s0 0 ?bs] =>
    destruct (index_batches_known cfg w t bs s0 0) as [H1 H2];
    [|reflexivity|] end.
  - intros b p Hb Hp; apply Hk; rewrite <- (concat_batch_files _ (batch_size cfg)).
    apply in_concat; exists b; auto.
  - cbn [files_added]; rewrite H1, H2; auto.
Qed.

Lemma index_directory_known_files_unchanged_witness :
  (forall p, In p (get_files_sorted_by_location ex_walk)
             -> In p (map source_path [ex_entry 1 ex_src1]))
  /\ match index_directory (ex_index_config None) ex_fs true ex_walk
                           [ex_entry 1 ex_src1] None true with
     | Some (r, cat', _, _) => cat' = [ex_entry 1 ex_src1] /\ files_added r = 0
     | None => False
     end.
Proof.
  assert (Hk : forall p, In p (get_files_sorted_by_location ex_walk)
                         -> In p (map source_path [ex_entry 1 ex_src1])).
  { intros p Hp; vm_compute in Hp; destruct Hp as [<-|[]]; left; reflexivity. }
  split; [exact Hk|apply index_directory_known_files_unchanged, Hk].
Defined.

(* ------------------------------------------------------------------------- *)
(** ** What [migrate_library] does to the [files] table and which files it records *)

Lemma migrate_step_files base env tm stop meta s i f :
  let s' := migrate_step base env tm stop meta s i f in
  ms_files s' = ms_files s \/ ms_files s' = set_status (ms_files s) (id f) Migrated.
Proof.
  cbv zeta; unfold migrate_step.
  destruct (ms_stopped s || should_stop stop i); [left; reflexivity|].
  destruct (has_completed (ms_committed s) (id f)); [left; reflexivity|].
  destruct tm; [destruct (negb true && (i mod 10 =? 0)); left; reflexivity|].
  destruct (_migrate_file env (ms_fs s) f _) as [[|] w'];
    destruct (negb false && (i mod 10 =? 0)); simpl; auto.
Qed.

Lemma set_status_rel (sel : list File) (g : File) (a b : list File) :
  In g sel -> Forall2 (file_row_after_migration sel) a b ->
  Forall2 (file_row_after_migration sel) a (set_status b (id g) Migrated).
Proof.
  intros Hg H; unfold set_status; induction H as [|x y a b Hxy H IH]; simpl; constructor; auto.
  destruct (id y =? id g) eqn:E; [|exact Hxy].
  apply Nat.eqb_eq in E. destruct Hxy as (E1 & E2 & E3 & E4 & _).
  unfold file_row_after_migration; cbn [id source_path file_size file_hash status].
  repeat split; auto. right; split; [reflexivity|exists g; split; [exact Hg|congruence]].
Qed.

Lemma migrate_loop_files base env tm stop meta (sel a : list File) : forall l s i,
  incl l sel -> Forall2 (file_row_after_migration sel) a (ms_files s) ->
  Forall2 (file_row_after_migration sel) a (ms_files (migrate_loop base env tm stop meta s i l)).
Proof.
  induction l as [|f l IH]; intros s i Hl H; simpl; [exact H|].
  apply IH; [intros x Hx; apply Hl; right; exact Hx|].
  destruct (migrate_step_files base env tm stop meta s i f) as [E|E]; rewrite E;
    [exact H|apply set_status_rel; [apply Hl; left; reflexivity|exact H]].
Qed.

(** [migrate_library] neither adds nor removes [files] rows and changes no
    path, size or hash: row by row, the table afterwards is the table
    before, except that some statuses became [migrated], each for the id of
    a file the run selected. *)
Theorem migrate_library_files_table (target_base : path) (env : io_env) (test_mode : bool)
  (stop_at : option nat) (c : catalog) (w : fs) (skip_duplicates : bool) :
  let '(_, c', _, _) := migrate_library target_base env test_mode stop_at c w skip_duplicates in
  Forall2 (file_row_after_migration (select_files c skip_duplicates)) (files c) (files c').
Proof.
  unfold migrate_library.
  assert (H0 : Forall2 (file_row_after_migration (select_files c skip_duplicates))
                       (files c) (files c)).
  { induction (files c) as [|f l IH]; constructor; [|exact IH].
    unfold file_row_after_migration; auto 6. }
  pose proof (migrate_loop_files target_base env test_mode stop_at (metadata_of c)
                (select_files c skip_duplicates) (files c) (select_files c skip_duplicates)
                {| ms_files := files c; ms_committed := migrations c; ms_pending := [];
                   ms_fs := w; ms_migrated := 0; ms_skipped := 0; ms_failed := 0;
                   ms_errors := []; ms_mappings := []; ms_progress := [];
                   ms_stopped := false |} 0 (incl_refl _) H0) as H.
  destruct test_mode; exact H.
Qed.

(** With [skip_duplicates] (the default), every [Migration] row added by
    [migrate_library] is for a catalog file with status [indexed] or
    [analyzed] that either has no [duplicates] row or has a primary one: a
    non-primary duplicate is never migrated. *)
Theorem migrate_library_skips_non_primary_duplicates (target_base : path) (env : io_env)
  (test_mode : bool) (stop_at : option nat) (c : catalog) (w : fs) :
  let '(_, c', _, _) := migrate_library target_base env test_mode stop_at c w true in
  exists new, migrations c' = migrations c ++ new
    /\ forall m, In m new ->
       exists f, In f (files c) /\ mig_file_id m = id f
                 /\ (status f = Indexed \/ status f = Analyzed)
                 /\ (forall d, In d (duplicates c) -> dup_file_id d = id f ->
                       exists d', In d' (duplicates c) /\ dup_file_id d' = id f
                                  /\ is_primary d' = true).
Proof.
  unfold migrate_library.
  destruct (migrate_loop_rows target_base env test_mode stop_at (metadata_of c)
              (select_files c true)
              {| ms_files := files c; ms_committed := migrations c; ms_pending := [];
                 ms_fs := w; ms_migrated := 0; ms_skipped := 0; ms_failed := 0;
                 ms_errors := []; ms_mappings := []; ms_progress := [];
                 ms_stopped := false |} 0) as [new [E Hn]].
  set (s := migrate_loop _ _ _ _ _ _ _ _) in *.
  exists new; split.
  - destruct test_mode; simpl; [|rewrite app_nil_r];
      unfold mig_rows in E; simpl in E; rewrite app_nil_r in E; exact E.
  - intros m Hm. rewrite Forall_forall in Hn; destruct (Hn m Hm) as [f [Hf ->]].
    exists f. unfold select_files in Hf; apply filter_In in Hf as [Hf Hs].
    unfold selected in Hs; apply andb_prop in Hs as [Hst Hd].
    split; [exact Hf|split; [reflexivity|split]].
    + destruct (status f); try discriminate; auto.
    + intros d Hd0 Ed. cbn [negb orb] in Hd. apply orb_prop in Hd as [Hd|Hd].
      * exfalso. apply negb_true_iff in Hd. apply not_true_iff_false in Hd; apply Hd.
        apply existsb_exists; exists d; split; [exact Hd0|apply Nat.eqb_eq, Ed].
      * apply existsb_exists in Hd as [d' [Hd' Ep]]; apply andb_prop in Ep as [E1 E2].
        exists d'; split; [exact Hd'|split; [apply Nat.eqb_eq, E1|exact E2]].
Qed.

(** [total_groups] of [find_duplicates] is the number of distinct partial
    hashes carried by at least two files (files without a hash ignored). *)
Theorem find_duplicates_group_count (meta : nat -> option Metadata) (fs0 : list File) :
  let '(stats, _, _) := find_duplicates meta fs0 in
  exists hs, NoDup hs /\ List.length hs = total_groups stats
             /\ forall h, In h hs <-> 1 < List.length (filter (has_hash h) fs0).
Proof.
  unfold find_duplicates; cbv beta iota zeta; cbn [total_groups].
  exists (map fst (_group_by_hash fs0)).
  destruct (group_inv_fold fs0 [] []) as (Hnd & Hg & Hk).
  { split; [constructor|split; [intros k' l' []|intros g h' []]]. }
  simpl in Hnd, Hg, Hk.
  split; [|split].
  - unfold _group_by_hash; apply nodup_map_filter, Hnd.
  - unfold _analyze_duplicate_groups; rewrite !length_map, length_combine, length_seq, Nat.min_id.
    reflexivity.
  - intros h; split.
    + intros Hh; apply in_map_iff in Hh as [[k l] [Ek Hin]]; simpl in Ek; subst k.
      destruct (group_by_hash_in fs0 h l Hin) as [-> Hl]; exact Hl.
    + intros Hl.
      destruct (filter (has_hash h) fs0) as [|f r] eqn:Ef; [simpl in Hl; lia|].
      assert (Hf : In f (filter (has_hash h) fs0)) by (rewrite Ef; left; reflexivity).
      apply filter_In in Hf as [Hf Hh]; unfold has_hash in Hh.
      destruct (file_hash f) as [h'|] eqn:Eh; [|discriminate].
      apply String.eqb_eq in Hh; subst h'.
      destruct (proj1 (in_map_iff fst _ h) (Hk f h Hf Eh)) as [[k l] [Ek Hin]].
      simpl in Ek; subst k.
      change h with (fst (h, l)); apply in_map; unfold _group_by_hash; apply filter_In.
      split; [exact Hin|]. simpl; rewrite (Hg h l Hin), Ef; apply Nat.ltb_lt; exact Hl.
Qed.
